(** * Directory-tree comparison: a shallow embedding of [main.py],
      [tree_processor.py] and [lsh_signature.py]

    Python values are modelled as follows.
    - [str] is a Rocq [string], one [ascii] per character (code points up
      to 255); [str.encode()] is UTF-8, written out in [encode].
    - [int] is [Z]; [bool] is [bool]; [Optional[str]] is [option string].
    - a [set] of tuples is a [gset], and the order in which Python
      iterates it is a parameter ([set_order]); a list is a [list].
    - [int / int] and [2.0 * m / n] are modelled by the exact rational
      they denote, in lowest terms ([Qred]); Python rounds that rational
      to the nearest double, which preserves [<=] and, for the operand
      sizes that fit in memory, the strict comparison with [0.8].
    - a raised exception is an [Err] result; a dynamically added
      attribute ([depth], [weight], ...) is an entry of a finite map
      keyed by the node it belongs to. *)

From Stdlib Require Import ZArith QArith Qreduction Ascii String List Lia.
From stdpp Require Import base decidable option list gmap sets strings sorting.

Import ListNotations.
Local Open Scope string_scope.
Local Open Scope list_scope.
Local Open Scope Z_scope.

(** ** Exceptions *)

Inductive exn : Type :=
  | AttributeError (attr : string)
  | TypeError
  | ValueError
  | ConfigError
  | OutOfFuel.

Inductive result (A : Type) : Type :=
  | Ok (a : A)
  | Err (e : exn).
Arguments Ok {A} a.
Arguments Err {A} e.

#[global] Instance result_ret : MRet result := fun A a => Ok a.

#[global] Instance result_bind : MBind result := fun A B k m =>
  match m with
  | Ok a => k a
  | Err e => Err e
  end.

(** ** [hashlib.md5] *)

Module MD5.

Definition mask32 (x : Z) : Z := Z.land x 0xffffffff.

Definition rotl32 (x : Z) (c : Z) : Z :=
  mask32 (Z.lor (Z.shiftl x c) (Z.shiftr x (32 - c))).

Definition not32 (x : Z) : Z := Z.lxor x 0xffffffff.

Definition K : list Z :=
  [ 0xd76aa478; 0xe8c7b756; 0x242070db; 0xc1bdceee; 0xf57c0faf; 0x4787c62a; 0xa8304613; 0xfd469501;
    0x698098d8; 0x8b44f7af; 0xffff5bb1; 0x895cd7be; 0x6b901122; 0xfd987193; 0xa679438e; 0x49b40821;
    0xf61e2562; 0xc040b340; 0x265e5a51; 0xe9b6c7aa; 0xd62f105d; 0x02441453; 0xd8a1e681; 0xe7d3fbc8;
    0x21e1cde6; 0xc33707d6; 0xf4d50d87; 0x455a14ed; 0xa9e3e905; 0xfcefa3f8; 0x676f02d9; 0x8d2a4c8a;
    0xfffa3942; 0x8771f681; 0x6d9d6122; 0xfde5380c; 0xa4beea44; 0x4bdecfa9; 0xf6bb4b60; 0xbebfbc70;
    0x289b7ec6; 0xeaa127fa; 0xd4ef3085; 0x04881d05; 0xd9d4d039; 0xe6db99e5; 0x1fa27cf8; 0xc4ac5665;
    0xf4292244; 0x432aff97; 0xab9423a7; 0xfc93a039; 0x655b59c3; 0x8f0ccc92; 0xffeff47d; 0x85845dd1;
    0x6fa87e4f; 0xfe2ce6e0; 0xa3014314; 0x4e0811a1; 0xf7537e82; 0xbd3af235; 0x2ad7d2bb; 0xeb86d391 ].

Definition shifts : list Z :=
  [ 7; 12; 17; 22; 7; 12; 17; 22; 7; 12; 17; 22; 7; 12; 17; 22;
    5; 9; 14; 20; 5; 9; 14; 20; 5; 9; 14; 20; 5; 9; 14; 20;
    4; 11; 16; 23; 4; 11; 16; 23; 4; 11; 16; 23; 4; 11; 16; 23;
    6; 10; 15; 21; 6; 10; 15; 21; 6; 10; 15; 21; 6; 10; 15; 21 ].

(** The message, as bytes, followed by the padding: a [0x80] byte,
    zero bytes up to 56 modulo 64, and the bit length on 8 bytes,
    least significant first. *)
Fixpoint le_bytes (n : nat) (x : Z) : list Z :=
  match n with
  | O => []
  | S n' => Z.land x 0xff :: le_bytes n' (Z.shiftr x 8)
  end.

Definition pad (msg : list Z) : list Z :=
  let len := Z.of_nat (length msg) in
  let zeros := Z.to_nat ((55 - len) mod 64) in
  msg ++ 0x80 :: repeat 0 zeros ++ le_bytes 8 (8 * len).

Fixpoint word_of_le (bs : list Z) : Z :=
  match bs with
  | [] => 0
  | b :: bs' => Z.lor b (Z.shiftl (word_of_le bs') 8)
  end.

(** Cuts [bs] into words of four bytes. *)
Fixpoint words (fuel : nat) (bs : list Z) : list Z :=
  match fuel, bs with
  | S fuel', b0 :: b1 :: b2 :: b3 :: rest =>
      word_of_le [b0; b1; b2; b3] :: words fuel' rest
  | _, _ => []
  end.

Definition state : Type := Z * Z * Z * Z.

Definition round (M : list Z) (i : Z) (s : state) : state :=
  let '(a, b, c, d) := s in
  let '(f, g) :=
    if i <? 16 then (Z.lor (Z.land b c) (Z.land (not32 b) d), i)
    else if i <? 32 then (Z.lor (Z.land d b) (Z.land (not32 d) c), (5 * i + 1) mod 16)
    else if i <? 48 then (Z.lxor (Z.lxor b c) d, (3 * i + 5) mod 16)
    else (Z.lxor c (Z.lor b (not32 d)), (7 * i) mod 16) in
  let f' := mask32 (f + a + nth (Z.to_nat i) K 0 + nth (Z.to_nat g) M 0) in
  (d, mask32 (b + rotl32 f' (nth (Z.to_nat i) shifts 0)), b, c).

Definition block (s : state) (M : list Z) : state :=
  let '(a0, b0, c0, d0) := s in
  let '(a, b, c, d) :=
    fold_left (fun st i => round M (Z.of_nat i) st) (seq 0 64) s in
  (mask32 (a0 + a), mask32 (b0 + b), mask32 (c0 + c), mask32 (d0 + d)).

Fixpoint blocks (fuel : nat) (ws : list Z) (s : state) : state :=
  match fuel, ws with
  | S fuel', _ :: _ => blocks fuel' (skipn 16 ws) (block s (firstn 16 ws))
  | _, _ => s
  end.

Definition init : state := (0x67452301, 0xefcdab89, 0x98badcfe, 0x10325476).

Definition digest (msg : list Z) : list Z :=
  let ws := words (length msg + 72) (pad msg) in
  let '(a, b, c, d) := blocks (length ws) ws init in
  le_bytes 4 a ++ le_bytes 4 b ++ le_bytes 4 c ++ le_bytes 4 d.

Definition hex_digit (x : Z) : ascii :=
  ascii_of_nat (Z.to_nat (if x <? 10 then 48 + x else 87 + x)).

Fixpoint hex (bs : list Z) : string :=
  match bs with
  | [] => EmptyString
  | b :: bs' =>
      String (hex_digit (Z.shiftr b 4)) (String (hex_digit (Z.land b 0xf)) (hex bs'))
  end.

(** [hashlib.md5(msg).hexdigest()] *)
Definition hexdigest (msg : list Z) : string := hex (digest msg).

End MD5.

(** [s.encode()]: the UTF-8 bytes of a string. *)
Fixpoint encode (s : string) : list Z :=
  match s with
  | EmptyString => []
  | String c s' =>
      let n := Z.of_nat (nat_of_ascii c) in
      if n <? 128 then n :: encode s'
      else Z.lor 0xc0 (Z.shiftr n 6) :: Z.lor 0x80 (Z.land n 0x3f) :: encode s'
  end.

(** [hashlib.md5(s.encode()).hexdigest()] *)
Definition md5 (s : string) : string := MD5.hexdigest (encode s).

(** [''.join(l)] *)
Definition join (l : list string) : string := fold_right String.append "" l.

(** ** [FileNode] *)

(** The attributes [__init__] sets.  [content_hash] is [None] until the
    scanner stores a digest; it is never stored for a directory. *)
#[warnings="-register-all"]
Inductive FileNode : Type := mkFileNode {
  name : string;
  is_dir : bool;
  children : list FileNode;
  content_hash : option string;
  size : Z
}.

(** [FileNode(name, is_dir, size)] *)
Definition new_FileNode (name : string) (is_dir : bool) (size : Z) : FileNode :=
  mkFileNode name is_dir [] None size.

(** [self.children.append(child)] *)
Definition add_child (self child : FileNode) : FileNode :=
  mkFileNode (name self) (is_dir self) (children self ++ [child])
             (content_hash self) (size self).

(** [x or ''] for an optional string: [None] and [''] are both false. *)
Definition or_empty (x : option string) : string :=
  match x with
  | Some h => h
  | None => ""
  end.

Fixpoint calculate_hash (self : FileNode) : string :=
  if negb (is_dir self) then or_empty (content_hash self)
  else
    let child_hashes := List.map calculate_hash (children self) in
    md5 (join child_hashes).

(** ** [get_node_info] and [compare_trees] *)

(** The tuple [(node.name, node.is_dir, node.size, node.content_hash)]. *)
Definition info : Type := string * bool * Z * option string.

Definition node_info (node : FileNode) : info :=
  (name node, is_dir node, size node, content_hash node).

Fixpoint get_node_info (node : FileNode) : list info :=
  node_info node :: flat_map get_node_info (children node).

(** [len(s)] of a set, and [a / b] of two integers, which the code
    evaluates for a positive [b] only. *)
Definition len_set (s : gset info) : Z := Z.of_nat (base.size s).

Definition truediv (a b : Z) : Q := Qred (a # Z.to_pos b).

(** [len(intersection) / len(union) if union else 0] *)
Definition similarity_of (info1 info2 : gset info) : Q :=
  let intersection := info1 ∩ info2 in
  let union := info1 ∪ info2 in
  if decide (union = ∅) then 0%Q
  else truediv (len_set intersection) (len_set union).

(** [f"Only in {owner}: {item[0]}"] *)
Definition only_in (owner : string) (item : info) : string :=
  "Only in " ++ owner ++ ": " ++ item.1.1.1.

(** *** The order in which a set is iterated

    Python leaves the order in which a set is iterated open: it follows
    the hashes of the items, which change with the hash seed of the
    run, and the way the set was built.  A [set_order] stands for the
    order of one run: given the two lists the sets of [compare_trees]
    were built from, it ranks the items, and the loop visits them by
    ascending rank.  Nothing is assumed of the ranks, so whatever order
    the items of a set can come in is the order some [set_order] gives
    (lemma [iterate_any_order]); a statement about the program holds for
    every [set_order]. *)
Definition set_order : Type := list info -> list info -> info -> nat.

Fixpoint insert_by (rank : info -> nat) (x : info) (l : list info) : list info :=
  match l with
  | [] => [x]
  | y :: l' => if (rank x <=? rank y)%nat then x :: l else y :: insert_by rank x l'
  end.

(** [for item in s], the items by ascending rank. *)
Definition iterate (rank : info -> nat) (s : gset info) : list info :=
  fold_right (insert_by rank) [] (elements s).

(** The loop over [union - intersection]. *)
Definition differences_of (rank : info -> nat) (name1 name2 : string)
           (info1 info2 : gset info)
  : list string :=
  let intersection := info1 ∩ info2 in
  let union := info1 ∪ info2 in
  List.map (fun item =>
              if decide (item ∈ info1) then only_in name1 item
              else only_in name2 item)
           (iterate rank (union ∖ intersection)).

Definition compare_trees (order : set_order) (tree1 tree2 : FileNode)
  : Q * list string :=
  let nodes1 := get_node_info tree1 in
  let nodes2 := get_node_info tree2 in
  let info1 : gset info := list_to_set nodes1 in
  let info2 : gset info := list_to_set nodes2 in
  (similarity_of info1 info2,
   differences_of (order nodes1 nodes2) (name tree1) (name tree2) info1 info2).

(** ** [difflib.SequenceMatcher(None, a, b).ratio()]

    The matcher with no junk predicate and [autojunk] on, as
    [find_similar_files] builds it.  Indices are Python integers. *)

Module difflib.

Definition Match : Type := Z * Z * Z.

Section Matcher.
Variables a b : list ascii.

Definition item (l : list ascii) (i : Z) : ascii :=
  nth (Z.to_nat i) l zero.

Definition len (l : list ascii) : Z := Z.of_nat (length l).

(** The positions of [x] in [b], increasing. *)
Definition positions (x : ascii) : list Z :=
  List.filter (fun j => if ascii_dec (item b j) x then true else false)
              (List.map Z.of_nat (seq 0 (length b))).

(** [__chain_b]: the index of [b]; when [b] has 200 elements or
    more, an element on more than 1% of the positions (plus one) is
    "popular" and loses its entry. *)
Definition b2j (x : ascii) : list Z :=
  let idxs := positions x in
  let n := len b in
  if (200 <=? n) && (n / 100 + 1 <? Z.of_nat (length idxs)) then []
  else idxs.

(** The loop [for j in b2j.get(a[i], nothing)]. *)
Fixpoint scan_row (blo bhi i : Z) (js : list Z) (j2len newj2len : gmap Z Z)
         (best : Match) : gmap Z Z * Match :=
  match js with
  | [] => (newj2len, best)
  | j :: js' =>
      if j <? blo then scan_row blo bhi i js' j2len newj2len best
      else if bhi <=? j then (newj2len, best)
      else
        let k := default 0 (j2len !! (j - 1)) + 1 in
        let newj2len' := <[j := k]> newj2len in
        let best' := if best.2 <? k then (i - k + 1, j - k + 1, k) else best in
        scan_row blo bhi i js' j2len newj2len' best'
  end.

(** The loop [for i in range(alo, ahi)]. *)
Fixpoint scan_rows (blo bhi : Z) (rows : list Z) (j2len : gmap Z Z)
         (best : Match) : Match :=
  match rows with
  | [] => best
  | i :: rows' =>
      let '(newj2len, best') :=
        scan_row blo bhi i (b2j (item a i)) j2len ∅ best in
      scan_rows blo bhi rows' newj2len best'
  end.

(** [while besti > alo and bestj > blo and a[besti-1] == b[bestj-1]]:
    each turn lowers [besti], so [besti - alo] turns are enough. *)
Fixpoint extend_back (n : nat) (alo blo : Z) (best : Match) : Match :=
  match n with
  | O => best
  | S n' =>
      let '(besti, bestj, bestsize) := best in
      if (alo <? besti) && (blo <? bestj)
         && (if ascii_dec (item a (besti - 1)) (item b (bestj - 1))
             then true else false)
      then extend_back n' alo blo (besti - 1, bestj - 1, bestsize + 1)
      else best
  end.

(** [while besti+bestsize < ahi and bestj+bestsize < bhi and
    a[besti+bestsize] == b[bestj+bestsize]]. *)
Fixpoint extend_forth (n : nat) (ahi bhi : Z) (best : Match) : Match :=
  match n with
  | O => best
  | S n' =>
      let '(besti, bestj, bestsize) := best in
      if (besti + bestsize <? ahi) && (bestj + bestsize <? bhi)
         && (if ascii_dec (item a (besti + bestsize)) (item b (bestj + bestsize))
             then true else false)
      then extend_forth n' ahi bhi (besti, bestj, bestsize + 1)
      else best
  end.

(** With no junk predicate the set of junk elements is empty, and
    the two loops that extend a match over junk never run. *)
Definition find_longest_match (alo ahi blo bhi : Z) : Match :=
  let rows := List.map (fun k => alo + Z.of_nat k) (seq 0 (Z.to_nat (ahi - alo))) in
  let best := scan_rows blo bhi rows ∅ (alo, blo, 0) in
  let best := extend_back (Z.to_nat (best.1.1 - alo)) alo blo best in
  extend_forth (Z.to_nat (ahi - (best.1.1 + best.2))) ahi bhi best.

(** The queue loop of [get_matching_blocks]; the head of the list is
    the end of the Python list. *)
Fixpoint matching_loop (fuel : nat) (queue : list (Z * Z * Z * Z))
         (matching_blocks : list Match) : result (list Match) :=
  match queue with
  | [] => Ok matching_blocks
  | (alo, ahi, blo, bhi) :: queue' =>
      match fuel with
      | O => Err OutOfFuel
      | S fuel' =>
          let x := find_longest_match alo ahi blo bhi in
          let '(i, j, k) := x in
          if k =? 0 then matching_loop fuel' queue' matching_blocks
          else
            let q1 := if (alo <? i) && (blo <? j)
                      then (alo, i, blo, j) :: queue' else queue' in
            let q2 := if (i + k <? ahi) && (j + k <? bhi)
                      then (i + k, ahi, j + k, bhi) :: q1 else q1 in
            matching_loop fuel' q2 (matching_blocks ++ [x])
      end
  end.

(** The blocks before they are sorted and merged and before the
    closing [(la, lb, 0)] is added; none of that changes the sum of
    the sizes, which is all [ratio] reads. *)
Definition get_matching_blocks : result (list Match) :=
  matching_loop (2 * length a + 1) [(0, len a, 0, len b)] [].

Definition calculate_ratio (matches length : Z) : Q :=
  if length =? 0 then 1%Q else Qred ((2 * matches) # Z.to_pos length).

Definition ratio : result Q :=
  blocks ← get_matching_blocks;
  let matches := fold_right Z.add 0 (List.map (fun t : Match => t.2) blocks) in
  Ok (calculate_ratio matches (len a + len b)).

End Matcher.

End difflib.

(** [difflib.SequenceMatcher(None, x, y).ratio()] on two attribute
    values.  The constructor starts from [self.a = self.b = None], and
    [set_seq1] and [set_seq2] return at once when handed the very
    object that is stored: with [None] for both, [matching_blocks] is
    never set and [ratio] raises [AttributeError] on reading it; with
    [None] for one, [matching_blocks] is set and [len(None)] raises
    [TypeError]. *)
Definition SequenceMatcher_ratio (x y : option string) : result Q :=
  match x, y with
  | Some s, Some t =>
      difflib.ratio (list_ascii_of_string s) (list_ascii_of_string t)
  | None, None => Err (AttributeError "matching_blocks")
  | _, _ => Err TypeError
  end.

(** ** [find_similar_files] *)

Definition triple : Type := string * string * Q.

(** [x > y] on the rationals. *)
Definition Qgtb (x y : Q) : bool := negb (Qle_bool x y).

(** The loop [for file2 in files2]. *)
Fixpoint similar_row (file1 : info) (files2 : list info)
         (similar_files : list triple) : result (list triple) :=
  match files2 with
  | [] => Ok similar_files
  | file2 :: files2' =>
      if negb (String.eqb file1.1.1.1 file2.1.1.1) then
        similarity ← SequenceMatcher_ratio file1.2 file2.2;
        if Qgtb similarity (8 # 10) then
          similar_row file1 files2'
                      (similar_files ++ [(file1.1.1.1, file2.1.1.1, similarity)])
        else similar_row file1 files2' similar_files
      else similar_row file1 files2' similar_files
  end.

(** The loop [for file1 in files1]. *)
Fixpoint similar_rows (files1 files2 : list info)
         (similar_files : list triple) : result (list triple) :=
  match files1 with
  | [] => Ok similar_files
  | file1 :: files1' =>
      similar_files' ← similar_row file1 files2 similar_files;
      similar_rows files1' files2 similar_files'
  end.

Definition find_similar_files (tree1 tree2 : FileNode) : result (list triple) :=
  let files1 := List.filter (fun node : info => negb node.1.1.2) (get_node_info tree1) in
  let files2 := List.filter (fun node : info => negb node.1.1.2) (get_node_info tree2) in
  similar_rows files1 files2 [].

(** ** [process_tree]

    A node is named by the child indices that lead to it from the root.
    The attributes the pass adds to the objects live in [annotations];
    an attribute that was never assigned has no entry, and reading it
    raises [AttributeError]. *)

Abbreviation path := (list nat).

Section TreeProcessor.

(** The values of [weight_calculator.calculate_dynamic_weight] and the
    [datasketch.MinHash] objects. *)
Variables W MH : Type.

Record annotations : Type := mkAnnotations {
  depth : gmap path Z;
  weight : gmap path W;
  signature : gmap path MH;
  max_depth : gmap path Z;
  max_branching_factor : gmap path Z
}.

Definition set_depth (p : path) (d : Z) (st : annotations) : annotations :=
  mkAnnotations (<[p := d]> (depth st)) (weight st) (signature st)
                (max_depth st) (max_branching_factor st).

Definition set_weight (p : path) (w : W) (st : annotations) : annotations :=
  mkAnnotations (depth st) (<[p := w]> (weight st)) (signature st)
                (max_depth st) (max_branching_factor st).

Definition set_signature (p : path) (s : MH) (st : annotations) : annotations :=
  mkAnnotations (depth st) (weight st) (<[p := s]> (signature st))
                (max_depth st) (max_branching_factor st).

Definition set_maxima (p : path) (d b : Z) (st : annotations) : annotations :=
  mkAnnotations (depth st) (weight st) (signature st)
                (<[p := d]> (max_depth st)) (<[p := b]> (max_branching_factor st)).

(** [node.depth] *)
Definition get_depth (p : path) (st : annotations) : result Z :=
  match depth st !! p with
  | Some d => Ok d
  | None => Err (AttributeError "depth")
  end.

(** The external collaborators: the weighting function, which may read
    the node, the root and every attribute reachable from them, the
    [MinHash(num_perm=...)] constructor and [MinHash.update]. *)
Variable calculate_dynamic_weight : FileNode -> annotations -> path -> result W.
Variable MinHash : Z -> result MH.
Variable update : MH -> list Z -> result MH.

(** [lsh_signature.compute_node_signature] *)
Fixpoint update_all (minhash : MH) (nodes : list FileNode) : result MH :=
  match nodes with
  | [] => Ok minhash
  | child :: nodes' =>
      minhash' ← update minhash (encode (name child));
      update_all minhash' nodes'
  end.

Definition compute_node_signature (node : FileNode) (num_perm : Z) : result MH :=
  minhash ← MinHash num_perm;
  minhash ← update minhash (encode (name node));
  update_all minhash (children node).

(** The children of the node at [p], each with its own path. *)
Definition child_entries (p : path) (node : FileNode) : list (path * FileNode) :=
  imap (fun i child => (p ++ [i], child)) (children node).

(** The first loop of [process_tree].  The head of [stack] is the end
    of the Python list, so the children, appended in order, come out
    last child first. *)
Fixpoint metrics_loop (fuel : nat) (stack : list (path * FileNode * option path))
         (max_d max_b : Z) (st : annotations)
  : result (Z * Z) * annotations :=
  match stack with
  | [] => (Ok (max_d, max_b), st)
  | (p, node, parent) :: stack' =>
      match fuel with
      | O => (Err OutOfFuel, st)
      | S fuel' =>
          let assigned :=
            match parent with
            | Some q => d ← get_depth q st; Ok (set_depth p (d + 1) st)
            | None => Ok st
            end in
          match assigned with
          | Err e => (Err e, st)
          | Ok st1 =>
              match get_depth p st1 with
              | Err e => (Err e, st1)
              | Ok d =>
                  let max_d' := Z.max max_d d in
                  let max_b' := Z.max max_b (Z.of_nat (length (children node))) in
                  let pushed :=
                    List.map (fun e : path * FileNode => (e, Some p))
                             (child_entries p node) in
                  metrics_loop fuel' (rev pushed ++ stack') max_d' max_b' st1
              end
          end
      end
  end.

(** The loop [for node in traverse_tree(root)]: the generator hands
    out the node on top of its stack, the body runs, and only then
    does the generator push the children. *)
Fixpoint annotate_loop (fuel : nat) (root : FileNode) (num_perm : Z)
         (stack : list (path * FileNode)) (st : annotations)
  : result unit * annotations :=
  match stack with
  | [] => (Ok (), st)
  | (p, node) :: stack' =>
      match fuel with
      | O => (Err OutOfFuel, st)
      | S fuel' =>
          match calculate_dynamic_weight root st p with
          | Err e => (Err e, st)
          | Ok w =>
              let st1 := set_weight p w st in
              match compute_node_signature node num_perm with
              | Err e => (Err e, st1)
              | Ok s =>
                  let st2 := set_signature p s st1 in
                  annotate_loop fuel' root num_perm
                                (rev (child_entries p node) ++ stack') st2
              end
          end
      end
  end.

(** The number of nodes of a tree: the iterations either loop needs. *)
Fixpoint tree_size (node : FileNode) : nat :=
  S (list_sum (List.map tree_size (children node))).

Definition process_tree (root : FileNode) (num_perm : Z) (st : annotations)
  : result unit * annotations :=
  let fuel := tree_size root in
  match metrics_loop fuel [([], root, None)] 0 0 st with
  | (Err e, st1) => (Err e, st1)
  | (Ok (max_d, max_b), st1) =>
      let st2 := set_maxima [] max_d max_b st1 in
      annotate_loop fuel root num_perm [([], root)] st2
  end.

End TreeProcessor.

Arguments depth {W MH} _.
Arguments weight {W MH} _.
Arguments signature {W MH} _.
Arguments max_depth {W MH} _.
Arguments max_branching_factor {W MH} _.
Arguments mkAnnotations {W MH} _ _ _ _ _.
Arguments set_depth {W MH} _ _ _.
Arguments set_weight {W MH} _ _ _.
Arguments set_signature {W MH} _ _ _.
Arguments set_maxima {W MH} _ _ _ _.
Arguments get_depth {W MH} _ _.
Arguments update_all {MH} _ _ _.
Arguments compute_node_signature {MH} _ _ _ _.
Arguments metrics_loop {W MH} _ _ _ _ _.
Arguments annotate_loop {W MH} _ _ _ _ _ _ _ _.
Arguments process_tree {W MH} _ _ _ _ _ _.

(** The attributes of freshly built [FileNode] objects: none. *)
Definition fresh {W MH} : annotations W MH := mkAnnotations ∅ ∅ ∅ ∅ ∅.

(** ** Auxiliary definitions for the statements *)

(** Every node of a tree, in the order [get_node_info] lists them. *)
Fixpoint nodes (t : FileNode) : list FileNode :=
  t :: flat_map nodes (children t).

(** The node a path leads to, if any. *)
Fixpoint subtree (p : path) (t : FileNode) : option FileNode :=
  match p with
  | [] => Some t
  | i :: p' =>
      match children t !! i with
      | Some c => subtree p' c
      | None => None
      end
  end.

Definition with_children (t : FileNode) (cs : list FileNode) : FileNode :=
  mkFileNode (name t) (is_dir t) cs (content_hash t) (size t).

(** The tree with the node at [p] replaced by [new]. *)
Fixpoint replace_at (p : path) (new : FileNode) (t : FileNode) : FileNode :=
  match p with
  | [] => new
  | i :: p' =>
      match children t !! i with
      | Some c => with_children t (<[i := replace_at p' new c]> (children t))
      | None => t
      end
  end.

(** [add_child] called on the node at [p]. *)
Fixpoint add_child_at (p : path) (child : FileNode) (t : FileNode) : FileNode :=
  match p with
  | [] => add_child t child
  | i :: p' =>
      match children t !! i with
      | Some c => with_children t (<[i := add_child_at p' child c]> (children t))
      | None => t
      end
  end.

(** A file as the scanner builds it, a file whose digest was never
    stored, and a directory. *)
Definition file (n : string) (sz : Z) (h : string) : FileNode :=
  mkFileNode n false [] (Some h) sz.

Definition unhashed_file (n : string) (sz : Z) : FileNode :=
  new_FileNode n false sz.

Definition directory (n : string) (cs : list FileNode) : FileNode :=
  fold_left add_child cs (new_FileNode n true 0).

(** The flattened set of a tree, as [compare_trees] builds it. *)
Definition info_set (t : FileNode) : gset info := list_to_set (get_node_info t).

(** The quotient in the words of the specification, on the two
    flattened lists: the distinct entries of the first that occur in the
    second, over the distinct entries of both. *)
Definition jaccard_spec (A B : list info) : Q :=
  let inter := filter (fun x => x ∈ B) (remove_dups A) in
  let union := remove_dups (A ++ B) in
  match union with
  | [] => 0%Q
  | _ :: _ => (inject_Z (Z.of_nat (length inter)) / inject_Z (Z.of_nat (length union)))%Q
  end.

(** An order for concrete runs: the items as they were first added. *)
Fixpoint position (x : info) (l : list info) : nat :=
  match l with
  | [] => O
  | y :: l' => if decide (x = y) then O else S (position x l')
  end.

Definition first_seen : set_order :=
  fun nodes1 nodes2 item => position item (nodes1 ++ nodes2).

(** The two trees of the end-to-end scenario of the specification. *)
Definition treeA : FileNode :=
  directory "root" [file "fileX" 10 "abc"; directory "dirY" [file "fileZ" 5 "def"]].

Definition treeB : FileNode :=
  directory "root" [file "fileW" 10 "abc"; directory "dirY" [file "fileZ" 5 "def"]].

(** Invariants of the matcher's loops. *)

(** A match that lies inside the window [alo, ahi) of [a]. *)
Definition inside (alo ahi : Z) (m : difflib.Match) : Prop :=
  alo <= m.1.1 /\ m.1.1 + m.2 <= ahi /\ 0 <= m.2.

(** The run lengths of a row are positive and at most [c]. *)
Definition runs_upto (c : Z) (j2len : gmap Z Z) : Prop :=
  forall j v, j2len !! j = Some v -> 1 <= v <= c.

(** What a window still costs the queue loop: one turn for itself and
    two for each element of [a] it spans. *)
Definition cost (w : Z * Z * Z * Z) : nat :=
  S (2 * Z.to_nat (w.1.1.2 - w.1.1.1)).

Definition well_formed (w : Z * Z * Z * Z) : Prop := w.1.1.1 <= w.1.1.2.

(** Every file of the tree carries a digest, as every file the scanner
    builds does. *)
Definition all_files_hashed (t : FileNode) : bool :=
  forallb (fun n => is_dir n || match content_hash n with
                               | Some _ => true
                               | None => false
                               end)
          (nodes t).

(** The near-duplicates in the words of the specification: for every
    pair of files, one of each tree, with differing names, the ratio of
    the two fingerprints, reported when it exceeds the threshold. *)
Definition similar_pair (n1 n2 : FileNode) : list triple :=
  if negb (String.eqb (name n1) (name n2)) then
    match SequenceMatcher_ratio (content_hash n1) (content_hash n2) with
    | Ok score => if Qgtb score (8 # 10) then [(name n1, name n2, score)] else []
    | Err _ => []
    end
  else [].

Definition files (t : FileNode) : list FileNode :=
  List.filter (fun n => negb (is_dir n)) (nodes t).

Definition similar_pairs (tree1 tree2 : FileNode) : list triple :=
  flat_map (fun n1 => flat_map (similar_pair n1) (files tree2)) (files tree1).

(** The length of the longest path of a tree and the largest number of
    children of any of its nodes. *)
Fixpoint height (t : FileNode) : nat :=
  list_max (List.map (fun c => S (height c)) (children t)).

Fixpoint max_branching (t : FileNode) : nat :=
  Nat.max (length (children t)) (list_max (List.map max_branching (children t))).

(** The turns the first loop of [process_tree] takes to empty a stack. *)
Definition stack_size (stack : list (path * FileNode * option path)) : nat :=
  list_sum (List.map (fun e => tree_size e.1.2) stack).

(** The children of the node at [p] as the first loop pushes them. *)
Definition children_stack (p : path) (cs : list FileNode)
  : list (path * FileNode * option path) :=
  rev (List.map (fun e : path * FileNode => (e, Some p))
                (imap (fun i child => (p ++ [i], child)) cs)).

(** Collaborators for concrete runs: a weight of 1 for every node, a
    [MinHash] that records the strings it is fed, and a constructor that
    rejects a number of permutations below 1. *)
Definition unit_weight
  : FileNode -> annotations nat (list (list Z)) -> path -> result nat :=
  fun _ _ _ => Ok 1%nat.

Definition rejecting_MinHash (num_perm : Z) : result (list (list Z)) :=
  if num_perm <=? 0 then Err ValueError else Ok [].

Definition recording_update (m : list (list Z)) (x : list Z)
  : result (list (list Z)) :=
  Ok (m ++ [x]).

(** What the first loop leaves alone, and what it has done once the
    subtree at [p], whose root node has depth [d], was visited. *)
Definition same_but_depth {W MH} (st st' : annotations W MH) : Prop :=
  weight st' = weight st /\ signature st' = signature st
  /\ max_depth st' = max_depth st
  /\ max_branching_factor st' = max_branching_factor st.

Definition depths_assigned {W MH} (p : path) (d : Z) (node : FileNode)
           (st st' : annotations W MH) : Prop :=
  (forall r n, subtree r node = Some n ->
               depth st' !! (p ++ r) = Some (d + Z.of_nat (length r)))
  /\ (forall x, ~ p `prefix_of` x -> depth st' !! x = depth st !! x)
  /\ same_but_depth st st'.

(** The first loop, started on a single node whose depth is or is about
    to be [d], empties its stack and updates the two maxima. *)
Definition visits (W MH : Type) (node : FileNode) : Prop :=
  forall (p : path) (parent : option path) (d max_d max_b : Z)
         (st : annotations W MH),
    match parent with
    | Some q => depth st !! q = Some (d - 1)
    | None => depth st !! p = Some d
    end ->
    exists st',
      metrics_loop (tree_size node) [(p, node, parent)] max_d max_b st
      = (Ok (Z.max max_d (d + Z.of_nat (height node)),
             Z.max max_b (Z.of_nat (max_branching node))), st')
      /\ depths_assigned p d node st st'.

(** The turns the second loop of [process_tree] takes to empty a stack. *)
Definition nodes_left (stack : list (path * FileNode)) : nat :=
  list_sum (List.map (fun e => tree_size e.2) stack).

(** ** Further definitions for the statements *)

(** A string of lowercase hexadecimal digits. *)
Definition is_hex_digit (c : ascii) : bool :=
  existsb (Ascii.eqb c) (list_ascii_of_string "0123456789abcdef").

Definition is_hex_string (s : string) : bool :=
  forallb is_hex_digit (list_ascii_of_string s).

(** The tree with every name and size replaced. *)
Fixpoint relabel (rename : string -> string) (resize : Z -> Z) (t : FileNode)
  : FileNode :=
  mkFileNode (rename (name t)) (is_dir t)
             (List.map (relabel rename resize) (children t))
             (content_hash t) (resize (size t)).

(** What the matcher raises on a pair of files that
    [find_similar_files] hands to it with a digest missing, and the
    exceptions of all such pairs in the order of the two loops. *)
Definition pair_error (n1 n2 : FileNode) : option exn :=
  if negb (String.eqb (name n1) (name n2)) then
    match content_hash n1, content_hash n2 with
    | Some _, Some _ => None
    | None, None => Some (AttributeError "matching_blocks")
    | _, _ => Some TypeError
    end
  else None.

Definition row_errors (n1 : FileNode) (l2 : list FileNode) : list exn :=
  flat_map (fun n2 => option_list (pair_error n1 n2)) l2.

Definition pair_errors (tree1 tree2 : FileNode) : list exn :=
  flat_map (fun n1 => row_errors n1 (files tree2)) (files tree1).

(** ** [compute_node_signature]: what the MinHash is handed *)

(** The byte strings [compute_node_signature] hands to [update], in
    order, and the updates of a MinHash with a list of strings in turn,
    which the first exception ends. *)
Definition fed_strings (node : FileNode) : list (list Z) :=
  encode (name node) :: List.map (fun child => encode (name child)) (children node).

Fixpoint feed {MH : Type} (update : MH -> list Z -> result MH)
         (minhash : MH) (strings : list (list Z)) : result MH :=
  match strings with
  | [] => Ok minhash
  | x :: strings' =>
      minhash' ← update minhash x;
      feed update minhash' strings'
  end.

(** ** [traverse_tree] *)

(** The nodes the generator hands out, in order.  As in [process_tree]
    the head of [stack] is the end of the Python list. *)
Fixpoint traverse_loop (fuel : nat) (stack : list (path * FileNode))
  : result (list (path * FileNode)) :=
  match stack with
  | [] => Ok []
  | (p, node) :: stack' =>
      match fuel with
      | O => Err OutOfFuel
      | S fuel' =>
          rest ← traverse_loop fuel' (rev (child_entries p node) ++ stack');
          Ok ((p, node) :: rest)
      end
  end.

Definition traverse_tree (root : FileNode) : result (list (path * FileNode)) :=
  traverse_loop (tree_size root) [([], root)].

(** The same order by recursion on the tree: a node, then the subtrees
    of its children, the last child first. *)
Fixpoint walk (p : path) (t : FileNode) {struct t} : list (path * FileNode) :=
  (p, t) :: (fix go (cs : list FileNode) (i : nat) {struct cs}
               : list (path * FileNode) :=
               match cs with
               | [] => []
               | c :: cs' => go cs' (S i) ++ walk (p ++ [i]) c
               end) (children t) 0%nat.

Definition walk_entry (e : path * FileNode) : list (path * FileNode) :=
  walk e.1 e.2.

(** The body of the second loop of [process_tree], run over a list of
    nodes. *)
Section AnnotateList.
Variables W MH : Type.
Variable calculate_dynamic_weight : FileNode -> annotations W MH -> path -> result W.
Variable MinHash : Z -> result MH.
Variable update : MH -> list Z -> result MH.

Fixpoint annotate_list (root : FileNode) (num_perm : Z)
         (l : list (path * FileNode)) (st : annotations W MH)
  : result unit * annotations W MH :=
  match l with
  | [] => (Ok (), st)
  | (p, node) :: l' =>
      match calculate_dynamic_weight root st p with
      | Err e => (Err e, st)
      | Ok w =>
          let st1 := set_weight p w st in
          match compute_node_signature MinHash update node num_perm with
          | Err e => (Err e, st1)
          | Ok s => annotate_list root num_perm l' (set_signature p s st1)
          end
      end
  end.

End AnnotateList.

Arguments annotate_list {W MH} _ _ _ _ _ _ _.

(** ** [scan_directory] and [parallel_scan_directory]

    The file system is what the calls show of it.  A [DirEntry] is an
    item of [os.scandir]: a directory with the items of its own listing,
    or anything else with the size [stat] reports and the bytes [read]
    returns.  [None] stands for a listing or a file that cannot be
    read: the call raises [OSError]. *)

#[warnings="-register-all"]
Inductive DirEntry : Type :=
  | FileItem (entry_name : string) (st_size : Z) (content : option (list Z))
  | DirItem (entry_name : string) (listing : option (list DirEntry)).

Inductive os_result (A : Type) : Type :=
  | Done (a : A)
  | OSError (filename : string).
Arguments Done {A} a.
Arguments OSError {A} filename.

(** [os.path.basename] and [os.path.join] of two components. *)
Fixpoint has_sep (p : string) : bool :=
  match p with
  | EmptyString => false
  | String c p' => Ascii.eqb c "/" || has_sep p'
  end.

Fixpoint basename (p : string) : string :=
  match p with
  | EmptyString => EmptyString
  | String c p' =>
      if has_sep p' then basename p'
      else if Ascii.eqb c "/" then p' else p
  end.

Fixpoint endswith_sep (p : string) : bool :=
  match p with
  | EmptyString => false
  | String c EmptyString => Ascii.eqb c "/"
  | String _ p' => endswith_sep p'
  end.

Definition startswith_sep (p : string) : bool :=
  match p with
  | String c _ => Ascii.eqb c "/"
  | EmptyString => false
  end.

Definition path_join (a b : string) : string :=
  if startswith_sep b then b
  else if String.eqb a "" || endswith_sep a then a +:+ b
  else a +:+ "/" +:+ b.

(** The body of the loop [for item in os.scandir(path)] of
    [scan_directory]: the child an item gives.  For a directory this is
    the recursive call [scan_directory(item.path)], whose own loop is
    written out here for the recursion to be structural; the lemma
    [scan_item_dir] folds it back. *)
Fixpoint scan_item (path : string) (item : DirEntry) {struct item}
  : os_result FileNode :=
  match item with
  | DirItem n listing =>
      match listing with
      | Some l =>
          (fix loop (items : list DirEntry) (root : FileNode) {struct items}
             : os_result FileNode :=
             match items with
             | [] => Done root
             | item' :: items' =>
                 match scan_item (path_join path n) item' with
                 | Done child => loop items' (add_child root child)
                 | OSError f => OSError f
                 end
             end) l (new_FileNode (basename (path_join path n)) true 0)
      | None => OSError (path_join path n)
      end
  | FileItem n sz content =>
      match content with
      | Some bytes => Done (mkFileNode n false [] (Some (MD5.hexdigest bytes)) sz)
      | None => OSError (path_join path n)
      end
  end.

(** The loop [for item in os.scandir(path)]. *)
Fixpoint scan_loop (path : string) (items : list DirEntry) (root : FileNode)
         {struct items} : os_result FileNode :=
  match items with
  | [] => Done root
  | item :: items' =>
      match scan_item path item with
      | Done child => scan_loop path items' (add_child root child)
      | OSError f => OSError f
      end
  end.

Definition scan_directory (path : string) (listing : option (list DirEntry))
  : os_result FileNode :=
  match listing with
  | Some l => scan_loop path l (new_FileNode (basename path) true 0)
  | None => OSError path
  end.

(** [calculate_file_hash] and the [process_item] of
    [parallel_scan_directory]. *)
Definition calculate_file_hash (file_path : string) (content : option (list Z))
  : os_result string :=
  match content with
  | Some bytes => Done (MD5.hexdigest bytes)
  | None => OSError file_path
  end.

Definition process_item (path : string) (item : DirEntry) : os_result FileNode :=
  match item with
  | DirItem n listing => scan_directory (path_join path n) listing
  | FileItem n sz content =>
      match calculate_file_hash (path_join path n) content with
      | Done h => Done (mkFileNode n false [] (Some h) sz)
      | OSError f => OSError f
      end
  end.

(** The loop over [as_completed(futures)]: [future.result()] returns
    the child or raises what the worker raised. *)
Fixpoint collect (completed : list (os_result FileNode)) (root : FileNode)
  : os_result FileNode :=
  match completed with
  | [] => Done root
  | Done child :: completed' => collect completed' (add_child root child)
  | OSError f :: _ => OSError f
  end.

(** [as_completed] hands the futures over in the order the workers
    finish, which the caller does not control. *)
Definition parallel_scan_directory
           (as_completed : list (os_result FileNode) -> list (os_result FileNode))
           (path : string) (listing : option (list DirEntry))
  : os_result FileNode :=
  match listing with
  | Some l =>
      collect (as_completed (List.map (process_item path) l))
              (new_FileNode (basename path) true 0)
  | None => OSError path
  end.

(** An item and everything below it can be read. *)
Fixpoint readable (item : DirEntry) : bool :=
  match item with
  | FileItem _ _ content =>
      match content with Some _ => true | None => false end
  | DirItem _ listing =>
      match listing with
      | Some l => forallb readable l
      | None => false
      end
  end.

(** No name holds a separator, as no name of a file system does. *)
Fixpoint names_ok (item : DirEntry) : bool :=
  match item with
  | FileItem n _ _ => negb (has_sep n)
  | DirItem n listing =>
      negb (has_sep n)
      && match listing with
         | Some l => forallb names_ok l
         | None => true
         end
  end.

(** The node that mirrors a readable item. *)
Fixpoint mirror (item : DirEntry) : FileNode :=
  match item with
  | FileItem n sz content =>
      mkFileNode n false [] (option_map MD5.hexdigest content) sz
  | DirItem n listing =>
      mkFileNode n true
                 match listing with
                 | Some l => List.map mirror l
                 | None => []
                 end
                 None 0
  end.

(** The node [scan_item] builds for a readable item found in [path]:
    [mirror], but for the names of the directories, which the code takes
    from the joined path. *)
Fixpoint mirror_at (path : string) (item : DirEntry) : FileNode :=
  match item with
  | FileItem n sz content =>
      mkFileNode n false [] (option_map MD5.hexdigest content) sz
  | DirItem n listing =>
      mkFileNode (basename (path_join path n)) true
                 match listing with
                 | Some l => List.map (mirror_at (path_join path n)) l
                 | None => []
                 end
                 None 0
  end.

(** A node as a scan leaves it: a directory without digest and of size
    0, or a childless file with the digest of some bytes. *)
Definition scanned_node (n : FileNode) : Prop :=
  (is_dir n = true /\ content_hash n = None /\ size n = 0)
  \/ (is_dir n = false /\ children n = []
      /\ exists bytes, content_hash n = Some (MD5.hexdigest bytes)).

(** ** [calculate_directory_stats] *)

(** [str.rfind(c)]: the last position of [c], or -1. *)
Fixpoint rfind_from (c : ascii) (p : list ascii) (i : Z) (found : Z) : Z :=
  match p with
  | [] => found
  | x :: p' => rfind_from c p' (i + 1) (if Ascii.eqb x c then i else found)
  end.

Definition rfind (c : ascii) (p : list ascii) : Z := rfind_from c p 0 (-1).

(** The loop of [os.path.splitext] that skips leading dots: is there a
    character other than a dot among the [n] from [filenameIndex] on? *)
Fixpoint name_starts (n : nat) (p : list ascii) (filenameIndex : Z) : bool :=
  match n with
  | O => false
  | S n' =>
      if negb (Ascii.eqb (nth (Z.to_nat filenameIndex) p "."%char) ".")
      then true
      else name_starts n' p (filenameIndex + 1)
  end.

(** [os.path.splitext(p)] *)
Definition splitext (p : string) : string * string :=
  let chars := list_ascii_of_string p in
  let sepIndex := rfind "/" chars in
  let dotIndex := rfind "." chars in
  if (sepIndex <? dotIndex)
     && name_starts (Z.to_nat (dotIndex - (sepIndex + 1))) chars (sepIndex + 1)
  then (string_of_list_ascii (firstn (Z.to_nat dotIndex) chars),
        string_of_list_ascii (skipn (Z.to_nat dotIndex) chars))
  else (p, "").

(** [str.lower()], on the characters of the model. *)
Definition lower_char (c : ascii) : ascii :=
  let n := nat_of_ascii c in
  if ((65 <=? n) && (n <=? 90) || (192 <=? n) && (n <=? 214)
      || (216 <=? n) && (n <=? 222))%nat
  then ascii_of_nat (n + 32)
  else c.

Fixpoint lower (s : string) : string :=
  match s with
  | EmptyString => EmptyString
  | String c s' => String (lower_char c) (lower s')
  end.

(** [stats[k] += v] on a [defaultdict(int)]. *)
Definition incr (k : string) (v : Z) (stats : gmap string Z) : gmap string Z :=
  <[k := default 0 (stats !! k) + v]> stats.

(** The key of the extension count of a file. *)
Definition ext_key (n : FileNode) : string :=
  "files_" +:+ lower (splitext (name n)).2.

Fixpoint traverse (n : FileNode) (stats : gmap string Z) : gmap string Z :=
  let stats :=
    if is_dir n then incr "directories" 1 stats
    else
      let stats := incr "files" 1 stats in
      let stats := incr "total_size" (size n) stats in
      incr (ext_key n) 1 stats in
  fold_left (fun stats child => traverse child stats) (children n) stats.

Definition calculate_directory_stats (node : FileNode) : gmap string Z :=
  traverse node ∅.

(** What one node adds under the key [k], and whether it touches it. *)
Definition contribution (k : string) (n : FileNode) : Z :=
  if is_dir n then (if String.eqb k "directories" then 1 else 0)
  else (if String.eqb k "files" then 1 else 0)
       + (if String.eqb k "total_size" then size n else 0)
       + (if String.eqb k (ext_key n) then 1 else 0).

Definition touches (k : string) (n : FileNode) : bool :=
  if is_dir n then String.eqb k "directories"
  else String.eqb k "files" || String.eqb k "total_size" || String.eqb k (ext_key n).

Definition Zsum (l : list Z) : Z := fold_right Z.add 0 l.


(** ** [generate_tree_structure] *)

(** The key [(x.is_dir, x.name)] of the sort, and [a < b] on such
    tuples: the first components decide when they differ, [False]
    before [True]; the names, compared code point by code point, decide
    otherwise. *)
Definition sort_key (x : FileNode) : bool * string := (is_dir x, name x).

Definition key_lt (a b : bool * string) : bool :=
  match a.1, b.1 with
  | false, true => true
  | true, false => false
  | _, _ => String.ltb a.2 b.2
  end.

(** [sorted(l, key=key, reverse=True)]: descending keys, and items of
    equal keys in the order they had in [l]. *)
Section Sorted.
Context {A : Type} (key : A -> bool * string).

Fixpoint insert_reverse (x : A) (l : list A) : list A :=
  match l with
  | [] => [x]
  | y :: l' =>
      if key_lt (key x) (key y) then y :: insert_reverse x l' else x :: l
  end.

Definition sorted_reverse (l : list A) : list A := fold_right insert_reverse [] l.

End Sorted.

Definition newline : string := String "010"%char "".

(** The recursive calls are made on the children before the sort
    rather than after it, which makes the recursion structural; the
    lemma [generate_tree_structure_unfold] gives the equation in the
    order of the source. *)
Fixpoint generate_tree_structure (node : FileNode) (indent : string) : string :=
  let rendered :=
    List.map (fun child => (child, generate_tree_structure child (indent +:+ "  ")))
             (children node) in
  fold_left (fun result (r : FileNode * string) =>
               if is_dir r.1 then result +:+ r.2
               else result +:+ indent +:+ "  " +:+ name r.1 +:+ newline)
            (sorted_reverse (fun r => sort_key r.1) rendered)
            (indent +:+ name node +:+ newline).

(** Two trees that differ in the order of the children of some nodes,
    and in hashes and sizes, only. *)
#[warnings="-register-all"]
Inductive reordered : FileNode -> FileNode -> Prop :=
  | reordered_node t u ds :
      name t = name u -> is_dir t = is_dir u ->
      Forall2 reordered (children t) ds -> ds ≡ₚ children u ->
      reordered t u.

(** No node has two children of the same kind and name. *)
Definition distinct_siblings (t : FileNode) : Prop :=
  Forall (fun n => NoDup (List.map sort_key (children n))) (nodes t).

(** * Properties *)

(** ** Test vectors *)

Example md5_empty : md5 "" = "d41d8cd98f00b204e9800998ecf8427e".
Proof. vm_compute. reflexivity. Qed.

Example md5_abc : md5 "abc" = "900150983cd24fb0d6963f7d28e17f72".
Proof. vm_compute. reflexivity. Qed.

Example md5_two_blocks :
  md5 "abcdefghijklmnopqrstuvwxyzabcdefghijklmnopqrstuvwxyzabcdefghijklmnopqrstuvwxyz"
  = "15061fc3840896c5299a5b8cc1cf5b5f".
Proof. vm_compute. reflexivity. Qed.

(** A character beyond the ASCII range takes two bytes. *)
Example md5_e_acute :
  md5 (String (ascii_of_nat 233) "") = "66ddcd97cfdeabb2f6fb8a999b4bc76f".
Proof. vm_compute. reflexivity. Qed.

Example ratio_abcd_bcde :
  SequenceMatcher_ratio (Some "abcd") (Some "bcde") = Ok (3 # 4)%Q.
Proof. vm_compute. reflexivity. Qed.

(** ** Trees: induction, nodes, sub-nodes *)

Lemma FileNode_children_ind (P : FileNode -> Prop) :
  (forall n d cs h s, Forall P cs -> P (mkFileNode n d cs h s)) ->
  forall t, P t.
Proof.
  intros step. fix self 1. intros [n d cs h s]. apply step.
  induction cs as [|c cs IH]; constructor; [apply self | exact IH].
Qed.

Lemma get_node_info_nodes t :
  get_node_info t = List.map node_info (nodes t).
Proof.
  induction t as [n d cs h s IH] using FileNode_children_ind.
  cbn [get_node_info nodes children List.map]. f_equal.
  induction IH as [|c cs' Hc _ IHcs]; [reflexivity|].
  cbn [flat_map]. rewrite List.map_app, Hc, IHcs. reflexivity.
Qed.

Lemma elem_of_get_node_info x t :
  x ∈ get_node_info t <-> exists n, n ∈ nodes t /\ node_info n = x.
Proof.
  rewrite get_node_info_nodes, list_elem_of_In, in_map_iff.
  split; intros (n & H1 & H2); exists n.
  - split; [apply list_elem_of_In|]; assumption.
  - split; [|apply list_elem_of_In]; assumption.
Qed.

Lemma directory_eq n cs : directory n cs = mkFileNode n true cs None 0.
Proof.
  unfold directory, new_FileNode.
  change cs with ([] ++ cs) at 2. generalize (@nil FileNode) as acc.
  induction cs as [|c cs IH]; intros acc; cbn [fold_left].
  - rewrite app_nil_r. reflexivity.
  - unfold add_child at 2. cbn [name is_dir children content_hash size].
    rewrite IH, <- app_assoc. reflexivity.
Qed.

(** ** Strings *)

Lemma append_String c (s t : string) : String c s +:+ t = String c (s +:+ t).
Proof. reflexivity. Qed.

Lemma append_empty_l (t : string) : "" +:+ t = t.
Proof. reflexivity. Qed.

Lemma append_assoc (s t u : string) : (s +:+ t) +:+ u = s +:+ (t +:+ u).
Proof.
  induction s as [|c s IH]; [reflexivity|].
  rewrite !append_String, IH. reflexivity.
Qed.

Lemma append_empty_r (s : string) : s +:+ "" = s.
Proof.
  induction s as [|c s IH]; [reflexivity|].
  rewrite append_String, IH. reflexivity.
Qed.

Lemma append_inv_head (s t u : string) : s +:+ t = s +:+ u -> t = u.
Proof.
  induction s as [|c s IH]; [tauto|].
  rewrite !append_String. intros [= H]. auto.
Qed.

Lemma append_same_length (s s' t t' : string) :
  String.length s = String.length s' -> s +:+ t = s' +:+ t' -> s = s' /\ t = t'.
Proof.
  revert s'. induction s as [|c s IH]; intros [|c' s']; cbn [String.length];
    try discriminate.
  - auto.
  - rewrite !append_String. intros [= Hl] [= Hc Happ].
    destruct (IH _ Hl Happ). subst. auto.
Qed.

Lemma join_cons (s : string) (l : list string) : join (s :: l) = s +:+ join l.
Proof. reflexivity. Qed.

Lemma join_app (l1 l2 : list string) : join (l1 ++ l2) = join l1 +:+ join l2.
Proof.
  induction l1 as [|s l1 IH]; [reflexivity|].
  rewrite <- app_comm_cons, !join_cons, IH, append_assoc. reflexivity.
Qed.

(** ** [calculate_hash] *)

Lemma calculate_hash_file t :
  is_dir t = false -> calculate_hash t = or_empty (content_hash t).
Proof. destruct t; cbn. intros ->. reflexivity. Qed.

Lemma calculate_hash_dir t :
  is_dir t = true ->
  calculate_hash t = md5 (join (List.map calculate_hash (children t))).
Proof. destruct t; cbn. intros ->. reflexivity. Qed.

Lemma calculate_hash_with_children t cs cs' :
  children t = cs ->
  List.map calculate_hash cs = List.map calculate_hash cs' ->
  calculate_hash (with_children t cs') = calculate_hash t.
Proof.
  intros <- H. destruct t as [n d cs h s]; cbn in *.
  destruct d; cbn; [|reflexivity]. rewrite H. reflexivity.
Qed.

(** Replacing a node by one with the same fingerprint changes no
    fingerprint above it. *)
Lemma calculate_hash_replace_at p : forall t x y,
  subtree p t = Some x ->
  calculate_hash y = calculate_hash x ->
  calculate_hash (replace_at p y t) = calculate_hash t.
Proof.
  induction p as [|i p IH]; intros t x y Hsub Hxy; cbn in *.
  - congruence.
  - destruct (children t !! i) as [c|] eqn:Hc; [|reflexivity].
    apply calculate_hash_with_children with (cs := children t); [reflexivity|].
    rewrite list_fmap_insert.
    symmetry. apply list_insert_id.
    rewrite list_lookup_fmap, Hc. cbn. f_equal. symmetry. eauto.
Qed.

Lemma node_info_inj_iff n1 n2 :
  node_info n1 = node_info n2 <->
  name n1 = name n2 /\ is_dir n1 = is_dir n2 /\ size n1 = size n2
  /\ content_hash n1 = content_hash n2.
Proof.
  unfold node_info. split.
  - intros [= -> -> -> ->]. auto.
  - intros (-> & -> & -> & ->). reflexivity.
Qed.

Lemma elem_of_info_set x t :
  x ∈ info_set t <-> exists n, n ∈ nodes t /\ node_info n = x.
Proof. unfold info_set. rewrite elem_of_list_to_set. apply elem_of_get_node_info. Qed.

(** C8: a file whose [content_hash] is unset has the empty string as its
    fingerprint, no error is raised, and every directory above it gets
    the fingerprint it would get if the file carried the empty string:
    its parent hashes the concatenation with [""] at the file's place. *)
Theorem C8_unset_hash_is_empty (f : FileNode) :
  is_dir f = false ->
  content_hash f = None ->
  calculate_hash f = ""
  /\ (forall n l1 l2 h s,
        calculate_hash (mkFileNode n true (l1 ++ f :: l2) h s)
        = md5 (join (List.map calculate_hash l1) +:+ ""
               +:+ join (List.map calculate_hash l2)))
  /\ (forall t p,
        subtree p t = Some f ->
        calculate_hash t
        = calculate_hash
            (replace_at p (mkFileNode (name f) false (children f) (Some "") (size f)) t)).
Proof.
  intros Hfile Hnone.
  assert (Hf : calculate_hash f = "").
  { rewrite calculate_hash_file, Hnone by assumption. reflexivity. }
  split; [exact Hf|]. split.
  - intros n l1 l2 h s. rewrite calculate_hash_dir by reflexivity.
    cbn [children]. rewrite List.map_app, join_app. cbn [List.map].
    rewrite join_cons, Hf. reflexivity.
  - intros t p Hsub. symmetry.
    apply calculate_hash_replace_at with (x := f); [assumption|].
    rewrite Hf. reflexivity.
Qed.

Lemma C8_unset_hash_is_empty_witness :
  let f := unhashed_file "notes.txt" 12 in
  calculate_hash f = ""
  /\ calculate_hash (directory "d" [file "a" 1 "abc"; f; file "b" 2 "def"])
     = md5 "abcdef".
Proof.
  intros f.
  destruct (C8_unset_hash_is_empty f eq_refl eq_refl) as (H1 & H2 & _).
  split; [exact H1|].
  rewrite directory_eq.
  exact (H2 "d" [file "a" 1 "abc"] [file "b" 2 "def"] None 0).
Defined.

(** C6, as stated, fails: a file without a stored digest and one with
    the digest "abc" have unequal fingerprints, and so have files with
    the digests "ab" and "abab", yet the directory fingerprint is the
    same in either order. *)
Lemma C6_counterexample :
  (let x := unhashed_file "a" 1 in
   let y := file "b" 3 "abc" in
   calculate_hash x <> calculate_hash y
   /\ calculate_hash (directory "d" [x; y]) = calculate_hash (directory "d" [y; x]))
  /\ (let x := file "a" 2 "ab" in
      let y := file "b" 4 "abab" in
      calculate_hash x <> calculate_hash y
      /\ calculate_hash (directory "d" [x; y]) = calculate_hash (directory "d" [y; x])).
Proof.
  split; (split; [vm_compute; discriminate | vm_compute; reflexivity]).
Qed.

Lemma length_append (s t : string) :
  String.length (s +:+ t) = (String.length s + String.length t)%nat.
Proof.
  induction s as [|c s IH]; [reflexivity|].
  rewrite append_String. cbn [String.length]. rewrite IH. reflexivity.
Qed.

Lemma append_inv_tail (s t u : string) : s +:+ u = t +:+ u -> s = t.
Proof.
  intros H. apply (append_same_length s t u u); [|exact H].
  apply (f_equal String.length) in H. rewrite !length_append in H. lia.
Qed.

(** C6, amended: the fingerprint of a directory is the digest of the
    concatenation, in child order, of the children's fingerprints.
    When two children have unequal fingerprints of the same length,
    swapping them changes that concatenation, and the fingerprint of the
    directory with it unless the digest collides on the two
    concatenations.  For two adjacent children the concatenation
    changes exactly when their fingerprints do not commute under
    concatenation; when they commute, the swap leaves the fingerprint of
    the directory as it was. *)
Theorem C6_order_sensitivity (d : FileNode) l1 x l2 y l3 :
  is_dir d = true ->
  children d = l1 ++ x :: l2 ++ y :: l3 ->
  let d' := with_children d (l1 ++ y :: l2 ++ x :: l3) in
  let s := join (List.map calculate_hash (children d)) in
  let s' := join (List.map calculate_hash (children d')) in
  calculate_hash d = md5 s /\ calculate_hash d' = md5 s'
  /\ (calculate_hash x <> calculate_hash y ->
      String.length (calculate_hash x) = String.length (calculate_hash y) ->
      s <> s'
      /\ ((md5 s = md5 s' -> s = s') -> calculate_hash d <> calculate_hash d'))
  /\ (l2 = [] ->
      (s = s' <-> calculate_hash x +:+ calculate_hash y
                  = calculate_hash y +:+ calculate_hash x)
      /\ (calculate_hash x +:+ calculate_hash y
          = calculate_hash y +:+ calculate_hash x ->
          calculate_hash d = calculate_hash d')).
Proof.
  intros Hdir Hcs d' s s'.
  assert (Hd : calculate_hash d = md5 s) by (apply calculate_hash_dir; assumption).
  assert (Hd' : calculate_hash d' = md5 s') by (apply calculate_hash_dir; assumption).
  split; [exact Hd|]. split; [exact Hd'|].
  assert (Es : s = join (List.map calculate_hash l1)
                   +:+ (calculate_hash x
                        +:+ (join (List.map calculate_hash l2)
                             +:+ (calculate_hash y +:+ join (List.map calculate_hash l3))))).
  { subst s. rewrite Hcs. rewrite !List.map_app. cbn [List.map].
    rewrite !List.map_app. cbn [List.map]. rewrite !join_app, !join_cons, !join_app, !join_cons.
    reflexivity. }
  assert (Es' : s' = join (List.map calculate_hash l1)
                     +:+ (calculate_hash y
                          +:+ (join (List.map calculate_hash l2)
                               +:+ (calculate_hash x +:+ join (List.map calculate_hash l3))))).
  { subst s' d'. cbn [children with_children]. rewrite !List.map_app. cbn [List.map].
    rewrite !List.map_app. cbn [List.map]. rewrite !join_app, !join_cons, !join_app, !join_cons.
    reflexivity. }
  split.
  - intros Hne Hlen.
    assert (Hss : s <> s').
    { rewrite Es, Es'. intros Heq. apply append_inv_head in Heq.
      apply append_same_length in Heq; [|assumption].
      destruct Heq as [Heq _]. contradiction. }
    split; [exact Hss|].
    intros Hinj. rewrite Hd, Hd'. intros Heq. apply Hss, Hinj, Heq.
  - intros ->. cbn [List.map join] in Es, Es'. rewrite !append_empty_l in Es, Es'.
    assert (Hiff : s = s' <-> calculate_hash x +:+ calculate_hash y
                              = calculate_hash y +:+ calculate_hash x).
    { rewrite Es, Es'. rewrite <- !(append_assoc (calculate_hash x)),
        <- !(append_assoc (calculate_hash y)). split.
      - intros Heq. apply append_inv_head in Heq.
        apply append_inv_tail in Heq. exact Heq.
      - intros ->. reflexivity. }
    split; [exact Hiff|].
    intros Hcomm. rewrite Hd, Hd'. f_equal. apply Hiff. exact Hcomm.
Qed.

Lemma C6_order_sensitivity_witness :
  (let x := file "a" 1 "abc" in
   let y := file "b" 1 "def" in
   let d := directory "d" [x; file "c" 1 "q"; y] in
   let d' := with_children d [y; file "c" 1 "q"; x] in
   calculate_hash d = md5 "abcqdef" /\ calculate_hash d' = md5 "defqabc"
   /\ calculate_hash d <> calculate_hash d')
  /\ (let x := unhashed_file "a" 1 in
      let y := file "b" 3 "abc" in
      let d := directory "d" [x; y] in
      calculate_hash x <> calculate_hash y
      /\ calculate_hash (with_children d [y; x]) = calculate_hash d).
Proof.
  split.
  - intros x y d d'.
    destruct (C6_order_sensitivity d [] x [file "c" 1 "q"] y [] eq_refl eq_refl)
      as (H1 & H2 & H3 & _).
    split; [exact H1|]. split; [exact H2|].
    apply H3.
    + vm_compute. discriminate.
    + reflexivity.
    + vm_compute. discriminate.
  - intros x y d.
    destruct (C6_order_sensitivity d [] x [] y [] eq_refl eq_refl)
      as (_ & _ & _ & H4).
    split; [vm_compute; discriminate|].
    symmetry. apply (H4 eq_refl). reflexivity.
Defined.

(** ** [compare_trees]: elements and similarity *)

Lemma compare_trees_unfold (order : set_order) (tree1 tree2 : FileNode) :
  compare_trees order tree1 tree2
  = (similarity_of (info_set tree1) (info_set tree2),
     differences_of (order (get_node_info tree1) (get_node_info tree2))
                    (name tree1) (name tree2) (info_set tree1) (info_set tree2)).
Proof. reflexivity. Qed.

(** Whatever the ranks, the loop visits the items of the set, each
    once. *)
Lemma insert_by_perm (rank : info -> nat) (x : info) (l : list info) :
  insert_by rank x l ≡ₚ x :: l.
Proof.
  induction l as [|y l IH]; [reflexivity|]. cbn [insert_by].
  destruct (rank x <=? rank y)%nat; [reflexivity|].
  rewrite IH. apply perm_swap.
Qed.

Lemma iterate_perm (rank : info -> nat) (s : gset info) :
  iterate rank s ≡ₚ elements s.
Proof.
  unfold iterate. induction (elements s) as [|x l IH]; [reflexivity|].
  cbn [fold_right]. rewrite insert_by_perm, IH. reflexivity.
Qed.

Lemma elem_of_iterate (rank : info -> nat) (s : gset info) (x : info) :
  x ∈ iterate rank s <-> x ∈ s.
Proof. rewrite iterate_perm. apply elem_of_elements. Qed.

Lemma length_iterate (rank : info -> nat) (s : gset info) :
  length (iterate rank s) = base.size s.
Proof. rewrite iterate_perm. reflexivity. Qed.

Lemma iterate_empty (rank : info -> nat) : iterate rank ∅ = [].
Proof. unfold iterate. rewrite elements_empty. reflexivity. Qed.

Lemma iterate_nil_inv (rank : info -> nat) (s : gset info) :
  iterate rank s = [] -> s = ∅.
Proof.
  intros H. apply leibniz_equiv, elements_empty_inv.
  apply Permutation_nil_r. rewrite <- (iterate_perm rank), H. reflexivity.
Qed.

(** Every order the items of a set can come in is the order of some
    ranking: that of the positions in the list wanted. *)
Lemma insert_by_sorted (rank : info -> nat) (x : info) (l : list info) :
  StronglySorted (fun a b => rank a <= rank b)%nat l ->
  StronglySorted (fun a b => rank a <= rank b)%nat (insert_by rank x l).
Proof.
  induction 1 as [|y l Hl IH Hy]; cbn [insert_by].
  - repeat constructor.
  - destruct (Nat.leb_spec (rank x) (rank y)) as [Hxy|Hxy].
    + constructor; [constructor; assumption|].
      constructor; [exact Hxy|].
      eapply Forall_impl; [exact Hy|]. cbn. intros z Hz. lia.
    + constructor; [exact IH|].
      rewrite insert_by_perm. constructor; [lia|exact Hy].
Qed.

Lemma StronglySorted_ext_in (R R' : info -> info -> Prop) (l : list info) :
  (forall a b, a ∈ l -> b ∈ l -> R a b -> R' a b) ->
  StronglySorted R l -> StronglySorted R' l.
Proof.
  intros Hext Hl. induction Hl as [|x l Hl IH Hx]; [constructor|].
  constructor.
  - apply IH. intros a b Ha Hb. apply Hext; apply list_elem_of_further; assumption.
  - apply Forall_forall. intros y Hy. apply Hext.
    + apply list_elem_of_here.
    + apply list_elem_of_further. exact Hy.
    + rewrite Forall_forall in Hx. apply Hx. exact Hy.
Qed.

Lemma position_cons_ne (x y : info) (l : list info) :
  y <> x -> position y (x :: l) = S (position y l).
Proof. intros H. cbn [position]. destruct (decide (y = x)); [contradiction|reflexivity]. Qed.

Lemma position_inj (l : list info) (a b : info) :
  a ∈ l -> b ∈ l -> position a l = position b l -> a = b.
Proof.
  induction l as [|x l IH]; intros Ha Hb; [inversion Ha|].
  cbn [position]. destruct (decide (a = x)) as [->|Hax], (decide (b = x)) as [->|Hbx];
    try discriminate; [reflexivity|].
  intros [= E]. apply elem_of_cons in Ha as [Ha|Ha]; [contradiction|].
  apply elem_of_cons in Hb as [Hb|Hb]; [contradiction|]. auto.
Qed.

Lemma sorted_by_position (l : list info) :
  NoDup l -> StronglySorted (fun a b => position a l <= position b l)%nat l.
Proof.
  induction 1 as [|x l Hx Hnd IH]; [constructor|].
  constructor.
  - apply (StronglySorted_ext_in (fun a b => position a l <= position b l)%nat);
      [|exact IH].
    intros a b Ha Hb Hab.
    rewrite !position_cons_ne by (intros ->; contradiction). lia.
  - apply Forall_forall. intros y _. cbn [position].
    destruct (decide (x = x)); [|contradiction]. lia.
Qed.

Lemma iterate_sorted (rank : info -> nat) (s : gset info) :
  StronglySorted (fun a b => rank a <= rank b)%nat (iterate rank s).
Proof.
  unfold iterate. induction (elements s) as [|x xs IH]; [constructor|].
  cbn [fold_right]. apply insert_by_sorted. exact IH.
Qed.

Lemma iterate_any_order (s : gset info) (l : list info) :
  l ≡ₚ elements s -> exists rank, iterate rank s = l.
Proof.
  intros Hl. exists (fun x => position x l).
  assert (Hnd : NoDup l) by (rewrite Hl; apply NoDup_elements).
  apply (StronglySorted_unique_strong (fun a b => position a l <= position b l)%nat).
  - intros a b Ha Hb H1 H2. rewrite iterate_perm, <- Hl in Ha.
    apply (position_inj l); [assumption|assumption|lia].
  - apply (iterate_sorted (fun x => position x l)).
  - apply sorted_by_position. exact Hnd.
  - rewrite iterate_perm, Hl. reflexivity.
Qed.

(** The entries do not depend on the ranks, only their order does. *)
Lemma differences_of_perm (rank rank' : info -> nat) (n1 n2 : string)
      (A B : gset info) :
  differences_of rank n1 n2 A B ≡ₚ differences_of rank' n1 n2 A B.
Proof.
  unfold differences_of. apply Permutation_map.
  rewrite !iterate_perm. reflexivity.
Qed.

Lemma root_in_info_set t : node_info t ∈ info_set t.
Proof.
  apply elem_of_info_set. exists t. split; [|reflexivity].
  destruct t; cbn. left.
Qed.

(** C2, as stated, fails: two directories with the same name and size
    whose descendants differ, and whose [calculate_hash] differ, are one
    and the same element of the flattened sets. *)
Lemma C2_counterexample :
  let d1 := directory "dirY" [file "fileZ" 5 "def"] in
  let d2 := directory "dirY" [file "fileZ" 7 "xyz"] in
  is_dir d1 = true /\ is_dir d2 = true
  /\ name d1 = name d2 /\ size d1 = size d2
  /\ calculate_hash d1 <> calculate_hash d2
  /\ node_info d1 = node_info d2
  /\ node_info d1 ∈ info_set (directory "root" [d1]) ∩ info_set (directory "root" [d2]).
Proof.
  intros d1 d2.
  do 4 (split; [reflexivity|]).
  split; [vm_compute; discriminate|].
  split; [reflexivity|].
  apply elem_of_intersection. split; apply elem_of_info_set.
  - exists d1. split; [|reflexivity]. vm_compute. right. left.
  - exists d2. split; [|reflexivity]. vm_compute. right. left.
Qed.

(** C2, amended: the elements [compare_trees] compares are the tuples
    (name, is_dir, size, content_hash) of the stored attributes, and
    [calculate_hash] is not consulted: a node of the first tree lies in
    the intersection exactly when some node of the second tree has the
    same four attributes; so a directory with the same name, size and
    stored [content_hash] is the same element whatever it contains. *)
Theorem C2_identity_is_stored_tuple (tree1 tree2 n1 : FileNode) :
  n1 ∈ nodes tree1 ->
  (node_info n1 ∈ info_set tree1 ∩ info_set tree2 <->
   exists n2, n2 ∈ nodes tree2 /\ name n1 = name n2 /\ is_dir n1 = is_dir n2
              /\ size n1 = size n2 /\ content_hash n1 = content_hash n2)
  /\ (forall cs, node_info (with_children n1 cs) = node_info n1).
Proof.
  intros Hn1. split; [|reflexivity].
  rewrite elem_of_intersection, !elem_of_info_set. split.
  - intros [_ (n2 & Hn2 & Heq)]. exists n2. split; [assumption|].
    apply node_info_inj_iff. symmetry. assumption.
  - intros (n2 & Hn2 & Heq). split.
    + exists n1. auto.
    + exists n2. split; [assumption|]. symmetry. apply node_info_inj_iff. exact Heq.
Qed.

Lemma C2_identity_is_stored_tuple_witness :
  let d1 := directory "dirY" [file "fileZ" 5 "def"] in
  let d2 := directory "dirY" [file "fileZ" 7 "xyz"] in
  node_info d1 ∈ info_set (directory "root" [d1]) ∩ info_set (directory "root" [d2]).
Proof.
  intros d1 d2.
  apply (C2_identity_is_stored_tuple (directory "root" [d1]) (directory "root" [d2]) d1).
  - vm_compute. right. left.
  - exists d2. split; [vm_compute; right; left|]. repeat split.
Defined.

(** The quotient of two set sizes. *)
Lemma truediv_correct a b : 0 < b -> (truediv a b == inject_Z a / inject_Z b)%Q.
Proof.
  intros Hb. unfold truediv. rewrite Qred_correct.
  rewrite (Qmake_Qdiv a (Z.to_pos b)).
  rewrite Z2Pos.id by assumption. reflexivity.
Qed.

Lemma truediv_bounds a b : 0 <= a <= b -> 0 < b -> (0 <= truediv a b <= 1)%Q.
Proof.
  intros Ha Hb. unfold truediv. rewrite Qred_correct.
  unfold Qle. cbn [Qnum Qden]. rewrite Z2Pos.id by assumption. lia.
Qed.

Lemma len_set_pos (X : gset info) : X <> ∅ -> 0 < len_set X.
Proof.
  intros HX. unfold len_set.
  assert (Hsz : base.size X <> 0%nat).
  { intros H0. apply HX. apply leibniz_equiv. apply size_empty_iff. exact H0. }
  lia.
Qed.

Lemma similarity_of_nonempty (A B : gset info) :
  A ∪ B <> ∅ ->
  (similarity_of A B == inject_Z (len_set (A ∩ B)) / inject_Z (len_set (A ∪ B)))%Q
  /\ (0 <= similarity_of A B <= 1)%Q.
Proof.
  intros HU. unfold similarity_of.
  destruct (decide (A ∪ B = ∅)) as [E|_]; [contradiction|].
  pose proof (len_set_pos _ HU) as Hpos.
  split; [apply truediv_correct; assumption|].
  apply truediv_bounds; [|assumption].
  unfold len_set. split; [lia|].
  apply inj_le. apply subseteq_size. intros x Hx.
  apply elem_of_intersection in Hx as [Hx _]. apply elem_of_union. left. exact Hx.
Qed.

Lemma similarity_of_empty (A B : gset info) : A ∪ B = ∅ -> similarity_of A B = 0%Q.
Proof.
  intros HU. unfold similarity_of.
  destruct (decide (A ∪ B = ∅)); [reflexivity|contradiction].
Qed.

Lemma len_set_inter_list (A B : list info) :
  len_set (list_to_set A ∩ list_to_set B)
  = Z.of_nat (length (filter (fun x => x ∈ B) (remove_dups A))).
Proof.
  unfold len_set. f_equal.
  rewrite <- (size_list_to_set (C := gset info))
    by (apply NoDup_filter, NoDup_remove_dups).
  f_equal. apply set_eq. intros x.
  rewrite elem_of_intersection, !elem_of_list_to_set, list_elem_of_filter,
    elem_of_remove_dups.
  tauto.
Qed.

Lemma len_set_union_list (A B : list info) :
  len_set (list_to_set A ∪ list_to_set B)
  = Z.of_nat (length (remove_dups (A ++ B))).
Proof.
  unfold len_set. f_equal.
  rewrite <- (size_list_to_set (C := gset info)) by apply NoDup_remove_dups.
  f_equal. apply set_eq. intros x.
  rewrite elem_of_union, !elem_of_list_to_set, elem_of_remove_dups, elem_of_app.
  tauto.
Qed.

(** C3: the similarity [compare_trees] returns is the size of the
    intersection of the two flattened sets over the size of their union,
    0 where the union is empty, and lies between 0 and 1. *)
Theorem C3_jaccard_similarity (order : set_order) (tree1 tree2 : FileNode) :
  let info1 := info_set tree1 in
  let info2 := info_set tree2 in
  let similarity := (compare_trees order tree1 tree2).1 in
  (similarity == inject_Z (len_set (info1 ∩ info2)) / inject_Z (len_set (info1 ∪ info2)))%Q
  /\ (similarity == jaccard_spec (get_node_info tree1) (get_node_info tree2))%Q
  /\ (forall A B : gset info, A ∪ B = ∅ -> similarity_of A B = 0%Q)
  /\ (forall A B : gset info,
        (if decide (A ∪ B = ∅) then similarity_of A B == 0
         else similarity_of A B == inject_Z (len_set (A ∩ B)) / inject_Z (len_set (A ∪ B)))%Q
        /\ (0 <= similarity_of A B <= 1)%Q)
  /\ (0 <= similarity <= 1)%Q.
Proof.
  intros info1 info2 similarity.
  assert (HU : info1 ∪ info2 <> ∅).
  { intros HE. apply (not_elem_of_empty (C := gset info) (node_info tree1)).
    rewrite <- HE. apply elem_of_union. left. apply root_in_info_set. }
  destruct (similarity_of_nonempty info1 info2 HU) as [Heq Hb].
  split; [exact Heq|]. split; [|split; [|split]].
  - subst similarity. rewrite compare_trees_unfold. cbn [fst].
    fold info1 info2. rewrite Heq. unfold jaccard_spec.
    subst info1 info2. unfold info_set in *.
    rewrite len_set_inter_list, len_set_union_list.
    destruct (remove_dups (get_node_info tree1 ++ get_node_info tree2)) eqn:E;
      [|reflexivity].
    exfalso. apply HU. rewrite <- list_to_set_app_L.
    apply set_eq. intros x. rewrite elem_of_list_to_set, <- elem_of_remove_dups, E.
    split; intros Hx; [inversion Hx|].
    apply not_elem_of_empty in Hx. contradiction.
  - apply similarity_of_empty.
  - intros A B. destruct (decide (A ∪ B = ∅)) as [E|E].
    + rewrite (similarity_of_empty A B E). split; [reflexivity|].
      split; discriminate.
    + apply similarity_of_nonempty. exact E.
  - exact Hb.
Qed.

Lemma C3_jaccard_similarity_witness :
  ((compare_trees first_seen treeA treeB).1 == 3 # 5)%Q
  /\ (0 <= (compare_trees first_seen treeA treeB).1 <= 1)%Q
  /\ similarity_of ∅ ∅ = 0%Q.
Proof.
  destruct (C3_jaccard_similarity first_seen treeA treeB) as (H & _ & H0 & _ & Hb).
  split; [|split; [exact Hb|]].
  - rewrite H. vm_compute. reflexivity.
  - apply H0. apply set_eq. intros x. rewrite elem_of_union. tauto.
Defined.

(** ** [compare_trees]: the differences *)

Lemma differences_of_same_owner (rank : info -> nat) (n : string) (A B : gset info) :
  differences_of rank n n A B
  = List.map (only_in n) (iterate rank ((A ∪ B) ∖ (A ∩ B))).
Proof.
  unfold differences_of. apply List.map_ext. intros item.
  destruct (decide (item ∈ A)); reflexivity.
Qed.

Lemma differences_of_sym (rank rank' : info -> nat) (n : string) (A B : gset info) :
  differences_of rank' n n B A ≡ₚ differences_of rank n n A B.
Proof.
  rewrite !differences_of_same_owner. apply Permutation_map.
  rewrite !iterate_perm.
  replace ((B ∪ A) ∖ (B ∩ A)) with ((A ∪ B) ∖ (A ∩ B)); [reflexivity|].
  apply set_eq. intros x.
  rewrite !elem_of_difference, !elem_of_union, !elem_of_intersection. tauto.
Qed.

(** C10: every entry of the differences is "Only in ", the name of the
    root of the tree that alone holds the item, ": " and the name of the
    item.  When the two roots have the same name the entries of either
    side carry the same label: the list is the items that one tree alone
    holds, in the order the loop visits them, each under that one label,
    so that nothing in it tells the two sides apart; comparing the trees
    the other way round gives the same entries, in an order of its
    own. *)
Theorem C10_difference_format (order : set_order) (tree1 tree2 : FileNode) :
  let info1 := info_set tree1 in
  let info2 := info_set tree2 in
  let differences := (compare_trees order tree1 tree2).2 in
  Forall (fun d : string =>
            exists item : info,
              (item ∈ info1 ∖ info2
               /\ d = "Only in " +:+ name tree1 +:+ ": " +:+ item.1.1.1)
              \/ (item ∈ info2 ∖ info1
                  /\ d = "Only in " +:+ name tree2 +:+ ": " +:+ item.1.1.1))
         differences
  /\ (name tree1 = name tree2 ->
      differences
      = List.map (fun item : info => "Only in " +:+ name tree1 +:+ ": " +:+ item.1.1.1)
                 (iterate (order (get_node_info tree1) (get_node_info tree2))
                          ((info1 ∪ info2) ∖ (info1 ∩ info2)))
      /\ differences
         ≡ₚ List.map (fun item : info => "Only in " +:+ name tree1 +:+ ": " +:+ item.1.1.1)
                     (elements ((info1 ∖ info2) ∪ (info2 ∖ info1)))
      /\ (compare_trees order tree2 tree1).2 ≡ₚ differences).
Proof.
  intros info1 info2 differences. subst differences.
  rewrite !compare_trees_unfold. cbn [snd]. fold info1 info2. split.
  - unfold differences_of. apply Forall_forall. intros d Hd.
    apply list_elem_of_In, in_map_iff in Hd. destruct Hd as (item & <- & Hin).
    apply list_elem_of_In, elem_of_iterate in Hin.
    apply elem_of_difference in Hin. destruct Hin as [HU HI].
    rewrite elem_of_union in HU. rewrite elem_of_intersection in HI.
    exists item. destruct (decide (item ∈ info1)) as [H1|H1].
    + left. split; [|reflexivity]. apply elem_of_difference. tauto.
    + right. split; [|reflexivity]. apply elem_of_difference. tauto.
  - intros Hname. rewrite <- Hname. split; [|split].
    + apply differences_of_same_owner.
    + rewrite differences_of_same_owner. apply Permutation_map.
      rewrite iterate_perm.
      replace ((info1 ∖ info2) ∪ (info2 ∖ info1))
        with ((info1 ∪ info2) ∖ (info1 ∩ info2)); [reflexivity|].
      apply set_eq. intros x.
      rewrite !elem_of_union, !elem_of_difference, elem_of_union,
        elem_of_intersection. tauto.
    + apply differences_of_sym.
Qed.

Lemma C10_difference_format_witness :
  (compare_trees first_seen treeA treeB).2
  = List.map (fun item : info => "Only in root: " +:+ item.1.1.1)
             (iterate (first_seen (get_node_info treeA) (get_node_info treeB))
                      ((info_set treeA ∪ info_set treeB)
                       ∖ (info_set treeA ∩ info_set treeB)))
  /\ (compare_trees first_seen treeB treeA).2 ≡ₚ (compare_trees first_seen treeA treeB).2.
Proof.
  destruct (C10_difference_format first_seen treeA treeB) as [_ H].
  destruct (H eq_refl) as (H1 & _ & H3). split; [exact H1|exact H3].
Defined.

(** Adding a child somewhere in a tree adds its entries to the
    flattened list and moves none. *)
Lemma get_node_info_with_children t cs :
  get_node_info (with_children t cs) = node_info t :: flat_map get_node_info cs.
Proof. reflexivity. Qed.

Lemma get_node_info_unfold t :
  get_node_info t = node_info t :: flat_map get_node_info (children t).
Proof. destruct t; reflexivity. Qed.

Lemma get_node_info_add_child_at c p : forall t,
  is_Some (subtree p t) ->
  get_node_info (add_child_at p c t) ≡ₚ get_node_info t ++ get_node_info c.
Proof.
  induction p as [|i p IH]; intros t Hsub.
  - cbn [add_child_at]. unfold add_child.
    rewrite (get_node_info_unfold t). cbn [get_node_info children].
    rewrite flat_map_app. cbn [flat_map]. rewrite app_nil_r.
    unfold node_info. cbn [name is_dir size content_hash].
    rewrite <- app_comm_cons. reflexivity.
  - cbn [add_child_at subtree] in *.
    destruct (children t !! i) as [ci|] eqn:Hci; [|destruct Hsub; discriminate].
    rewrite get_node_info_with_children, (get_node_info_unfold t).
    rewrite insert_take_drop by (eapply lookup_lt_Some; eassumption).
    rewrite <- (take_drop_middle (children t) i ci Hci) at 3.
    rewrite !flat_map_app. cbn [flat_map].
    rewrite (IH ci Hsub). rewrite <- !app_comm_cons, <- !app_assoc.
    constructor. do 2 apply Permutation_app_head. apply Permutation_app_comm.
Qed.

Lemma name_add_child_at c p : forall t, name (add_child_at p c t) = name t.
Proof.
  destruct p as [|i p]; intros t; cbn [add_child_at]; [reflexivity|].
  destruct (children t !! i); reflexivity.
Qed.

(** C9, as stated, fails for the differences: the extra node leaves the
    set as it is but is met earlier in the flattened list than the
    entry it repeats, which changes the way the set is built; an order
    of iteration that follows it, here that of first insertion, hands
    the entries over in another order. *)
Lemma C9_counterexample :
  let fs := List.map (fun n => file n 1 "x")
                     ["f0"; "f1"; "f2"; "f3"; "f4"; "f5"; "f6"; "f7"; "f8"] in
  let t := directory "r" (directory "d" [] :: fs) in
  let u := directory "r" [directory "d" []] in
  let c := file "f8" 1 "x" in
  let t' := add_child_at [0%nat] c t in
  is_Some (subtree [0%nat] t)
  /\ (forall x, x ∈ get_node_info c -> x ∈ get_node_info t)
  /\ hd_error (compare_trees first_seen t u).2 = Some "Only in r: f0"
  /\ hd_error (compare_trees first_seen t' u).2 = Some "Only in r: f8"
  /\ (compare_trees first_seen t' u).2 <> (compare_trees first_seen t u).2.
Proof.
  intros fs t u c t'.
  split; [vm_compute; eexists; reflexivity|].
  split.
  { intros x Hx. apply list_elem_of_In in Hx. apply list_elem_of_In.
    destruct Hx as [<-|[]]. vm_compute. tauto. }
  assert (H1 : hd_error (compare_trees first_seen t u).2 = Some "Only in r: f0")
    by (vm_compute; reflexivity).
  assert (H2 : hd_error (compare_trees first_seen t' u).2 = Some "Only in r: f8")
    by (vm_compute; reflexivity).
  split; [exact H1|]. split; [exact H2|].
  intros E. rewrite E, H1 in H2. discriminate H2.
Qed.

(** C9, amended: [compare_trees] works on sets of tuples: adding to a
    tree, under any of its nodes, a node whose tuples all occur in the
    tree already lengthens the flattened list and changes neither the
    similarity nor the entries of the differences, whichever side the
    tree is on and whatever the order of iteration of either call; the
    order of the entries is that of the iteration and may change. *)
Theorem C9_set_semantics (order order' : set_order) (t u c : FileNode) (p : path) :
  is_Some (subtree p t) ->
  (forall x, x ∈ get_node_info c -> x ∈ get_node_info t) ->
  let t' := add_child_at p c t in
  length (get_node_info t') = (length (get_node_info t) + length (get_node_info c))%nat
  /\ info_set t' = info_set t
  /\ (compare_trees order' t' u).1 = (compare_trees order t u).1
  /\ (compare_trees order' t' u).2 ≡ₚ (compare_trees order t u).2
  /\ (compare_trees order' u t').1 = (compare_trees order u t).1
  /\ (compare_trees order' u t').2 ≡ₚ (compare_trees order u t).2.
Proof.
  intros Hsub Hc t'.
  pose proof (get_node_info_add_child_at c p t Hsub) as Hperm. fold t' in Hperm.
  assert (Hset : info_set t' = info_set t).
  { apply set_eq. intros x. unfold info_set.
    rewrite !elem_of_list_to_set, Hperm, elem_of_app. split; [|tauto].
    intros [H|H]; [assumption|]. apply Hc. assumption. }
  assert (Hname : name t' = name t) by apply name_add_child_at.
  split; [rewrite Hperm, length_app; reflexivity|].
  split; [exact Hset|].
  rewrite !compare_trees_unfold, Hset, Hname. cbn [fst snd].
  split; [reflexivity|]. split; [apply differences_of_perm|].
  split; [reflexivity|apply differences_of_perm].
Qed.

Lemma C9_set_semantics_witness :
  let t' := add_child_at [1%nat] (file "fileZ" 5 "def") treeA in
  length (get_node_info t') = 5%nat
  /\ info_set t' = info_set treeA
  /\ (compare_trees first_seen t' treeB).1 = (compare_trees first_seen treeA treeB).1
  /\ (compare_trees first_seen t' treeB).2 ≡ₚ (compare_trees first_seen treeA treeB).2
  /\ (compare_trees first_seen treeB t').1 = (compare_trees first_seen treeB treeA).1
  /\ (compare_trees first_seen treeB t').2 ≡ₚ (compare_trees first_seen treeB treeA).2.
Proof.
  apply (C9_set_semantics first_seen first_seen treeA treeB (file "fileZ" 5 "def")
                          [1%nat]).
  - vm_compute. eexists. reflexivity.
  - intros x Hx. apply list_elem_of_In in Hx. apply list_elem_of_In.
    destruct Hx as [<-|[]]. vm_compute. tauto.
Defined.

Lemma only_in_first t u (x : info) :
  (forall y, In y (get_node_info t) /\ ~ In y (get_node_info u) <-> x = y) ->
  info_set t ∖ info_set u = {[ x ]}.
Proof.
  intros H. apply set_eq. intros y.
  rewrite elem_of_difference, elem_of_singleton. unfold info_set.
  rewrite !elem_of_list_to_set, !list_elem_of_In, H. split; congruence.
Qed.

(** C4: in the scenario of the specification the similarity is below 1,
    the differences are the two entries for [fileX], held by the first
    tree alone, and [fileW], held by the second alone, and the only
    similar pair is ("fileX", "fileW") with score 1. *)
Theorem C4_end_to_end (order : set_order) :
  (compare_trees order treeA treeB).1 = (3 # 5)%Q
  /\ ((compare_trees order treeA treeB).1 < 1)%Q
  /\ length (compare_trees order treeA treeB).2 = 2%nat
  /\ (compare_trees order treeA treeB).2 ≡ₚ ["Only in root: fileX"; "Only in root: fileW"]
  /\ info_set treeA ∖ info_set treeB = {[ ("fileX", false, 10, Some "abc") ]}
  /\ info_set treeB ∖ info_set treeA = {[ ("fileW", false, 10, Some "abc") ]}
  /\ find_similar_files treeA treeB = Ok [("fileX", "fileW", 1%Q)].
Proof.
  assert (Hsim : (compare_trees order treeA treeB).1 = (3 # 5)%Q)
    by (rewrite compare_trees_unfold; cbn [fst]; vm_compute; reflexivity).
  assert (Hdiff : (compare_trees order treeA treeB).2
                  ≡ₚ ["Only in root: fileX"; "Only in root: fileW"]).
  { rewrite compare_trees_unfold. cbn [snd].
    rewrite (differences_of_perm _ (fun _ => O)).
    assert (E : differences_of (fun _ => O) (name treeA) (name treeB)
                               (info_set treeA) (info_set treeB)
                = ["Only in root: fileW"; "Only in root: fileX"])
      by (vm_compute; reflexivity).
    rewrite E. apply Permutation_swap. }
  rewrite Hsim. split; [reflexivity|]. split; [reflexivity|].
  split; [rewrite Hdiff; reflexivity|]. split; [exact Hdiff|].
  split; [|split; [|vm_compute; reflexivity]].
  - apply only_in_first. intros y. vm_compute. split.
    + intros [HA HB].
      destruct HA as [<-|[<-|[<-|[<-|[]]]]]; try reflexivity;
        exfalso; apply HB; auto 10.
    + intros <-. split; [auto 10|].
      intros [H|[H|[H|[H|[]]]]]; discriminate H.
  - apply only_in_first. intros y. vm_compute. split.
    + intros [HB HA].
      destruct HB as [<-|[<-|[<-|[<-|[]]]]]; try reflexivity;
        exfalso; apply HA; auto 10.
    + intros <-. split; [auto 10|].
      intros [H|[H|[H|[H|[]]]]]; discriminate H.
Qed.

(** ** [difflib]: the matcher always answers *)

Module difflib_facts.
Import difflib.

Section Bounds.
Variables a b : list ascii.

Lemma runs_upto_empty c : runs_upto c ∅.
Proof. intros j v H. rewrite lookup_empty in H. discriminate. Qed.

Lemma runs_upto_default c j2len j :
  0 <= c -> runs_upto c j2len -> 0 <= default 0 (j2len !! j) <= c.
Proof.
  intros Hc H. destruct (j2len !! j) as [v|] eqn:E; cbn; [|lia].
  specialize (H j v E). lia.
Qed.

Lemma scan_row_inside alo ahi blo bhi i js : forall j2len newj2len best,
  alo <= i < ahi ->
  runs_upto (i - alo) j2len ->
  runs_upto (i - alo + 1) newj2len ->
  inside alo ahi best ->
  runs_upto (i - alo + 1) (scan_row blo bhi i js j2len newj2len best).1
  /\ inside alo ahi (scan_row blo bhi i js j2len newj2len best).2.
Proof.
  induction js as [|j js IH]; intros j2len newj2len best Hi Hold Hnew Hbest;
    cbn [scan_row].
  - auto.
  - destruct (j <? blo); [apply IH; assumption|].
    destruct (bhi <=? j); [auto|].
    pose proof (runs_upto_default (i - alo) j2len (j - 1) ltac:(lia) Hold) as Hk.
    apply IH; try assumption.
    + intros j' v. rewrite lookup_insert. case_decide.
      * intros [= <-]. lia.
      * apply Hnew.
    + destruct (best.2 <? default 0 (j2len !! (j - 1)) + 1); [|assumption].
      unfold inside. cbn [fst snd]. lia.
Qed.

Lemma scan_rows_inside alo ahi blo bhi n : forall s j2len best,
  (Z.of_nat s + Z.of_nat n <= ahi - alo) ->
  runs_upto (Z.of_nat s) j2len ->
  inside alo ahi best ->
  inside alo ahi
    (scan_rows a b blo bhi (List.map (fun k => alo + Z.of_nat k) (seq s n)) j2len best).
Proof.
  induction n as [|n IH]; intros s j2len best Hn Hruns Hbest;
    cbn [seq List.map scan_rows]; [assumption|].
  destruct (scan_row blo bhi (alo + Z.of_nat s) (b2j b (item a (alo + Z.of_nat s)))
                     j2len ∅ best) as [newj2len best'] eqn:E.
  pose proof (scan_row_inside alo ahi blo bhi (alo + Z.of_nat s)
                (b2j b (item a (alo + Z.of_nat s))) j2len ∅ best) as H.
  rewrite E in H. cbn [fst snd] in H.
  replace (alo + Z.of_nat s - alo) with (Z.of_nat s) in H by lia.
  destruct H as [Hnew Hbest']; try assumption; [lia|apply runs_upto_empty|].
  apply IH; [lia| |assumption].
  replace (Z.of_nat (S s)) with (Z.of_nat s + 1) by lia. assumption.
Qed.

Lemma extend_back_inside alo ahi blo n : forall best,
  inside alo ahi best -> inside alo ahi (extend_back a b n alo blo best).
Proof.
  induction n as [|n IH]; intros [[besti bestj] bestsize] H; cbn [extend_back];
    [assumption|].
  destruct ((alo <? besti) && (blo <? bestj)
            && (if ascii_dec (item a (besti - 1)) (item b (bestj - 1))
                then true else false)) eqn:E; [|assumption].
  apply IH. apply andb_prop in E as [E _]. apply andb_prop in E as [E _].
  apply Z.ltb_lt in E. unfold inside in *. cbn [fst snd] in *. lia.
Qed.

Lemma extend_forth_inside alo ahi bhi n : forall best,
  inside alo ahi best -> inside alo ahi (extend_forth a b n ahi bhi best).
Proof.
  induction n as [|n IH]; intros [[besti bestj] bestsize] H; cbn [extend_forth];
    [assumption|].
  destruct ((besti + bestsize <? ahi) && (bestj + bestsize <? bhi)
            && (if ascii_dec (item a (besti + bestsize)) (item b (bestj + bestsize))
                then true else false)) eqn:E; [|assumption].
  apply IH. apply andb_prop in E as [E _]. apply andb_prop in E as [E _].
  apply Z.ltb_lt in E. unfold inside in *. cbn [fst snd] in *. lia.
Qed.

Lemma find_longest_match_inside alo ahi blo bhi :
  alo <= ahi -> inside alo ahi (find_longest_match a b alo ahi blo bhi).
Proof.
  intros H. unfold find_longest_match.
  apply extend_forth_inside, extend_back_inside, scan_rows_inside.
  - lia.
  - apply runs_upto_empty.
  - unfold inside. cbn [fst snd]. lia.
Qed.

Lemma cost_cons w queue :
  list_sum (List.map cost (w :: queue))
  = (cost w + list_sum (List.map cost queue))%nat.
Proof. reflexivity. Qed.

Lemma matching_loop_total fuel : forall queue blocks,
  Forall well_formed queue ->
  (list_sum (List.map cost queue) <= fuel)%nat ->
  exists r, matching_loop a b fuel queue blocks = Ok r.
Proof.
  induction fuel as [|fuel IH]; intros queue blocks Hwf Hfuel.
  - destruct queue as [|[[[alo ahi] blo] bhi] queue]; cbn [matching_loop].
    + eauto.
    + rewrite cost_cons in Hfuel. unfold cost at 1 in Hfuel. lia.
  - destruct queue as [|[[[alo ahi] blo] bhi] queue]; cbn [matching_loop].
    + eauto.
    + apply Forall_cons in Hwf as [Hw Hwf].
      unfold well_formed in Hw. cbn [fst snd] in Hw.
      pose proof (find_longest_match_inside alo ahi blo bhi Hw) as Hin.
      destruct (find_longest_match a b alo ahi blo bhi) as [[i j] k] eqn:E.
      unfold inside in Hin. cbn [fst snd] in Hin.
      rewrite cost_cons in Hfuel. unfold cost at 1 in Hfuel.
      cbn [fst snd] in Hfuel.
      destruct (k =? 0) eqn:Ek.
      * apply IH; [assumption|lia].
      * apply Z.eqb_neq in Ek.
        destruct ((alo <? i) && (blo <? j)) eqn:E1;
          destruct ((i + k <? ahi) && (j + k <? bhi)) eqn:E2;
          apply IH;
          repeat match goal with
                 | H : _ && _ = true |- _ =>
                     apply andb_prop in H as [H _]; apply Z.ltb_lt in H
                 end;
          first
            [ solve [ repeat (apply Forall_cons; split); try assumption;
                      unfold well_formed; cbn [fst snd]; lia ]
            | rewrite ?cost_cons;
              set (rest := list_sum (List.map cost queue)) in *;
              unfold cost; cbn [fst snd]; lia ].
Qed.

Lemma get_matching_blocks_total : exists r, get_matching_blocks a b = Ok r.
Proof.
  unfold get_matching_blocks. apply matching_loop_total.
  - repeat constructor. unfold well_formed, len. cbn [fst snd]. lia.
  - rewrite cost_cons. unfold cost, len. simpl. lia.
Qed.

Lemma ratio_total : exists q, ratio a b = Ok q.
Proof.
  unfold ratio. destruct get_matching_blocks_total as [r ->].
  eexists. reflexivity.
Qed.

End Bounds.
End difflib_facts.

(** ** [find_similar_files] *)

Lemma SequenceMatcher_ratio_total s t :
  exists q, SequenceMatcher_ratio (Some s) (Some t) = Ok q.
Proof. apply difflib_facts.ratio_total. Qed.

Lemma Qgtb_true_iff x y : Qgtb x y = true <-> (y < x)%Q.
Proof.
  unfold Qgtb. rewrite negb_true_iff, <- not_true_iff_false, Qle_bool_iff.
  split; [apply Qnot_le_lt | apply Qlt_not_le].
Qed.

Lemma similar_row_cons file1 file2 files2 acc :
  similar_row file1 (file2 :: files2) acc
  = if negb (String.eqb file1.1.1.1 file2.1.1.1) then
      similarity ← SequenceMatcher_ratio file1.2 file2.2;
      if Qgtb similarity (8 # 10) then
        similar_row file1 files2 (acc ++ [(file1.1.1.1, file2.1.1.1, similarity)])
      else similar_row file1 files2 acc
    else similar_row file1 files2 acc.
Proof. reflexivity. Qed.

Lemma similar_row_spec n1 l2 : forall acc,
  is_Some (content_hash n1) ->
  Forall (fun n2 => is_Some (content_hash n2)) l2 ->
  similar_row (node_info n1) (List.map node_info l2) acc
  = Ok (acc ++ flat_map (similar_pair n1) l2).
Proof.
  intros acc [h1 Hh1].
  induction 1 as [|n2 l2 [h2 Hh2] _ IH] in acc |- *; cbn [List.map flat_map].
  - rewrite app_nil_r. reflexivity.
  - rewrite similar_row_cons. unfold similar_pair at 1.
    change (node_info n1).1.1.1 with (name n1).
    change (node_info n2).1.1.1 with (name n2).
    change (node_info n1).2 with (content_hash n1).
    change (node_info n2).2 with (content_hash n2).
    destruct (negb (name n1 =? name n2)%string); [|apply IH].
    rewrite Hh1, Hh2.
    destruct (SequenceMatcher_ratio_total h1 h2) as [q ->].
    change (Ok q ≫= ?k) with (k q). cbv beta.
    destruct (Qgtb q (8 # 10)); [|apply IH].
    rewrite IH, <- app_assoc. reflexivity.
Qed.

Lemma similar_rows_spec l2 l1 : forall acc,
  Forall (fun n1 => is_Some (content_hash n1)) l1 ->
  Forall (fun n2 => is_Some (content_hash n2)) l2 ->
  similar_rows (List.map node_info l1) (List.map node_info l2) acc
  = Ok (acc ++ flat_map (fun n1 => flat_map (similar_pair n1) l2) l1).
Proof.
  intros acc H1 H2.
  induction H1 as [|n1 l1 Hn1 _ IH] in acc |- *; cbn [List.map similar_rows flat_map].
  - rewrite app_nil_r. reflexivity.
  - rewrite similar_row_spec by assumption. cbn.
    rewrite IH, <- app_assoc. reflexivity.
Qed.

Lemma filter_files_node_info l :
  List.filter (fun node : info => negb node.1.1.2) (List.map node_info l)
  = List.map node_info (List.filter (fun n => negb (is_dir n)) l).
Proof.
  induction l as [|n l IH]; [reflexivity|].
  cbn [List.map List.filter]. unfold node_info at 1. cbn [fst snd].
  destruct (negb (is_dir n)); cbn [List.map]; rewrite IH; reflexivity.
Qed.

Lemma files_hashed t :
  all_files_hashed t = true ->
  Forall (fun n => is_Some (content_hash n)) (files t).
Proof.
  unfold all_files_hashed, files. rewrite forallb_forall. intros H.
  apply List.Forall_forall. intros n Hn. apply filter_In in Hn as [Hin Hfile].
  specialize (H n Hin). apply negb_true_iff in Hfile. rewrite Hfile in H.
  destruct (content_hash n); [eauto|discriminate].
Qed.

Lemma in_similar_pair n1 n2 x :
  In x (similar_pair n1 n2) <->
  x.1.1 = name n1 /\ x.1.2 = name n2 /\ name n1 <> name n2
  /\ SequenceMatcher_ratio (content_hash n1) (content_hash n2) = Ok x.2
  /\ (8 # 10 < x.2)%Q.
Proof.
  unfold similar_pair.
  destruct (String.eqb_spec (name n1) (name n2)) as [Heq|Hne]; cbn [negb].
  - split; [intros []|]. intros (_ & _ & H & _). contradiction.
  - destruct (SequenceMatcher_ratio (content_hash n1) (content_hash n2)) as [q|e].
    + destruct (Qgtb q (8 # 10)) eqn:Hq.
      * apply Qgtb_true_iff in Hq. split.
        -- intros [<-|[]]. cbn [fst snd]. auto.
        -- intros (Ha & Hb & _ & [= Hs] & _). left.
           destruct x as [[a b] s]. cbn [fst snd] in *. subst. reflexivity.
      * split; [intros []|]. intros (_ & _ & _ & [= Hs] & Hlt).
        subst. apply Qgtb_true_iff in Hlt. congruence.
    + split; [intros []|]. intros (_ & _ & _ & [=] & _).
Qed.

(** Whatever [find_similar_files] returns is the list of the
    specification. *)
Lemma similar_row_sound n1 l2 : forall acc l,
  similar_row (node_info n1) (List.map node_info l2) acc = Ok l ->
  l = acc ++ flat_map (similar_pair n1) l2.
Proof.
  induction l2 as [|n2 l2 IH]; intros acc l; cbn [List.map flat_map].
  - cbn [similar_row]. intros [= <-]. rewrite app_nil_r. reflexivity.
  - rewrite similar_row_cons. unfold similar_pair at 1.
    change (node_info n1).1.1.1 with (name n1).
    change (node_info n2).1.1.1 with (name n2).
    change (node_info n1).2 with (content_hash n1).
    change (node_info n2).2 with (content_hash n2).
    destruct (negb (name n1 =? name n2)%string); [|apply IH].
    destruct (SequenceMatcher_ratio (content_hash n1) (content_hash n2)) as [q|e];
      [|discriminate].
    change (Ok q ≫= ?k) with (k q). cbv beta.
    destruct (Qgtb q (8 # 10)); [|apply IH].
    intros H. apply IH in H. rewrite H, <- app_assoc. reflexivity.
Qed.

Lemma similar_rows_sound l2 l1 : forall acc l,
  similar_rows (List.map node_info l1) (List.map node_info l2) acc = Ok l ->
  l = acc ++ flat_map (fun n1 => flat_map (similar_pair n1) l2) l1.
Proof.
  induction l1 as [|n1 l1 IH]; intros acc l; cbn [List.map similar_rows flat_map].
  - intros [= <-]. rewrite app_nil_r. reflexivity.
  - destruct (similar_row (node_info n1) (List.map node_info l2) acc) as [acc'|e] eqn:E;
      [|discriminate].
    apply similar_row_sound in E. subst acc'.
    change (Ok ?x ≫= ?k) with (k x). cbv beta.
    intros H. apply IH in H. rewrite H, <- app_assoc. reflexivity.
Qed.

(** C5: [find_similar_files] returns the triples (name of a file of the
    first tree, name of a file of the second, ratio of their two
    fingerprints) for the pairs whose names differ and whose ratio
    exceeds 0.8, and nothing else, so two files of the same name never
    appear; it does return when every file carries a digest. *)
Theorem C5_find_similar_files (tree1 tree2 : FileNode) :
  (all_files_hashed tree1 = true -> all_files_hashed tree2 = true ->
   find_similar_files tree1 tree2 = Ok (similar_pairs tree1 tree2))
  /\ (forall similar_files,
        find_similar_files tree1 tree2 = Ok similar_files ->
        similar_files = similar_pairs tree1 tree2
        /\ (forall a b score,
              In (a, b, score) similar_files <->
              exists n1 n2,
                In n1 (nodes tree1) /\ In n2 (nodes tree2)
                /\ is_dir n1 = false /\ is_dir n2 = false
                /\ name n1 = a /\ name n2 = b /\ a <> b
                /\ SequenceMatcher_ratio (content_hash n1) (content_hash n2) = Ok score
                /\ (8 # 10 < score)%Q)
        /\ (forall a b score, In (a, b, score) similar_files -> a <> b)).
Proof.
  assert (Hiff : forall a b score,
            In (a, b, score) (similar_pairs tree1 tree2) <->
            exists n1 n2,
              In n1 (nodes tree1) /\ In n2 (nodes tree2)
              /\ is_dir n1 = false /\ is_dir n2 = false
              /\ name n1 = a /\ name n2 = b /\ a <> b
              /\ SequenceMatcher_ratio (content_hash n1) (content_hash n2) = Ok score
              /\ (8 # 10 < score)%Q).
  { intros a b score. unfold similar_pairs, files. rewrite in_flat_map. split.
    - intros (n1 & Hn1 & Hin). apply in_flat_map in Hin as (n2 & Hn2 & Hin).
      apply filter_In in Hn1 as [Hn1 Hf1]. apply filter_In in Hn2 as [Hn2 Hf2].
      apply negb_true_iff in Hf1, Hf2.
      apply in_similar_pair in Hin. cbn [fst snd] in Hin.
      destruct Hin as (-> & -> & Hne & Hr & Hlt).
      exists n1, n2. auto 10.
    - intros (n1 & n2 & Hn1 & Hn2 & Hf1 & Hf2 & <- & <- & Hne & Hr & Hlt).
      exists n1. split; [apply filter_In; rewrite Hf1; auto|].
      apply in_flat_map. exists n2. split; [apply filter_In; rewrite Hf2; auto|].
      apply in_similar_pair. cbn [fst snd]. auto. }
  split.
  - intros H1 H2.
    unfold find_similar_files. rewrite !get_node_info_nodes, !filter_files_node_info.
    rewrite similar_rows_spec by (apply files_hashed; assumption).
    reflexivity.
  - intros similar_files Hrun.
    unfold find_similar_files in Hrun.
    rewrite !get_node_info_nodes, !filter_files_node_info in Hrun.
    apply similar_rows_sound in Hrun. cbn [app] in Hrun. subst similar_files.
    split; [reflexivity|]. split; [exact Hiff|].
    intros a b score Hin. apply Hiff in Hin.
    destruct Hin as (_ & _ & _ & _ & _ & _ & _ & _ & Hne & _). exact Hne.
Qed.

Lemma C5_find_similar_files_witness :
  find_similar_files treeA treeB = Ok [("fileX", "fileW", 1%Q)]
  /\ ~ In ("fileZ", "fileZ", 1%Q) [("fileX", "fileW", 1%Q)].
Proof.
  destruct (C5_find_similar_files treeA treeB) as [Hrun Hsound].
  assert (H : find_similar_files treeA treeB = Ok [("fileX", "fileW", 1%Q)]).
  { rewrite (Hrun eq_refl eq_refl). vm_compute. reflexivity. }
  split; [exact H|].
  destruct (Hsound _ H) as (_ & _ & Hne).
  intros Hin. exact (Hne _ _ _ Hin eq_refl).
Defined.

(** A file whose digest was never stored makes the matcher raise. *)
Lemma find_similar_files_unhashed :
  find_similar_files (directory "a" [unhashed_file "x" 1])
                     (directory "b" [file "y" 1 "abc"])
  = Err TypeError.
Proof. vm_compute. reflexivity. Qed.

(** ** [process_tree]: the first loop *)

Section Metrics.
Context {W MH : Type}.
Implicit Types st : annotations W MH.

Lemma metrics_loop_step fuel p node parent stack' max_d max_b st :
  metrics_loop (S fuel) ((p, node, parent) :: stack') max_d max_b st
  = match (match parent with
           | Some q => d ← get_depth q st; Ok (set_depth p (d + 1) st)
           | None => Ok st
           end) with
    | Err e => (Err e, st)
    | Ok st1 =>
        match get_depth p st1 with
        | Err e => (Err e, st1)
        | Ok d =>
            metrics_loop fuel (children_stack p (children node) ++ stack')
                         (Z.max max_d d)
                         (Z.max max_b (Z.of_nat (length (children node)))) st1
        end
    end.
Proof. reflexivity. Qed.

Lemma stack_size_app s1 s2 :
  stack_size (s1 ++ s2) = (stack_size s1 + stack_size s2)%nat.
Proof. unfold stack_size. rewrite List.map_app, list_sum_app. reflexivity. Qed.

Lemma stack_size_cons p node (parent : option path) s :
  stack_size ((p, node, parent) :: s) = (tree_size node + stack_size s)%nat.
Proof. reflexivity. Qed.

Lemma children_stack_snoc p cs c :
  children_stack p (cs ++ [c]) = (p ++ [length cs], c, Some p) :: children_stack p cs.
Proof.
  unfold children_stack. rewrite imap_app, List.map_app, rev_app_distr.
  cbn [imap List.map rev app]. rewrite Nat.add_0_r. reflexivity.
Qed.

Lemma stack_size_children p cs :
  stack_size (children_stack p cs) = list_sum (List.map tree_size cs).
Proof.
  induction cs as [|c cs IH] using rev_ind; [reflexivity|].
  rewrite children_stack_snoc, stack_size_cons, IH, List.map_app, list_sum_app.
  simpl. lia.
Qed.

Lemma tree_size_unfold node :
  tree_size node = S (stack_size (children_stack [] (children node))).
Proof. rewrite stack_size_children. destruct node; reflexivity. Qed.

(** Emptying [s1 ++ s2] is emptying [s1], then [s2] with the fuel that
    is left. *)
Lemma metrics_loop_app s2 n : forall s1 fuel max_d max_b st,
  stack_size s1 = n ->
  metrics_loop (n + fuel) (s1 ++ s2) max_d max_b st
  = match metrics_loop n s1 max_d max_b st with
    | (Ok (max_d', max_b'), st') => metrics_loop fuel s2 max_d' max_b' st'
    | (Err e, st') => (Err e, st')
    end.
Proof.
  induction n as [|n IH]; intros s1 fuel max_d max_b st Hsize.
  - destruct s1 as [|[[p node] parent] s1]; [reflexivity|].
    unfold stack_size in Hsize. cbn in Hsize. destruct node; discriminate.
  - destruct s1 as [|[[p node] parent] s1]; [discriminate|].
    rewrite <- app_comm_cons. cbn [Nat.add]. rewrite !metrics_loop_step.
    destruct (match parent with
              | Some q => d ← get_depth q st; Ok (set_depth p (d + 1) st)
              | None => Ok st
              end) as [st1|e]; [|reflexivity].
    destruct (get_depth p st1) as [d|e]; [|reflexivity].
    rewrite app_assoc. apply IH.
    rewrite stack_size_app, stack_size_children.
    rewrite stack_size_cons in Hsize.
    destruct node. cbn [tree_size children] in *. lia.
Qed.

Lemma same_but_depth_refl st : same_but_depth st st.
Proof. repeat split. Qed.

Lemma same_but_depth_trans st1 st2 st3 :
  same_but_depth st1 st2 -> same_but_depth st2 st3 -> same_but_depth st1 st3.
Proof.
  intros (? & ? & ? & ?) (? & ? & ? & ?). repeat split; congruence.
Qed.

Lemma not_prefix_child (p : path) k : ~ (p ++ [k]) `prefix_of` p.
Proof.
  intros [r Hr]. apply (f_equal length) in Hr.
  rewrite !length_app in Hr. cbn in Hr. lia.
Qed.

Lemma prefix_child_inv (p : path) k k' r :
  (p ++ [k]) `prefix_of` (p ++ k' :: r) -> k = k'.
Proof.
  intros [r' Hr]. rewrite <- app_assoc in Hr. apply app_inv_head in Hr.
  cbn in Hr. congruence.
Qed.

Lemma not_prefix_under (p : path) k x :
  ~ p `prefix_of` x -> ~ (p ++ [k]) `prefix_of` x.
Proof.
  intros Hp [r Hr]. apply Hp. exists ([k] ++ r).
  rewrite Hr, <- app_assoc. reflexivity.
Qed.

Lemma outcome_eq (a b a' b' : Z) st :
  a = a' -> b = b' ->
  (Ok (a, b), st) = (Ok (a', b') : result (Z * Z), st).
Proof. intros -> ->. reflexivity. Qed.

Lemma list_max_snoc l x : list_max (l ++ [x]) = Nat.max (list_max l) x.
Proof. rewrite list_max_app. cbn. lia. Qed.

(** The children of a node whose depth is [d], once all visited. *)
Lemma metrics_children p d cs :
  Forall (visits W MH) cs ->
  forall max_d max_b st,
    depth st !! p = Some d -> d <= max_d -> 0 <= max_b ->
    exists st',
      metrics_loop (list_sum (List.map tree_size cs)) (children_stack p cs)
                   max_d max_b st
      = (Ok (Z.max max_d
                   (d + Z.of_nat (list_max (List.map (fun c => S (height c)) cs))),
             Z.max max_b (Z.of_nat (list_max (List.map max_branching cs)))), st')
      /\ (forall k c r n,
            cs !! k = Some c -> subtree r c = Some n ->
            depth st' !! (p ++ k :: r) = Some (d + 1 + Z.of_nat (length r)))
      /\ (forall x, (forall k, (k < length cs)%nat -> ~ (p ++ [k]) `prefix_of` x) ->
                    depth st' !! x = depth st !! x)
      /\ same_but_depth st st'.
Proof.
  induction cs as [|c cs IH] using rev_ind; intros Hall max_d max_b st Hp Hd Hb.
  - exists st. cbn. split; [apply outcome_eq; lia|].
    split; [intros k c r n Hk; discriminate|].
    split; [reflexivity|apply same_but_depth_refl].
  - apply Forall_app in Hall as [Hall Hc]. apply Forall_cons in Hc as [Hc _].
    rewrite children_stack_snoc.
    change ((p ++ [length cs], c, Some p) :: children_stack p cs)
      with ([(p ++ [length cs], c, Some p)] ++ children_stack p cs).
    replace (list_sum (List.map tree_size (cs ++ [c])))
      with (tree_size c + list_sum (List.map tree_size cs))%nat
      by (rewrite List.map_app, list_sum_app; simpl; lia).
    rewrite metrics_loop_app by (rewrite stack_size_cons; apply Nat.add_0_r).
    destruct (Hc (p ++ [length cs]) (Some p) (d + 1) max_d max_b st)
      as (st1 & -> & Hin & Hout & Hsame1).
    { rewrite Hp. f_equal. lia. }
    destruct (IH Hall (Z.max max_d (d + 1 + Z.of_nat (height c)))
                 (Z.max max_b (Z.of_nat (max_branching c))) st1)
      as (st' & -> & Hin' & Hout' & Hsame'); [|lia|lia|].
    { rewrite Hout by apply not_prefix_child. exact Hp. }
    exists st'. split.
    { rewrite !List.map_app. cbn [List.map]. rewrite !list_max_snoc.
      apply outcome_eq; lia. }
    split; [|split].
    + intros k c' r n Hk Hsub.
      destruct (decide (k = length cs)) as [->|Hne].
      * rewrite list_lookup_middle in Hk by reflexivity. injection Hk as <-.
        rewrite Hout'.
        -- replace (p ++ length cs :: r) with ((p ++ [length cs]) ++ r)
             by (rewrite <- app_assoc; reflexivity).
           rewrite (Hin r n Hsub). reflexivity.
        -- intros k Hk Hpre. apply prefix_child_inv in Hpre. lia.
      * apply (Hin' k c' r n); [|assumption].
        rewrite lookup_app_l in Hk; [assumption|].
        apply lookup_lt_Some in Hk. rewrite length_app in Hk. cbn in Hk. lia.
    + intros x Hx. rewrite Hout', Hout.
      * reflexivity.
      * apply Hx. rewrite length_app. cbn. lia.
      * intros k Hk. apply Hx. rewrite length_app. cbn. lia.
    + eapply same_but_depth_trans; eassumption.
Qed.

Lemma set_depth_same p d st : same_but_depth st (set_depth p d st).
Proof. repeat split. Qed.

(** Every node is visited as [visits] says. *)
Lemma metrics_entry node : visits W MH node.
Proof.
  induction node as [nm dir cs h sz IH] using FileNode_children_ind.
  intros p parent d max_d max_b st Hpre.
  set (node := mkFileNode nm dir cs h sz).
  assert (Hstep : exists st1,
             depth st1 !! p = Some d
             /\ (forall x, x <> p -> depth st1 !! x = depth st !! x)
             /\ same_but_depth st st1
             /\ metrics_loop (tree_size node) [(p, node, parent)] max_d max_b st
                = metrics_loop (list_sum (List.map tree_size cs))
                               (children_stack p cs) (Z.max max_d d)
                               (Z.max max_b (Z.of_nat (length cs))) st1).
  { change (tree_size node) with (S (list_sum (List.map tree_size cs))).
    rewrite metrics_loop_step. cbn [children node]. rewrite app_nil_r.
    destruct parent as [q|].
    - exists (set_depth p d st). unfold get_depth. rewrite Hpre.
      change (Ok (d - 1) ≫= ?k) with (k (d - 1)). cbv beta.
      replace (d - 1 + 1) with d by lia.
      cbn [depth set_depth]. rewrite lookup_insert_eq.
      split; [reflexivity|]. split; [|split; [apply set_depth_same|reflexivity]].
      intros x Hx. apply lookup_insert_ne. congruence.
    - exists st. unfold get_depth. rewrite Hpre.
      split; [reflexivity|]. split; [reflexivity|].
      split; [apply same_but_depth_refl|reflexivity]. }
  destruct Hstep as (st1 & Hp1 & Hother & Hsame1 & ->).
  destruct (metrics_children p d cs IH (Z.max max_d d)
              (Z.max max_b (Z.of_nat (length cs))) st1 Hp1)
    as (st' & -> & Hin & Hout & Hsame'); [lia|lia|].
  exists st'. split.
  { cbn [height max_branching children node]. apply outcome_eq; lia. }
  split; [|split].
  - intros [|k r] n Hsub.
    + rewrite app_nil_r, Hout by (intros; apply not_prefix_child).
      rewrite Hp1. f_equal. cbn. lia.
    + cbn [subtree children node] in Hsub.
      destruct (cs !! k) as [c|] eqn:Hk; [|discriminate].
      rewrite (Hin k c r n Hk Hsub). f_equal. cbn [length]. lia.
  - intros x Hx. rewrite Hout by (intros; apply not_prefix_under; assumption).
    apply Hother. intros ->. apply Hx. reflexivity.
  - eapply same_but_depth_trans; eassumption.
Qed.

End Metrics.

(** ** Paths, heights and branching *)








(** ** [process_tree] *)

Section ProcessTree.
Context {W MH : Type}.
Variable calculate_dynamic_weight : FileNode -> annotations W MH -> path -> result W.
Variable MinHash : Z -> result MH.
Variable update : MH -> list Z -> result MH.
Implicit Types st : annotations W MH.

Local Abbreviation annotate := (annotate_loop calculate_dynamic_weight MinHash update).
Local Abbreviation run := (process_tree calculate_dynamic_weight MinHash update).

Lemma metrics_root root st d0 :
  depth st !! [] = Some d0 ->
  exists st1,
    metrics_loop (tree_size root) [([], root, None)] 0 0 st
    = (Ok (Z.max 0 (d0 + Z.of_nat (height root)), Z.of_nat (max_branching root)), st1)
    /\ depths_assigned [] d0 root st st1.
Proof.
  intros Hroot.
  destruct (metrics_entry root [] None d0 0 0 st Hroot) as (st1 & Heq & Hpost).
  exists st1. split; [|assumption]. rewrite Heq. apply outcome_eq; lia.
Qed.

Lemma annotate_loop_step fuel root num_perm p node stack' st :
  annotate (S fuel) root num_perm ((p, node) :: stack') st
  = match calculate_dynamic_weight root st p with
    | Err e => (Err e, st)
    | Ok w =>
        match compute_node_signature MinHash update node num_perm with
        | Err e => (Err e, set_weight p w st)
        | Ok s =>
            annotate fuel root num_perm
                     (rev (imap (fun i child => (p ++ [i], child)) (children node))
                      ++ stack')
                     (set_signature p s (set_weight p w st))
        end
    end.
Proof. reflexivity. Qed.


Lemma nodes_left_children p cs :
  nodes_left (rev (imap (fun i child => (p ++ [i], child)) cs))
  = list_sum (List.map tree_size cs).
Proof.
  unfold nodes_left.
  induction cs as [|c cs IH] using rev_ind; [reflexivity|].
  rewrite imap_app, rev_app_distr, !List.map_app, !list_sum_app.
  cbn [imap rev app List.map list_sum snd]. rewrite IH. simpl. lia.
Qed.




Lemma metrics_unset_root root st :
  depth st !! [] = None ->
  metrics_loop (tree_size root) [([], root, None)] 0 0 st
  = (Err (AttributeError "depth"), st).
Proof.
  intros Hroot. rewrite (tree_size_unfold root), metrics_loop_step.
  unfold get_depth. rewrite Hroot. reflexivity.
Qed.

(** The fuel of the two loops, the number of nodes, never runs out. *)
Lemma annotate_loop_fuel root num_perm :
  (forall st p, calculate_dynamic_weight root st p <> Err OutOfFuel) ->
  (forall node, compute_node_signature MinHash update node num_perm <> Err OutOfFuel) ->
  forall fuel stack st,
    (nodes_left stack <= fuel)%nat ->
    (annotate fuel root num_perm stack st).1 <> Err OutOfFuel.
Proof.
  intros Hw Hs. induction fuel as [|fuel IH]; intros [|[p node] stack] st Hfuel.
  - discriminate.
  - unfold nodes_left in Hfuel. cbn in Hfuel. destruct node; cbn in Hfuel. lia.
  - discriminate.
  - rewrite annotate_loop_step.
    destruct (calculate_dynamic_weight root st p) as [w|e] eqn:Ew.
    + destruct (compute_node_signature MinHash update node num_perm) as [s|e] eqn:Es.
      * apply IH. unfold nodes_left in *. rewrite List.map_app, list_sum_app.
        fold (nodes_left (rev (imap (fun i child => (p ++ [i], child)) (children node)))).
        rewrite nodes_left_children.
        cbn [List.map list_sum snd] in Hfuel. destruct node.
        cbn [tree_size children] in *. simpl in Hfuel. lia.
      * cbn [fst]. intros [= ->]. exact (Hs _ Es).
    + cbn [fst]. intros [= ->]. exact (Hw _ _ Ew).
Qed.

Lemma process_tree_fuel (root : FileNode) (num_perm : Z) st :
  (forall st' p, calculate_dynamic_weight root st' p <> Err OutOfFuel) ->
  (forall node, compute_node_signature MinHash update node num_perm <> Err OutOfFuel) ->
  (run root num_perm st).1 <> Err OutOfFuel.
Proof.
  intros Hw Hs. unfold process_tree.
  destruct (depth st !! []) as [d0|] eqn:Hroot.
  - destruct (metrics_root root st d0 Hroot) as (st1 & -> & _).
    apply annotate_loop_fuel; try assumption.
    unfold nodes_left. cbn. lia.
  - rewrite (metrics_unset_root root st Hroot). discriminate.
Qed.

(** C1, on the code: [process_tree] never assigns the depth of the
    root.  On a root without a [depth] attribute, as [FileNode] builds
    every node, the first turn of the first loop reads [node.depth] and
    raises [AttributeError]; nothing has been assigned by then. *)
Theorem C1_root_depth_is_never_assigned (root : FileNode) (num_perm : Z) st :
  depth st !! [] = None ->
  run root num_perm st = (Err (AttributeError "depth"), st).
Proof.
  intros Hroot. unfold process_tree.
  rewrite (metrics_unset_root root st Hroot). reflexivity.
Qed.



(** C7, amended: [process_tree] does not look at [num_perm].  Called
    with 0 on a tree whose root has a depth, it first runs the whole
    first loop and stores the two maxima on the root, then computes and
    stores the weight of the root, and only then calls [MinHash] with 0;
    when that constructor raises, the call fails with the constructor's
    own error, with all of this assigned and no signature stored. *)
Theorem C7_num_perm_is_not_validated (root : FileNode) st d0 e :
  depth st !! [] = Some d0 ->
  (forall st', exists w, calculate_dynamic_weight root st' [] = Ok w) ->
  MinHash 0 = Err e ->
  exists st' w,
    run root 0 st = (Err e, st')
    /\ weight st' = <[[] := w]> (weight st)
    /\ signature st' = signature st
    /\ (forall p n, subtree p root = Some n ->
                    depth st' !! p = Some (d0 + Z.of_nat (length p)))
    /\ max_depth st' !! [] = Some (Z.max 0 (d0 + Z.of_nat (height root)))
    /\ max_branching_factor st' !! [] = Some (Z.of_nat (max_branching root)).
Proof.
  intros Hroot Hw Hm. unfold process_tree.
  destruct (metrics_root root st d0 Hroot)
    as (st1 & -> & Hin & _ & Hwt & Hsig & _ & _).
  set (st2 := set_maxima [] _ _ st1).
  destruct (Hw st2) as [w Hw2].
  exists (set_weight [] w st2), w.
  rewrite (tree_size_unfold root), annotate_loop_step, Hw2.
  unfold compute_node_signature. rewrite Hm.
  split; [reflexivity|]. subst st2. cbn. rewrite Hwt, Hsig.
  split; [reflexivity|]. split; [reflexivity|]. split; [exact Hin|].
  split; apply lookup_insert_eq.
Qed.

End ProcessTree.

Lemma C1_root_depth_is_never_assigned_witness :
  process_tree unit_weight rejecting_MinHash recording_update treeA 128 fresh
  = (Err (AttributeError "depth"), fresh).
Proof.
  apply (C1_root_depth_is_never_assigned unit_weight rejecting_MinHash
           recording_update treeA 128 fresh).
  reflexivity.
Defined.

Lemma C7_num_perm_is_not_validated_witness :
  exists st' w,
    process_tree unit_weight rejecting_MinHash recording_update treeA 0
                 (set_depth [] 0 fresh)
    = (Err ValueError, st')
    /\ weight st' = <[[] := w]> ∅
    /\ signature st' = ∅
    /\ (forall p n, subtree p treeA = Some n ->
                    depth st' !! p = Some (0 + Z.of_nat (length p)))
    /\ max_depth st' !! [] = Some (Z.max 0 (0 + Z.of_nat (height treeA)))
    /\ max_branching_factor st' !! [] = Some (Z.of_nat (max_branching treeA)).
Proof.
  apply (C7_num_perm_is_not_validated unit_weight rejecting_MinHash
           recording_update treeA (set_depth [] 0 fresh) 0 ValueError).
  - reflexivity.
  - intros st'. exists 1%nat. reflexivity.
  - reflexivity.
Defined.

(** C7, as stated, fails: with 0 permutations and a constructor that
    rejects 0, the call does not fail with [ConfigError], and by the
    time it fails every node has its depth and the root its weight; on
    freshly built nodes it fails on the missing depth of the root. *)
Lemma C7_counterexample :
  let st := set_depth [] 0 fresh in
  let outcome :=
    process_tree unit_weight rejecting_MinHash recording_update treeA 0 st in
  outcome.1 = Err ValueError
  /\ outcome.1 <> Err ConfigError
  /\ weight outcome.2 !! [] = Some 1%nat
  /\ depth outcome.2 !! [1; 0]%nat = Some 2
  /\ max_depth outcome.2 !! [] = Some 2
  /\ outcome.2 <> st
  /\ (process_tree unit_weight rejecting_MinHash recording_update treeA 0 fresh).1
     = Err (AttributeError "depth").
Proof.
  intros st outcome.
  split; [vm_compute; reflexivity|].
  split; [vm_compute; discriminate|].
  split; [vm_compute; reflexivity|].
  split; [vm_compute; reflexivity|].
  split; [vm_compute; reflexivity|].
  split; [|vm_compute; reflexivity].
  intros H. apply (f_equal (fun s => weight s !! [])) in H.
  vm_compute in H. discriminate.
Qed.

(** The shape example of the specification: a root with two
    directories holding five files. *)
Example process_tree_three_levels :
  let root := directory "root"
                [directory "a" [file "1" 1 "x"; file "2" 1 "y"; file "3" 1 "z"];
                 directory "b" [file "4" 1 "u"; file "5" 1 "v"]] in
  let outcome :=
    process_tree unit_weight rejecting_MinHash recording_update root 128
                 (set_depth [] 0 fresh) in
  outcome.1 = Ok ()
  /\ max_depth outcome.2 !! [] = Some 2
  /\ max_branching_factor outcome.2 !! [] = Some 3.
Proof. vm_compute. repeat split. Qed.

(** * Further properties *)

(** ** [compare_trees]: symmetry, identity, extremes *)

Lemma similarity_of_sym (A B : gset info) : similarity_of B A = similarity_of A B.
Proof.
  unfold similarity_of.
  replace (B ∪ A) with (A ∪ B) by (apply set_eq; intros x; rewrite !elem_of_union; tauto).
  replace (B ∩ A) with (A ∩ B)
    by (apply set_eq; intros x; rewrite !elem_of_intersection; tauto).
  reflexivity.
Qed.

Lemma differences_of_swap (rank rank' : info -> nat) (n1 n2 : string)
      (A B : gset info) :
  differences_of rank' n2 n1 B A ≡ₚ differences_of rank n1 n2 A B.
Proof.
  rewrite (differences_of_perm rank' rank).
  unfold differences_of.
  replace (B ∪ A) with (A ∪ B) by (apply set_eq; intros x; rewrite !elem_of_union; tauto).
  replace (B ∩ A) with (A ∩ B)
    by (apply set_eq; intros x; rewrite !elem_of_intersection; tauto).
  erewrite map_ext_in; [reflexivity|]. intros item Hin.
  apply list_elem_of_In, elem_of_iterate, elem_of_difference in Hin.
  rewrite elem_of_union, elem_of_intersection in Hin.
  destruct (decide (item ∈ B)), (decide (item ∈ A)); try reflexivity; tauto.
Qed.

(** Comparing the other way round gives the same similarity and the
    same entries, each still labelled with the tree that holds it. *)
Theorem compare_trees_symmetric (order : set_order) (tree1 tree2 : FileNode) :
  (compare_trees order tree2 tree1).1 = (compare_trees order tree1 tree2).1
  /\ (compare_trees order tree2 tree1).2 ≡ₚ (compare_trees order tree1 tree2).2.
Proof.
  rewrite !compare_trees_unfold. cbn [fst snd]. split.
  - apply similarity_of_sym.
  - apply differences_of_swap.
Qed.

Lemma truediv_same n : 0 < n -> truediv n n = 1%Q.
Proof.
  intros Hn. unfold truediv.
  change 1%Q with (Qred 1). apply Qred_complete.
  unfold Qeq. cbn [Qnum Qden]. rewrite Z2Pos.id by assumption. lia.
Qed.

Lemma info_set_nonempty t u : info_set t ∪ info_set u <> ∅.
Proof.
  intros HE. apply (not_elem_of_empty (C := gset info) (node_info t)).
  rewrite <- HE. apply elem_of_union. left. apply root_in_info_set.
Qed.

Lemma truediv_eq_1 a b : 0 < b -> (truediv a b == 1)%Q <-> a = b.
Proof.
  intros Hb. unfold truediv. rewrite Qred_correct.
  unfold Qeq. cbn [Qnum Qden]. rewrite Z2Pos.id by assumption. lia.
Qed.

Lemma truediv_eq_0 a b : 0 < b -> (truediv a b == 0)%Q <-> a = 0.
Proof.
  intros Hb. unfold truediv. rewrite Qred_correct.
  unfold Qeq. cbn [Qnum Qden]. lia.
Qed.

Lemma inter_subseteq_union (A B : gset info) : A ∩ B ⊆ A ∪ B.
Proof.
  intros x Hx. apply elem_of_intersection in Hx as [Hx _].
  apply elem_of_union. left. exact Hx.
Qed.

Lemma inter_eq_union (A B : gset info) : A ∩ B = A ∪ B <-> A = B.
Proof.
  split.
  - intros H. apply set_eq. intros x.
    assert (H1 : x ∈ A ∩ B <-> x ∈ A ∪ B) by (rewrite H; reflexivity).
    rewrite elem_of_intersection, elem_of_union in H1. tauto.
  - intros ->. apply set_eq. intros x.
    rewrite elem_of_intersection, elem_of_union. tauto.
Qed.

Lemma symdiff_empty (A B : gset info) : (A ∪ B) ∖ (A ∩ B) = ∅ <-> A = B.
Proof.
  split.
  - intros H. apply set_eq. intros x.
    assert (Hx : x ∉ (A ∪ B) ∖ (A ∩ B)) by (rewrite H; apply not_elem_of_empty).
    rewrite elem_of_difference, elem_of_union, elem_of_intersection in Hx.
    destruct (decide (x ∈ A)), (decide (x ∈ B)); tauto.
  - intros ->. apply set_eq. intros x.
    rewrite elem_of_difference, elem_of_union, elem_of_intersection, elem_of_empty.
    tauto.
Qed.

Lemma info_set_ext t u :
  (forall y, In y (get_node_info t) <-> In y (get_node_info u)) ->
  info_set t = info_set u.
Proof.
  intros H. apply set_eq. intros y. unfold info_set.
  rewrite !elem_of_list_to_set, !list_elem_of_In. apply H.
Qed.

(** [compare_trees] sees the set of tuples and nothing of the shape of
    the trees: the similarity is 1 exactly when the two trees hold the
    same tuples, which is exactly when there are no differences; a tree
    compared with itself gives 1 and no difference. *)
Theorem compare_trees_same_tuples (order : set_order) (tree1 tree2 : FileNode) :
  (((compare_trees order tree1 tree2).1 == 1)%Q <-> info_set tree1 = info_set tree2)
  /\ ((compare_trees order tree1 tree2).2 = [] <-> info_set tree1 = info_set tree2)
  /\ compare_trees order tree1 tree1 = (1%Q, []).
Proof.
  rewrite !compare_trees_unfold. cbn [fst snd].
  pose proof (info_set_nonempty tree1 tree2) as HU.
  split; [|split].
  - unfold similarity_of.
    destruct (decide (info_set tree1 ∪ info_set tree2 = ∅)); [contradiction|].
    rewrite truediv_eq_1 by (apply len_set_pos; assumption).
    rewrite <- inter_eq_union. unfold len_set. split.
    + intros H. apply set_subseteq_size_eq; [apply inter_subseteq_union|lia].
    + intros ->. reflexivity.
  - unfold differences_of. rewrite <- symdiff_empty. split.
    + intros H. apply map_eq_nil in H. apply iterate_nil_inv in H. exact H.
    + intros ->. rewrite iterate_empty. reflexivity.
  - f_equal.
    + unfold similarity_of.
      destruct (decide (info_set tree1 ∪ info_set tree1 = ∅)) as [E|_].
      * exfalso. exact (info_set_nonempty tree1 tree1 E).
      * replace (info_set tree1 ∩ info_set tree1) with (info_set tree1 ∪ info_set tree1)
          by (symmetry; apply inter_eq_union; reflexivity).
        apply truediv_same, len_set_pos, info_set_nonempty.
    + unfold differences_of.
      replace ((info_set tree1 ∪ info_set tree1) ∖ (info_set tree1 ∩ info_set tree1))
        with (∅ : gset info) by (symmetry; apply symdiff_empty; reflexivity).
      rewrite iterate_empty. reflexivity.
Qed.

Lemma compare_trees_same_tuples_witness :
  let t1 := directory "root" [directory "a" [file "f" 1 "abc"]; directory "b" []] in
  let t2 := directory "root" [directory "a" []; directory "b" [file "f" 1 "abc"]] in
  ((compare_trees first_seen t1 t2).1 == 1)%Q
  /\ (compare_trees first_seen t1 t2).2 = []
  /\ calculate_hash t1 <> calculate_hash t2.
Proof.
  intros t1 t2.
  destruct (compare_trees_same_tuples first_seen t1 t2) as (H1 & H2 & _).
  assert (Hset : info_set t1 = info_set t2).
  { apply info_set_ext. intros y. vm_compute. tauto. }
  split; [apply H1; exact Hset|]. split; [apply H2; exact Hset|].
  vm_compute. discriminate.
Defined.

(** The similarity is 0 exactly when the two trees share no tuple. *)
Theorem compare_trees_zero_iff_disjoint (order : set_order) (tree1 tree2 : FileNode) :
  ((compare_trees order tree1 tree2).1 == 0)%Q
  <-> info_set tree1 ∩ info_set tree2 = ∅.
Proof.
  rewrite compare_trees_unfold. cbn [fst]. unfold similarity_of.
  destruct (decide (info_set tree1 ∪ info_set tree2 = ∅)) as [E|HU].
  - exfalso. exact (info_set_nonempty tree1 tree2 E).
  - rewrite truediv_eq_0 by (apply len_set_pos; assumption).
    unfold len_set. split.
    + intros H. apply leibniz_equiv, size_empty_inv. lia.
    + intros ->. rewrite size_empty. reflexivity.
Qed.

(** There is one entry for each tuple that only one of the trees holds:
    as many as the union has more than the intersection. *)
Theorem compare_trees_differences_count (order : set_order)
        (tree1 tree2 : FileNode) :
  let info1 := info_set tree1 in
  let info2 := info_set tree2 in
  let differences := (compare_trees order tree1 tree2).2 in
  Z.of_nat (length differences) = len_set (info1 ∪ info2) - len_set (info1 ∩ info2)
  /\ Z.of_nat (length differences) = len_set (info1 ∖ info2) + len_set (info2 ∖ info1).
Proof.
  intros info1 info2 differences. subst differences.
  rewrite compare_trees_unfold. cbn [snd]. fold info1 info2.
  unfold differences_of. rewrite length_map, length_iterate.
  unfold len_set. split.
  - rewrite size_difference by apply inter_subseteq_union.
    pose proof (subseteq_size _ _ (inter_subseteq_union info1 info2)). lia.
  - replace ((info1 ∪ info2) ∖ (info1 ∩ info2)) with ((info1 ∖ info2) ∪ (info2 ∖ info1)).
    + rewrite size_union; [lia|].
      intros x H1 H2. apply elem_of_difference in H1, H2. tauto.
    + apply set_eq. intros x.
      rewrite !elem_of_union, !elem_of_difference, elem_of_union, elem_of_intersection.
      tauto.
Qed.

(** ** [find_similar_files]: when it raises *)

Lemma similar_row_outcome n1 l2 : forall acc,
  similar_row (node_info n1) (List.map node_info l2) acc
  = match row_errors n1 l2 with
    | e :: _ => Err e
    | [] => Ok (acc ++ flat_map (similar_pair n1) l2)
    end.
Proof.
  unfold row_errors.
  induction l2 as [|n2 l2 IH]; intros acc; cbn [List.map flat_map].
  - rewrite app_nil_r. reflexivity.
  - rewrite similar_row_cons. unfold similar_pair at 1, pair_error at 1.
    change (node_info n1).1.1.1 with (name n1).
    change (node_info n2).1.1.1 with (name n2).
    change (node_info n1).2 with (content_hash n1).
    change (node_info n2).2 with (content_hash n2).
    destruct (negb (name n1 =? name n2)%string); cbn [option_list app]; [|apply IH].
    destruct (content_hash n1) as [h1|], (content_hash n2) as [h2|];
      cbn [option_list app]; try reflexivity.
    destruct (SequenceMatcher_ratio_total h1 h2) as [q ->].
    change (Ok q ≫= ?k) with (k q). cbv beta.
    destruct (Qgtb q (8 # 10)); rewrite IH; [|reflexivity].
    destruct (flat_map _ l2); [|reflexivity].
    rewrite <- app_assoc. reflexivity.
Qed.

Lemma similar_rows_outcome l2 l1 : forall acc,
  similar_rows (List.map node_info l1) (List.map node_info l2) acc
  = match flat_map (fun n1 => row_errors n1 l2) l1 with
    | e :: _ => Err e
    | [] => Ok (acc ++ flat_map (fun n1 => flat_map (similar_pair n1) l2) l1)
    end.
Proof.
  induction l1 as [|n1 l1 IH]; intros acc; cbn [List.map similar_rows flat_map].
  - rewrite app_nil_r. reflexivity.
  - rewrite similar_row_outcome.
    destruct (row_errors n1 l2) as [|e es]; cbn [app]; [|reflexivity].
    change (Ok ?x ≫= ?k) with (k x). cbv beta. rewrite IH.
    destruct (flat_map _ l1); [|reflexivity].
    rewrite <- app_assoc. reflexivity.
Qed.

Lemma pair_error_Some n1 n2 e :
  pair_error n1 n2 = Some e <->
  name n1 <> name n2
  /\ ((e = AttributeError "matching_blocks"
       /\ content_hash n1 = None /\ content_hash n2 = None)
      \/ (e = TypeError
          /\ (content_hash n1 = None <-> content_hash n2 <> None))).
Proof.
  unfold pair_error.
  destruct (String.eqb_spec (name n1) (name n2)) as [Heq|Hne]; cbn [negb].
  - split; [discriminate|]. intros [H _]. contradiction.
  - destruct (content_hash n1) as [h1|], (content_hash n2) as [h2|]; split.
    + discriminate.
    + intros [_ [(_ & H & _)|(_ & H)]]; [discriminate|].
      exfalso. destruct H as [_ H]. discriminate H. discriminate.
    + intros [= <-]. split; [exact Hne|]. right. split; [reflexivity|].
      split; [discriminate|]. intros H. exfalso. apply H. reflexivity.
    + intros [_ [(_ & H & _)|(-> & _)]]; [discriminate|reflexivity].
    + intros [= <-]. split; [exact Hne|]. right. split; [reflexivity|].
      split; [discriminate|reflexivity].
    + intros [_ [(_ & _ & H)|(-> & _)]]; [discriminate|reflexivity].
    + intros [= <-]. split; [exact Hne|]. left. auto.
    + intros [_ [(-> & _)|(_ & H)]]; [reflexivity|].
      exfalso. destruct H as [H _]. apply H; reflexivity.
Qed.

Lemma in_pair_errors tree1 tree2 e :
  In e (pair_errors tree1 tree2) <->
  exists n1 n2, In n1 (files tree1) /\ In n2 (files tree2)
                /\ pair_error n1 n2 = Some e.
Proof.
  unfold pair_errors, row_errors. rewrite in_flat_map. split.
  - intros (n1 & Hn1 & H). apply in_flat_map in H as (n2 & Hn2 & H).
    exists n1, n2. split; [exact Hn1|]. split; [exact Hn2|].
    destruct (pair_error n1 n2) as [e'|]; [|destruct H].
    destruct H as [->|[]]. reflexivity.
  - intros (n1 & n2 & Hn1 & Hn2 & H). exists n1. split; [exact Hn1|].
    apply in_flat_map. exists n2. split; [exact Hn2|]. rewrite H. left. reflexivity.
Qed.

Lemma in_files n t : In n (files t) <-> In n (nodes t) /\ is_dir n = false.
Proof. unfold files. rewrite filter_In, negb_true_iff. reflexivity. Qed.

(** [find_similar_files] raises exactly when some file of the first
    tree and some file of the second have different names and one of
    them has no stored digest.  It raises what the matcher raises on
    the first such pair the two loops come to: [AttributeError] when
    neither file has a digest, [TypeError] when one has.  Otherwise it
    returns the list of the specification.  Files of the same name are
    never handed to the matcher, so a missing digest on such a pair does
    no harm. *)
Theorem find_similar_files_outcome (tree1 tree2 : FileNode) :
  find_similar_files tree1 tree2
  = match pair_errors tree1 tree2 with
    | e :: _ => Err e
    | [] => Ok (similar_pairs tree1 tree2)
    end
  /\ ((exists e, find_similar_files tree1 tree2 = Err e) <->
      exists n1 n2,
        In n1 (nodes tree1) /\ In n2 (nodes tree2)
        /\ is_dir n1 = false /\ is_dir n2 = false
        /\ name n1 <> name n2
        /\ (content_hash n1 = None \/ content_hash n2 = None))
  /\ (forall e,
        find_similar_files tree1 tree2 = Err e ->
        exists n1 n2,
          In n1 (nodes tree1) /\ In n2 (nodes tree2)
          /\ is_dir n1 = false /\ is_dir n2 = false
          /\ name n1 <> name n2
          /\ ((e = AttributeError "matching_blocks"
               /\ content_hash n1 = None /\ content_hash n2 = None)
              \/ (e = TypeError
                  /\ (content_hash n1 = None <-> content_hash n2 <> None)))).
Proof.
  assert (Heq : find_similar_files tree1 tree2
                = match pair_errors tree1 tree2 with
                  | e :: _ => Err e
                  | [] => Ok (similar_pairs tree1 tree2)
                  end).
  { unfold find_similar_files.
    rewrite !get_node_info_nodes, !filter_files_node_info, similar_rows_outcome.
    reflexivity. }
  assert (Herr : forall e,
             find_similar_files tree1 tree2 = Err e ->
             exists n1 n2,
               In n1 (nodes tree1) /\ In n2 (nodes tree2)
               /\ is_dir n1 = false /\ is_dir n2 = false
               /\ name n1 <> name n2
               /\ ((e = AttributeError "matching_blocks"
                    /\ content_hash n1 = None /\ content_hash n2 = None)
                   \/ (e = TypeError
                       /\ (content_hash n1 = None <-> content_hash n2 <> None)))).
  { intros e He. rewrite Heq in He.
    destruct (pair_errors tree1 tree2) as [|e' es] eqn:E; [discriminate|].
    injection He as ->.
    assert (Hin : In e (pair_errors tree1 tree2)) by (rewrite E; left; reflexivity).
    apply in_pair_errors in Hin as (n1 & n2 & Hn1 & Hn2 & Hp).
    apply in_files in Hn1 as [Hn1 Hf1]. apply in_files in Hn2 as [Hn2 Hf2].
    apply pair_error_Some in Hp as [Hne Hp].
    exists n1, n2. auto 10. }
  split; [exact Heq|]. split; [|exact Herr].
  split.
  - intros [e He]. destruct (Herr e He) as (n1 & n2 & H1 & H2 & H3 & H4 & H5 & H6).
    exists n1, n2. do 5 (split; [assumption|]).
    destruct H6 as [(_ & H & _)|(_ & H)]; [left; exact H|].
    destruct (content_hash n1); [right|left; reflexivity].
    destruct (content_hash n2); [|reflexivity].
    exfalso. destruct H as [_ H]. discriminate H. discriminate.
  - intros (n1 & n2 & Hn1 & Hn2 & Hf1 & Hf2 & Hne & Hnone).
    assert (Hp : exists e, pair_error n1 n2 = Some e).
    { unfold pair_error. destruct (String.eqb_spec (name n1) (name n2)); [contradiction|].
      cbn [negb]. destruct (content_hash n1), (content_hash n2); eauto.
      destruct Hnone; discriminate. }
    destruct Hp as [e Hp].
    assert (Hin : In e (pair_errors tree1 tree2)).
    { apply in_pair_errors. exists n1, n2.
      split; [apply in_files; auto|]. split; [apply in_files; auto|]. exact Hp. }
    rewrite Heq. destruct (pair_errors tree1 tree2) as [|e' es]; [destruct Hin|].
    eauto.
Qed.

Lemma find_similar_files_outcome_witness :
  find_similar_files (directory "a" [unhashed_file "x" 1])
                     (directory "b" [unhashed_file "x" 1])
  = Ok []
  /\ find_similar_files (directory "a" [unhashed_file "x" 1])
                        (directory "b" [unhashed_file "y" 1])
     = Err (AttributeError "matching_blocks")
  /\ find_similar_files (directory "a" [unhashed_file "x" 1; file "z" 1 "abc"])
                        (directory "b" [file "y" 1 "abc"; unhashed_file "w" 1])
     = Err TypeError.
Proof.
  split; [|split].
  - destruct (find_similar_files_outcome (directory "a" [unhashed_file "x" 1])
                                         (directory "b" [unhashed_file "x" 1]))
      as [H _].
    rewrite H. reflexivity.
  - destruct (find_similar_files_outcome (directory "a" [unhashed_file "x" 1])
                                         (directory "b" [unhashed_file "y" 1]))
      as [H _].
    rewrite H. reflexivity.
  - destruct (find_similar_files_outcome
                (directory "a" [unhashed_file "x" 1; file "z" 1 "abc"])
                (directory "b" [file "y" 1 "abc"; unhashed_file "w" 1]))
      as [H _].
    rewrite H. reflexivity.
Defined.

(** ** [calculate_hash]: what the fingerprint shows *)

Lemma le_bytes_length n x : length (MD5.le_bytes n x) = n.
Proof.
  revert x. induction n as [|n IH]; intros x; cbn [MD5.le_bytes length];
    [reflexivity|]. rewrite IH. reflexivity.
Qed.

Lemma le_bytes_range n : forall x, Forall (fun b => 0 <= b < 256) (MD5.le_bytes n x).
Proof.
  induction n as [|n IH]; intros x; cbn [MD5.le_bytes]; constructor; [|apply IH].
  change 0xff with (Z.ones 8). rewrite Z.land_ones by lia.
  apply Z.mod_pos_bound. reflexivity.
Qed.

Lemma digest_bytes msg :
  length (MD5.digest msg) = 16%nat
  /\ Forall (fun b => 0 <= b < 256) (MD5.digest msg).
Proof.
  unfold MD5.digest.
  destruct (MD5.blocks _ _ MD5.init) as [[[a b] c] d].
  rewrite !length_app, !le_bytes_length. split; [reflexivity|].
  repeat (apply Forall_app; split); apply le_bytes_range.
Qed.

Lemma hex_digit_is_hex x : 0 <= x < 16 -> is_hex_digit (MD5.hex_digit x) = true.
Proof.
  intros Hx.
  assert (H : In x (List.map Z.of_nat (seq 0 16))).
  { apply in_map_iff. exists (Z.to_nat x). split; [lia|]. apply in_seq. lia. }
  cbn in H.
  repeat (destruct H as [<-|H]; [vm_compute; reflexivity|]). destruct H.
Qed.

Lemma hex_format bs :
  Forall (fun b => 0 <= b < 256) bs ->
  String.length (MD5.hex bs) = (2 * length bs)%nat
  /\ is_hex_string (MD5.hex bs) = true.
Proof.
  unfold is_hex_string.
  induction 1 as [|b bs Hb _ [IHl IHh]]; [split; reflexivity|].
  cbn [MD5.hex String.length length list_ascii_of_string forallb].
  rewrite IHl, IHh. split; [lia|].
  rewrite !hex_digit_is_hex; [reflexivity| |].
  - change 0xf with (Z.ones 4). rewrite Z.land_ones by lia.
    apply Z.mod_pos_bound. reflexivity.
  - rewrite Z.shiftr_div_pow2 by lia. change (2 ^ 4) with 16.
    split; [apply Z.div_pos; lia|]. apply Z.div_lt_upper_bound; lia.
Qed.

Lemma md5_format s : String.length (md5 s) = 32%nat /\ is_hex_string (md5 s) = true.
Proof.
  unfold md5, MD5.hexdigest.
  destruct (digest_bytes (encode s)) as [Hlen Hrange].
  destruct (hex_format _ Hrange) as [Hl Hh]. rewrite Hl, Hlen. auto.
Qed.

(** The fingerprint of a directory is always 32 lowercase hexadecimal
    digits; that of a directory whose children all have an empty
    fingerprint, an empty directory among them, is the digest of the
    empty string. *)
Theorem calculate_hash_directory_format (d : FileNode) :
  is_dir d = true ->
  String.length (calculate_hash d) = 32%nat
  /\ is_hex_string (calculate_hash d) = true
  /\ (Forall (fun c => calculate_hash c = "") (children d) ->
      calculate_hash d = "d41d8cd98f00b204e9800998ecf8427e").
Proof.
  intros Hdir. rewrite (calculate_hash_dir d Hdir).
  destruct (md5_format (join (List.map calculate_hash (children d)))) as [Hl Hh].
  split; [exact Hl|]. split; [exact Hh|].
  intros Hall. clear Hl Hh.
  replace (join (List.map calculate_hash (children d))) with "".
  - vm_compute. reflexivity.
  - induction Hall as [|c cs Hc _ IH]; [reflexivity|].
    cbn [List.map]. rewrite join_cons, Hc, <- IH. reflexivity.
Qed.

Lemma calculate_hash_directory_format_witness :
  String.length (calculate_hash treeA) = 32%nat
  /\ is_hex_string (calculate_hash treeA) = true
  /\ calculate_hash (directory "d" [unhashed_file "a" 1; unhashed_file "b" 2])
     = "d41d8cd98f00b204e9800998ecf8427e".
Proof.
  destruct (calculate_hash_directory_format treeA eq_refl) as (H1 & H2 & _).
  split; [exact H1|]. split; [exact H2|].
  apply (calculate_hash_directory_format
           (directory "d" [unhashed_file "a" 1; unhashed_file "b" 2]) eq_refl).
  repeat constructor.
Defined.

(** The fingerprint reads the stored digests and the order of the
    children, nothing else: renaming nodes and changing sizes anywhere
    in the tree leaves it unchanged. *)
Theorem calculate_hash_relabel (rename : string -> string) (resize : Z -> Z)
        (t : FileNode) :
  calculate_hash (relabel rename resize t) = calculate_hash t.
Proof.
  induction t as [n d cs h s IH] using FileNode_children_ind.
  cbn [relabel calculate_hash is_dir content_hash children name size].
  destruct d; cbn [negb]; [|reflexivity].
  f_equal. f_equal. rewrite List.map_map.
  induction IH as [|c cs Hc _ IHcs]; [reflexivity|].
  cbn [List.map]. rewrite Hc, IHcs. reflexivity.
Qed.

(** ** [compute_node_signature] *)

Lemma update_all_feed {MH : Type} (update : MH -> list Z -> result MH)
      (cs : list FileNode) : forall m,
  update_all update m cs
  = feed update m (List.map (fun child => encode (name child)) cs).
Proof.
  induction cs as [|c cs IH]; intros m; [reflexivity|].
  cbn [update_all List.map feed].
  destruct (update m (encode (name c))) as [m'|e]; [|reflexivity].
  apply IH.
Qed.

Lemma feed_recording (xs : list (list Z)) : forall m,
  feed recording_update m xs = Ok (m ++ xs).
Proof.
  induction xs as [|x xs IH]; intros m; cbn [feed].
  - rewrite app_nil_r. reflexivity.
  - change (recording_update m x) with (Ok (m ++ [x]) : result (list (list Z))).
    change (Ok ?a ≫= ?k) with (k a). cbv beta.
    rewrite IH, <- app_assoc. reflexivity.
Qed.

Lemma compute_node_signature_feed {MH : Type}
      (MinHash : Z -> result MH) (update : MH -> list Z -> result MH)
      (node : FileNode) (num_perm : Z) :
  compute_node_signature MinHash update node num_perm
  = (minhash ← MinHash num_perm; feed update minhash (fed_strings node)).
Proof.
  unfold compute_node_signature, fed_strings.
  destruct (MinHash num_perm) as [m|e]; [|reflexivity].
  change (Ok m ≫= ?k) with (k m). cbv beta. cbn [feed].
  destruct (update m (encode (name node))) as [m'|e]; [|reflexivity].
  change (Ok m' ≫= ?k) with (k m'). cbv beta. apply update_all_feed.
Qed.

(** [compute_node_signature] creates the MinHash and then hands it the
    name of the node and the names of its children, in order, each
    encoded and each once: an [update] that records what it is handed
    ends up with just these strings after what the MinHash held, and
    with any collaborators the result is that of the constructor
    followed by these updates in turn, the first exception ending the
    call.  So two nodes that agree on their name and on the names of
    their children get the same result, whatever else they hold. *)
Theorem compute_node_signature_names {MH : Type}
        (MinHash : Z -> result MH) (update : MH -> list Z -> result MH)
        (n1 : FileNode) (num_perm : Z) :
  (forall m0 : list (list Z),
      compute_node_signature (fun _ => Ok m0) recording_update n1 num_perm
      = Ok (m0 ++ encode (name n1)
               :: List.map (fun child => encode (name child)) (children n1)))
  /\ compute_node_signature MinHash update n1 num_perm
     = (minhash ← MinHash num_perm; feed update minhash (fed_strings n1))
  /\ (forall e, MinHash num_perm = Err e ->
                compute_node_signature MinHash update n1 num_perm = Err e)
  /\ (forall n2 : FileNode,
        name n1 = name n2 ->
        List.map name (children n1) = List.map name (children n2) ->
        compute_node_signature MinHash update n1 num_perm
        = compute_node_signature MinHash update n2 num_perm).
Proof.
  split; [|split; [|split]].
  - intros m0. rewrite compute_node_signature_feed.
    change (Ok m0 ≫= ?k) with (k m0). cbv beta. apply feed_recording.
  - apply compute_node_signature_feed.
  - intros e He. rewrite compute_node_signature_feed, He. reflexivity.
  - intros n2 Hname Hch. rewrite !compute_node_signature_feed.
    replace (fed_strings n2) with (fed_strings n1); [reflexivity|].
    unfold fed_strings. rewrite Hname. f_equal.
    rewrite <- !(List.map_map name encode), Hch. reflexivity.
Qed.

Lemma compute_node_signature_names_witness :
  compute_node_signature rejecting_MinHash recording_update
                         (directory "d" [file "a" 1 "abc"; file "b" 2 "def"]) 128
  = Ok [[100]; [97]; [98]]
  /\ compute_node_signature rejecting_MinHash recording_update
                            (directory "d" [file "a" 1 "abc"; file "b" 2 "def"]) 0
     = Err ValueError
  /\ compute_node_signature rejecting_MinHash recording_update
                            (directory "d" [file "a" 1 "abc"]) 128
     = compute_node_signature rejecting_MinHash recording_update
                              (directory "d" [directory "a" [file "x" 9 "def"]]) 128.
Proof.
  split; [|split].
  - destruct (compute_node_signature_names
                rejecting_MinHash recording_update
                (directory "d" [file "a" 1 "abc"; file "b" 2 "def"]) 128)
      as (_ & H & _).
    rewrite H. reflexivity.
  - destruct (compute_node_signature_names
                rejecting_MinHash recording_update
                (directory "d" [file "a" 1 "abc"; file "b" 2 "def"]) 0)
      as (_ & _ & H & _).
    apply H. reflexivity.
  - destruct (compute_node_signature_names
                rejecting_MinHash recording_update
                (directory "d" [file "a" 1 "abc"]) 128)
      as (_ & _ & _ & H).
    apply H; reflexivity.
Defined.

(** ** [traverse_tree] *)

Lemma walk_go_entries p cs : forall i,
  (fix go (cs : list FileNode) (i : nat) {struct cs} : list (path * FileNode) :=
     match cs with
     | [] => []
     | c :: cs' => go cs' (S i) ++ walk (p ++ [i]) c
     end) cs i
  = flat_map walk_entry (rev (imap (fun k c => (p ++ [(i + k)%nat], c)) cs)).
Proof.
  induction cs as [|c cs IH]; intros i; [reflexivity|].
  rewrite IH. cbn [imap rev]. rewrite flat_map_app. cbn [flat_map].
  rewrite app_nil_r, Nat.add_0_r. unfold walk_entry at 3. cbn [fst snd].
  f_equal. f_equal. f_equal. apply imap_ext. intros k x _. cbn.
  f_equal. f_equal. f_equal. lia.
Qed.

Lemma walk_unfold p t :
  walk p t = (p, t) :: flat_map walk_entry
                                (rev (imap (fun k c => (p ++ [k], c)) (children t))).
Proof.
  destruct t as [n d cs h s]. cbn [walk children]. f_equal.
  apply (walk_go_entries p cs 0).
Qed.

Lemma nodes_left_cons p node stack :
  nodes_left ((p, node) :: stack) = (tree_size node + nodes_left stack)%nat.
Proof. reflexivity. Qed.

Lemma nodes_left_app s1 s2 :
  nodes_left (s1 ++ s2) = (nodes_left s1 + nodes_left s2)%nat.
Proof. unfold nodes_left. rewrite List.map_app, list_sum_app. reflexivity. Qed.

Lemma nodes_left_pushed p node stack :
  S (nodes_left (rev (imap (fun k c => (p ++ [k], c)) (children node)) ++ stack))
  = nodes_left ((p, node) :: stack).
Proof.
  rewrite nodes_left_app, nodes_left_cons, nodes_left_children.
  destruct node; reflexivity.
Qed.

Lemma traverse_loop_walk fuel : forall stack,
  (nodes_left stack <= fuel)%nat ->
  traverse_loop fuel stack = Ok (flat_map walk_entry stack).
Proof.
  induction fuel as [|fuel IH]; intros [|[p node] stack] Hfuel;
    try reflexivity.
  - rewrite <- nodes_left_pushed in Hfuel. lia.
  - cbn [traverse_loop]. unfold child_entries.
    rewrite IH by (rewrite <- nodes_left_pushed in Hfuel; lia).
    change (Ok ?x ≫= ?k) with (k x). cbv beta.
    cbn [flat_map]. change (walk_entry (p, node)) with (walk p node).
    rewrite walk_unfold, flat_map_app. reflexivity.
Qed.

Lemma in_walk t : forall p q n,
  In (q, n) (walk p t) <-> exists r, q = p ++ r /\ subtree r t = Some n.
Proof.
  induction t as [nm d cs h s IH] using FileNode_children_ind.
  intros p q n. rewrite walk_unfold. cbn [children In].
  rewrite in_flat_map. split.
  - intros [[= <- <-]|((q' & c) & Hin & Hw)].
    + exists []. rewrite app_nil_r. split; reflexivity.
    + apply in_rev, list_elem_of_In, elem_of_lookup_imap in Hin
        as (k & c' & [= -> ->] & Hk).
      rewrite Forall_lookup in IH. unfold walk_entry in Hw. cbn [fst snd] in Hw.
      apply (IH k c' Hk) in Hw as (r & -> & Hsub).
      exists (k :: r). rewrite <- app_assoc. split; [reflexivity|].
      cbn [subtree children]. rewrite Hk. exact Hsub.
  - intros ([|k r] & -> & Hsub); cbn [subtree children] in Hsub.
    + left. rewrite app_nil_r. congruence.
    + right. destruct (cs !! k) as [c|] eqn:Hk; [|discriminate].
      exists (p ++ [k], c). split.
      * apply in_rev. rewrite rev_involutive.
        apply list_elem_of_In, elem_of_lookup_imap. eauto.
      * unfold walk_entry. cbn [fst snd]. rewrite Forall_lookup in IH.
        apply (IH k c Hk). exists r. rewrite <- app_assoc. auto.
Qed.

Lemma length_walk t : forall p, length (walk p t) = tree_size t.
Proof.
  induction t as [nm d cs h s IH] using FileNode_children_ind.
  intros p. rewrite walk_unfold. cbn [children length tree_size]. f_equal.
  induction cs as [|c cs IHcs] using rev_ind; [reflexivity|].
  apply Forall_app in IH as [IH Hc]. apply Forall_cons in Hc as [Hc _].
  rewrite imap_app, rev_app_distr. cbn [imap rev app flat_map].
  rewrite length_app, (IHcs IH), List.map_app, list_sum_app.
  unfold walk_entry at 1. cbn [fst snd]. rewrite Hc. simpl. lia.
Qed.

Lemma NoDup_walk t : forall p, NoDup (List.map fst (walk p t)).
Proof.
  induction t as [nm d cs h s IH] using FileNode_children_ind.
  intros p. rewrite walk_unfold. cbn [children List.map fst].
  apply NoDup_cons. split.
  - intros Hin. apply list_elem_of_In, in_map_iff in Hin as ((q & n) & Hq & Hin).
    cbn [fst] in Hq. subst q.
    apply in_flat_map in Hin as ((q' & c) & Hin & Hw).
    apply in_rev, list_elem_of_In, elem_of_lookup_imap in Hin
      as (k & c' & [= -> ->] & Hk).
    apply in_walk in Hw as (r & Hr & _). cbn [fst] in Hr.
    rewrite <- app_assoc in Hr. apply (f_equal length) in Hr. rewrite !length_app in Hr. cbn in Hr. lia.
  - induction cs as [|c cs IHcs] using rev_ind; [constructor|].
    apply Forall_app in IH as [IH Hc]. apply Forall_cons in Hc as [Hc _].
    rewrite imap_app, rev_app_distr. cbn [imap rev app flat_map].
    rewrite List.map_app. apply NoDup_app. split; [apply Hc|].
    split; [|apply IHcs; exact IH].
    intros q Hq1 Hq2.
    apply list_elem_of_In, in_map_iff in Hq1 as ((q1 & n1) & E1 & Hq1).
    apply list_elem_of_In, in_map_iff in Hq2 as ((q2 & n2) & E2 & Hq2).
    cbn [fst] in E1, E2. subst q1 q2.
    unfold walk_entry in Hq1. cbn [fst snd] in Hq1.
    apply in_walk in Hq1 as (r1 & -> & _).
    apply in_flat_map in Hq2 as ((q' & c') & Hin & Hw).
    apply in_rev, list_elem_of_In, elem_of_lookup_imap in Hin
      as (k & c'' & [= -> ->] & Hk).
    apply in_walk in Hw as (r2 & Hr & _). cbn [fst] in Hr.
    rewrite Nat.add_0_r, <- !app_assoc in Hr. apply app_inv_head in Hr.
    cbn in Hr. injection Hr as Hk' _.
    apply lookup_lt_Some in Hk. lia.
Qed.

(** [traverse_tree] hands out every node of the tree exactly once,
    the root first, and after a node the subtrees of its children from
    the last child to the first. *)
Theorem traverse_tree_visits_once (root : FileNode) :
  exists l,
    traverse_tree root = Ok l
    /\ l = walk [] root
    /\ hd_error l = Some ([], root)
    /\ length l = tree_size root
    /\ NoDup (List.map fst l)
    /\ (forall p n, In (p, n) l <-> subtree p root = Some n).
Proof.
  exists (walk [] root). split; [|split; [reflexivity|split; [|split; [|split]]]].
  - unfold traverse_tree. rewrite traverse_loop_walk.
    + cbn [flat_map]. rewrite app_nil_r. reflexivity.
    + rewrite nodes_left_cons. unfold nodes_left. cbn. lia.
  - rewrite walk_unfold. reflexivity.
  - apply length_walk.
  - apply NoDup_walk.
  - intros p n. rewrite in_walk. split.
    + intros (r & -> & H). exact H.
    + intros H. exists p. auto.
Qed.

(** ** [process_tree]: the second loop *)

Section Annotate.
Context {W MH : Type}.
Variable calculate_dynamic_weight : FileNode -> annotations W MH -> path -> result W.
Variable MinHash : Z -> result MH.
Variable update : MH -> list Z -> result MH.
Implicit Types st : annotations W MH.

Local Abbreviation annotate := (annotate_loop calculate_dynamic_weight MinHash update).
Local Abbreviation annotate_all := (annotate_list calculate_dynamic_weight MinHash update).
Local Abbreviation run := (process_tree calculate_dynamic_weight MinHash update).

(** The second loop runs its body over the nodes in the order of
    [traverse_tree]. *)
Lemma annotate_loop_list root num_perm fuel : forall stack st,
  (nodes_left stack <= fuel)%nat ->
  annotate fuel root num_perm stack st
  = annotate_all root num_perm (flat_map walk_entry stack) st.
Proof.
  induction fuel as [|fuel IH]; intros [|[p node] stack] st Hfuel;
    try reflexivity.
  - rewrite <- nodes_left_pushed in Hfuel. lia.
  - rewrite annotate_loop_step. cbn [flat_map].
    change (walk_entry (p, node)) with (walk p node).
    rewrite walk_unfold, <- app_comm_cons. cbn [annotate_list].
    destruct (calculate_dynamic_weight root st p) as [w|e]; [|reflexivity].
    destruct (compute_node_signature MinHash update node num_perm) as [s|e];
      [|reflexivity].
    rewrite IH by (rewrite <- nodes_left_pushed in Hfuel; lia).
    rewrite flat_map_app. reflexivity.
Qed.

Lemma annotate_list_ok root num_perm l : forall st st',
  NoDup (List.map fst l) ->
  annotate_all root num_perm l st = (Ok (), st') ->
  (forall p n,
      In (p, n) l ->
      (exists w st_p,
          calculate_dynamic_weight root st_p p = Ok w
          /\ weight st' !! p = Some w
          /\ depth st_p = depth st /\ max_depth st_p = max_depth st
          /\ max_branching_factor st_p = max_branching_factor st)
      /\ exists s, compute_node_signature MinHash update n num_perm = Ok s
                   /\ signature st' !! p = Some s)
  /\ (forall p, ~ In p (List.map fst l) ->
                weight st' !! p = weight st !! p
                /\ signature st' !! p = signature st !! p)
  /\ depth st' = depth st /\ max_depth st' = max_depth st
  /\ max_branching_factor st' = max_branching_factor st.
Proof.
  induction l as [|[p0 n0] l IH]; intros st st' Hnd Hrun.
  - cbn in Hrun. injection Hrun as <-. split; [intros p n []|]. auto.
  - cbn [annotate_list] in Hrun. cbn [List.map fst] in Hnd.
    apply NoDup_cons in Hnd as [Hp0 Hnd].
    rewrite list_elem_of_In in Hp0.
    destruct (calculate_dynamic_weight root st p0) as [w0|e] eqn:Ew;
      [|discriminate].
    destruct (compute_node_signature MinHash update n0 num_perm) as [s0|e] eqn:Es;
      [|discriminate].
    destruct (IH _ _ Hnd Hrun) as (Hin & Hout & Hd & Hmd & Hmb).
    cbn [depth max_depth max_branching_factor set_signature set_weight]
      in Hd, Hmd, Hmb.
    split; [|split; [|auto]].
    + intros p n [[= <- <-]|Hl].
      * destruct (Hout p0 Hp0) as [Hw Hs].
        cbn [weight signature set_signature set_weight] in Hw, Hs.
        rewrite lookup_insert_eq in Hw. rewrite lookup_insert_eq in Hs. split.
        -- exists w0, st. auto.
        -- exists s0. auto.
      * destruct (Hin p n Hl) as [(w & st_p & H1 & H2 & H3 & H4 & H5) Hsig].
        split; [|exact Hsig]. exists w, st_p.
        cbn [depth max_depth max_branching_factor set_signature set_weight]
          in H3, H4, H5.
        auto.
    + intros p Hp. cbn [List.map fst In] in Hp.
      destruct (Hout p) as [Hw Hs]; [tauto|].
      cbn [weight signature set_signature set_weight] in Hw, Hs.
      rewrite lookup_insert_ne in Hw by (intros ->; tauto).
      rewrite lookup_insert_ne in Hs by (intros ->; tauto). auto.
Qed.

(** A call of [process_tree] that returns has given every node of the
    tree a weight and a signature and has touched the weight and the
    signature of nothing else; each weight was computed with all depths
    and the two maxima already in their final state, each signature is
    that of the node it is stored on. *)
Theorem process_tree_annotates_every_node (root : FileNode) (num_perm : Z) st st' :
  run root num_perm st = (Ok (), st') ->
  (forall p n,
      subtree p root = Some n ->
      (exists w st_p,
          calculate_dynamic_weight root st_p p = Ok w
          /\ weight st' !! p = Some w
          /\ depth st_p = depth st' /\ max_depth st_p = max_depth st'
          /\ max_branching_factor st_p = max_branching_factor st')
      /\ exists s, compute_node_signature MinHash update n num_perm = Ok s
                   /\ signature st' !! p = Some s)
  /\ (forall p, subtree p root = None ->
                weight st' !! p = weight st !! p
                /\ signature st' !! p = signature st !! p).
Proof.
  intros Hrun. unfold process_tree in Hrun.
  destruct (depth st !! []) as [d0|] eqn:Hroot.
  - destruct (metrics_root root st d0 Hroot)
      as (st1 & Hm & _ & _ & Hwt & Hsig & _ & _).
    rewrite Hm in Hrun.
    rewrite annotate_loop_list in Hrun
      by (rewrite nodes_left_cons; unfold nodes_left; cbn; lia).
    cbn [flat_map] in Hrun. rewrite app_nil_r in Hrun.
    change (walk_entry ([], root)) with (walk [] root) in Hrun.
    destruct (annotate_list_ok _ _ _ _ _ (NoDup_walk root []) Hrun)
      as (Hin & Hout & Hd & Hmd & Hmb).
    split.
    + intros p n Hsub.
      destruct (Hin p n) as [(w & st_p & H1 & H2 & H3 & H4 & H5) Hs].
      { apply in_walk. exists p. auto. }
      split; [|exact Hs]. exists w, st_p. rewrite Hd, Hmd, Hmb. auto.
    + intros p Hsub. destruct (Hout p) as [Hw Hs].
      * intros Hp. apply in_map_iff in Hp as ((q & n) & Hq & Hp).
        cbn [fst] in Hq. subst q. apply in_walk in Hp as (r & -> & Hr).
        cbn [app] in Hsub. congruence.
      * cbn [weight signature set_maxima] in Hw, Hs.
        rewrite Hw, Hs, Hwt, Hsig. auto.
  - rewrite (metrics_unset_root root st Hroot) in Hrun. discriminate.
Qed.

End Annotate.

Lemma process_tree_annotates_every_node_witness :
  let outcome :=
    process_tree unit_weight rejecting_MinHash recording_update treeA 128
                 (set_depth [] 0 fresh) in
  exists w s, weight outcome.2 !! [1; 0]%nat = Some w
              /\ signature outcome.2 !! [1; 0]%nat = Some s
              /\ weight outcome.2 !! [7]%nat = None.
Proof.
  intros outcome.
  destruct (process_tree_annotates_every_node unit_weight rejecting_MinHash
              recording_update treeA 128 (set_depth [] 0 fresh) outcome.2)
    as [Hin Hout].
  { vm_compute. reflexivity. }
  destruct (Hin [1; 0]%nat (file "fileZ" 5 "def") eq_refl)
    as [(w & _ & _ & Hw & _) (s & _ & Hs)].
  exists w, s. split; [exact Hw|]. split; [exact Hs|].
  destruct (Hout [7]%nat eq_refl) as [Hw7 _]. rewrite Hw7. reflexivity.
Defined.




(** ** [scan_directory] *)

Lemma DirEntry_listing_ind (P : DirEntry -> Prop) :
  (forall n sz content, P (FileItem n sz content)) ->
  (forall n, P (DirItem n None)) ->
  (forall n l, Forall P l -> P (DirItem n (Some l))) ->
  forall item, P item.
Proof.
  intros Hfile Hnone Hsome. fix self 1. intros [n sz content|n [l|]].
  - apply Hfile.
  - apply Hsome. induction l as [|it l IH]; constructor; [apply self|exact IH].
  - apply Hnone.
Qed.

Lemma scan_item_dir path n listing :
  scan_item path (DirItem n listing) = scan_directory (path_join path n) listing.
Proof.
  destruct listing as [l|]; [|reflexivity].
  cbn [scan_item scan_directory].
  generalize (new_FileNode (basename (path_join path n)) true 0) as root.
  induction l as [|item l IH]; intros root; cbn [scan_loop]; [reflexivity|].
  destruct (scan_item (path_join path n) item); [apply IH|reflexivity].
Qed.

Lemma process_item_scan_item path item : process_item path item = scan_item path item.
Proof.
  destruct item as [n sz [bytes|]|n listing]; try reflexivity.
  symmetry. apply scan_item_dir.
Qed.

Lemma scan_loop_collect path l : forall root,
  scan_loop path l root = collect (List.map (process_item path) l) root.
Proof.
  induction l as [|item l IH]; intros root; cbn [scan_loop List.map collect];
    [reflexivity|].
  rewrite process_item_scan_item.
  destruct (scan_item path item); [apply IH|reflexivity].
Qed.

Lemma add_child_with_children root c :
  add_child root c = with_children root (children root ++ [c]).
Proof. reflexivity. Qed.

Lemma collect_Done cs : forall root,
  collect (List.map Done cs) root = Done (with_children root (children root ++ cs)).
Proof.
  induction cs as [|c cs IH]; intros root; cbn [List.map collect].
  - rewrite app_nil_r. destruct root; reflexivity.
  - rewrite IH. cbn [add_child with_children children name is_dir content_hash size].
    rewrite <- app_assoc. reflexivity.
Qed.

Lemma collect_Done_inv rs : forall root t,
  collect rs root = Done t ->
  exists cs, rs = List.map Done cs /\ t = with_children root (children root ++ cs).
Proof.
  induction rs as [|[c|f] rs IH]; intros root t H; cbn [collect] in H.
  - injection H as <-. exists []. rewrite app_nil_r. destruct root. auto.
  - apply IH in H as (cs & -> & ->). exists (c :: cs). split; [reflexivity|].
    cbn [add_child with_children children name is_dir content_hash size].
    rewrite <- app_assoc. reflexivity.
  - discriminate.
Qed.

Lemma scan_item_readable item : forall path,
  readable item = true -> scan_item path item = Done (mirror_at path item).
Proof.
  induction item as [n sz content|n|n l IH] using DirEntry_listing_ind;
    intros path Hr; cbn [readable] in Hr.
  - destruct content; [reflexivity|discriminate].
  - discriminate.
  - rewrite scan_item_dir. cbn [scan_directory mirror_at].
    rewrite scan_loop_collect.
    replace (List.map (process_item (path_join path n)) l)
      with (List.map Done (List.map (mirror_at (path_join path n)) l)).
    + rewrite collect_Done. reflexivity.
    + rewrite List.map_map. apply map_ext_in. intros item Hin.
      rewrite process_item_scan_item. symmetry.
      rewrite List.Forall_forall in IH. apply IH; [assumption|].
      rewrite forallb_forall in Hr. apply Hr. assumption.
Qed.

Lemma scan_item_unreadable item : forall path,
  readable item = false -> exists f, scan_item path item = OSError f.
Proof.
  induction item as [n sz content|n|n l IH] using DirEntry_listing_ind;
    intros path Hr; cbn [readable] in Hr.
  - destruct content; [discriminate|]. eexists. reflexivity.
  - eexists. reflexivity.
  - rewrite scan_item_dir. cbn [scan_directory].
    generalize (new_FileNode (basename (path_join path n)) true 0) as root.
    induction IH as [|item l Hitem _ IHl]; [discriminate|].
    intros root. cbn [forallb] in Hr. cbn [scan_loop].
    destruct (readable item) eqn:Eitem.
    + rewrite scan_item_readable by assumption. apply IHl. exact Hr.
    + destruct (Hitem (path_join path n) eq_refl) as [f ->]. eauto.
Qed.

Lemma basename_no_sep s : has_sep s = false -> basename s = s.
Proof.
  destruct s as [|c s]; [reflexivity|]. cbn [has_sep basename].
  intros H. apply orb_false_iff in H as [Hc Hs]. rewrite Hs, Hc. reflexivity.
Qed.

Lemma has_sep_app a b : has_sep (a +:+ b) = has_sep a || has_sep b.
Proof.
  induction a as [|c a IH]; [reflexivity|].
  rewrite append_String. cbn [has_sep]. rewrite IH, orb_assoc. reflexivity.
Qed.

Lemma basename_app_sep a b :
  has_sep b = false -> basename (a +:+ "/" +:+ b) = b.
Proof.
  intros Hb. change ("/" +:+ b) with (String "/" b).
  induction a as [|c a IH].
  - rewrite append_empty_l. cbn [basename]. rewrite Hb. reflexivity.
  - rewrite append_String. cbn [basename].
    rewrite has_sep_app. cbn [has_sep]. rewrite Ascii.eqb_refl.
    rewrite orb_true_r. exact IH.
Qed.

Lemma endswith_sep_inv a : endswith_sep a = true -> exists a', a = a' +:+ "/".
Proof.
  induction a as [|c a IH]; [discriminate|]. cbn [endswith_sep].
  destruct a as [|c' a].
  - intros H. apply Ascii.eqb_eq in H. subst c. exists "". reflexivity.
  - intros H. destruct (IH H) as [a' ->]. exists (String c a'). reflexivity.
Qed.

(** The name of a sub-directory node is the name of its item. *)
Lemma basename_path_join path n :
  has_sep n = false -> basename (path_join path n) = n.
Proof.
  intros Hn. unfold path_join.
  destruct (startswith_sep n) eqn:Hs.
  { destruct n as [|c n]; [discriminate|]. cbn in Hs, Hn. rewrite Hs in Hn.
    discriminate. }
  destruct (String.eqb_spec path "") as [->|_]; cbn [orb].
  - apply basename_no_sep. exact Hn.
  - destruct (endswith_sep path) eqn:He.
    + destruct (endswith_sep_inv _ He) as [a' ->].
      rewrite append_assoc. apply basename_app_sep. exact Hn.
    + apply basename_app_sep. exact Hn.
Qed.

Lemma mirror_at_mirror item : forall path,
  names_ok item = true -> mirror_at path item = mirror item.
Proof.
  induction item as [n sz content|n|n l IH] using DirEntry_listing_ind;
    intros path Hn; cbn [names_ok] in Hn; cbn [mirror_at mirror].
  - reflexivity.
  - apply andb_prop in Hn as [Hn _]. apply negb_true_iff in Hn.
    rewrite basename_path_join by assumption. reflexivity.
  - apply andb_prop in Hn as [Hn Hl]. apply negb_true_iff in Hn.
    rewrite basename_path_join by assumption. f_equal.
    apply map_ext_in. intros item Hin.
    rewrite List.Forall_forall in IH. apply IH; [assumption|].
    rewrite forallb_forall in Hl. apply Hl. assumption.
Qed.

(** [scan_directory] returns the tree that mirrors the listing: the
    root carries the last component of the path, the children stand in
    the order of the listing under the names of their items, a file
    carries its reported size and the digest of its bytes, a directory
    size 0 and no digest. *)
Theorem scan_directory_mirrors_listing (path : string) (l : list DirEntry) :
  forallb readable l = true ->
  forallb names_ok l = true ->
  scan_directory path (Some l)
  = Done (mkFileNode (basename path) true (List.map mirror l) None 0).
Proof.
  intros Hr Hn. cbn [scan_directory]. rewrite scan_loop_collect.
  replace (List.map (process_item path) l) with (List.map Done (List.map mirror l)).
  - rewrite collect_Done. reflexivity.
  - rewrite List.map_map. apply map_ext_in. intros item Hin.
    rewrite forallb_forall in Hr, Hn.
    rewrite process_item_scan_item, scan_item_readable by auto.
    rewrite mirror_at_mirror by auto. reflexivity.
Qed.

Lemma scan_directory_mirrors_listing_witness :
  scan_directory "data/projects/"
                 (Some [FileItem "a.txt" 3 (Some [97; 98; 99]);
                        DirItem "sub" (Some [FileItem "b" 0 (Some [])])])
  = Done (mkFileNode "" true
            [file "a.txt" 3 "900150983cd24fb0d6963f7d28e17f72";
             mkFileNode "sub" true [file "b" 0 "d41d8cd98f00b204e9800998ecf8427e"]
                        None 0]
            None 0).
Proof.
  rewrite scan_directory_mirrors_listing by reflexivity.
  vm_compute. reflexivity.
Defined.

Lemma scan_directory_mirror_at path l :
  forallb readable l = true ->
  scan_directory path (Some l)
  = Done (mkFileNode (basename path) true (List.map (mirror_at path) l) None 0).
Proof.
  intros Hr. cbn [scan_directory]. rewrite scan_loop_collect.
  replace (List.map (process_item path) l)
    with (List.map Done (List.map (mirror_at path) l)).
  - rewrite collect_Done. reflexivity.
  - rewrite List.map_map. apply map_ext_in. intros item Hin.
    rewrite forallb_forall in Hr.
    rewrite process_item_scan_item, scan_item_readable by auto. reflexivity.
Qed.

Lemma scan_loop_unreadable path l : forall root,
  forallb readable l = false -> exists f, scan_loop path l root = OSError f.
Proof.
  induction l as [|item l IH]; intros root Hr; [discriminate|].
  cbn [forallb] in Hr. cbn [scan_loop].
  destruct (readable item) eqn:Eitem.
  - rewrite scan_item_readable by assumption. apply IH. exact Hr.
  - destruct (scan_item_unreadable item path Eitem) as [f ->]. eauto.
Qed.

Lemma scan_directory_Done_inv path listing t :
  scan_directory path listing = Done t ->
  exists l, listing = Some l /\ forallb readable l = true
            /\ t = mkFileNode (basename path) true (List.map (mirror_at path) l) None 0.
Proof.
  intros Ht. destruct listing as [l|]; [|discriminate]. exists l.
  destruct (forallb readable l) eqn:Hr.
  - rewrite scan_directory_mirror_at in Ht by assumption.
    injection Ht as <-. auto.
  - cbn [scan_directory] in Ht.
    destruct (scan_loop_unreadable path l (new_FileNode (basename path) true 0) Hr)
      as [f Hf].
    rewrite Hf in Ht. discriminate.
Qed.

(** [scan_directory] returns a tree exactly when the directory and
    every directory below it can be listed and every file read;
    otherwise it raises and returns no part of the tree. *)
Theorem scan_directory_succeeds_iff (path : string) (listing : option (list DirEntry)) :
  (exists t, scan_directory path listing = Done t)
  <-> exists l, listing = Some l /\ forallb readable l = true.
Proof.
  split.
  - intros [t Ht]. apply scan_directory_Done_inv in Ht as (l & Hl & Hr & _). eauto.
  - intros (l & -> & Hr). rewrite scan_directory_mirror_at by assumption. eauto.
Qed.

Lemma scan_directory_succeeds_iff_witness :
  (exists t, scan_directory "d" (Some [DirItem "sub" (Some [FileItem "b" 0 (Some [])])])
             = Done t)
  /\ ~ (exists t, scan_directory "d" (Some [DirItem "sub" (Some [FileItem "b" 0 None])])
                  = Done t).
Proof.
  split.
  - apply scan_directory_succeeds_iff. eexists. split; reflexivity.
  - intros H. apply scan_directory_succeeds_iff in H as (l & [= <-] & Hr).
    discriminate.
Defined.

Lemma hexdigest_format bytes :
  String.length (MD5.hexdigest bytes) = 32%nat
  /\ is_hex_string (MD5.hexdigest bytes) = true.
Proof.
  unfold MD5.hexdigest. destruct (digest_bytes bytes) as [Hlen Hrange].
  destruct (hex_format _ Hrange) as [Hl Hh]. rewrite Hl, Hlen. auto.
Qed.

Lemma nodes_unfold t : nodes t = t :: flat_map nodes (children t).
Proof. destruct t; reflexivity. Qed.

Lemma mirror_at_scanned item : forall path,
  readable item = true -> Forall scanned_node (nodes (mirror_at path item)).
Proof.
  induction item as [n sz content|n|n l IH] using DirEntry_listing_ind;
    intros path Hr; cbn [readable] in Hr.
  - destruct content as [bytes|]; [|discriminate].
    cbn [mirror_at option_map nodes children flat_map]. constructor; [|constructor].
    right. cbn. eauto.
  - discriminate.
  - rewrite nodes_unfold. cbn [mirror_at children]. constructor.
    + left. cbn. auto.
    + rewrite flat_map_concat_map, List.map_map. apply Forall_concat.
      apply Forall_map. rewrite List.Forall_forall in IH.
      apply List.Forall_forall. intros item Hin.
      apply IH; [assumption|]. rewrite forallb_forall in Hr. auto.
Qed.

Lemma scanned_all_files_hashed t :
  Forall scanned_node (nodes t) -> all_files_hashed t = true.
Proof.
  intros H. unfold all_files_hashed. apply forallb_forall. intros n Hn.
  rewrite List.Forall_forall in H.
  destruct (H n Hn) as [(-> & _)|(-> & _ & bytes & ->)]; reflexivity.
Qed.

Lemma find_similar_files_hashed tree1 tree2 :
  all_files_hashed tree1 = true -> all_files_hashed tree2 = true ->
  find_similar_files tree1 tree2 = Ok (similar_pairs tree1 tree2).
Proof.
  intros H1 H2. unfold find_similar_files.
  rewrite !get_node_info_nodes, !filter_files_node_info.
  rewrite similar_rows_spec by (apply files_hashed; assumption).
  reflexivity.
Qed.

Lemma scan_directory_scanned path listing t :
  scan_directory path listing = Done t -> Forall scanned_node (nodes t).
Proof.
  intros Hscan. apply scan_directory_Done_inv in Hscan as (l & _ & Hr & ->).
  rewrite nodes_unfold. cbn [children]. constructor.
  - left. cbn. auto.
  - rewrite flat_map_concat_map, List.map_map. apply Forall_concat.
    apply Forall_map. apply List.Forall_forall. intros item Hin.
    apply mirror_at_scanned. rewrite forallb_forall in Hr. auto.
Qed.

(** Every node of a scanned tree is a directory without digest and of
    size 0 or a childless file with the digest of some bytes, and the
    fingerprint of every node is 32 hexadecimal digits. *)
Theorem scanned_tree_shape (path : string) (listing : option (list DirEntry))
        (t : FileNode) :
  scan_directory path listing = Done t ->
  Forall scanned_node (nodes t)
  /\ (forall n, In n (nodes t) ->
                String.length (calculate_hash n) = 32%nat
                /\ is_hex_string (calculate_hash n) = true).
Proof.
  intros Hscan. pose proof (scan_directory_scanned _ _ _ Hscan) as Hshape.
  split; [exact Hshape|].
  intros n Hn. rewrite List.Forall_forall in Hshape.
  destruct (Hshape n Hn) as [(Hd & _)|(Hf & _ & bytes & Hh)].
  - rewrite (calculate_hash_dir n Hd). apply md5_format.
  - rewrite (calculate_hash_file n Hf), Hh. apply hexdigest_format.
Qed.

Lemma scanned_tree_shape_witness :
  let t := mkFileNode "" true
             [file "a.txt" 3 "900150983cd24fb0d6963f7d28e17f72";
              mkFileNode "sub" true [file "b" 0 "d41d8cd98f00b204e9800998ecf8427e"]
                         None 0]
             None 0 in
  Forall scanned_node (nodes t)
  /\ (forall n, In n (nodes t) ->
                String.length (calculate_hash n) = 32%nat
                /\ is_hex_string (calculate_hash n) = true).
Proof.
  apply (scanned_tree_shape "data/projects/"
           (Some [FileItem "a.txt" 3 (Some [97; 98; 99]);
                  DirItem "sub" (Some [FileItem "b" 0 (Some [])])])).
  vm_compute. reflexivity.
Defined.

(** On two scanned trees [find_similar_files] never raises: it returns
    the list of the specification, whichever tree comes first. *)
Theorem scanned_trees_find_similar (path1 path2 : string)
        (listing1 listing2 : option (list DirEntry)) (t1 t2 : FileNode) :
  scan_directory path1 listing1 = Done t1 ->
  scan_directory path2 listing2 = Done t2 ->
  find_similar_files t1 t2 = Ok (similar_pairs t1 t2)
  /\ find_similar_files t2 t1 = Ok (similar_pairs t2 t1).
Proof.
  intros H1 H2.
  apply scan_directory_scanned in H1, H2.
  apply scanned_all_files_hashed in H1, H2.
  split; apply find_similar_files_hashed; assumption.
Qed.

Lemma scanned_trees_find_similar_witness :
  find_similar_files
    (mkFileNode "one" true [file "a" 3 "900150983cd24fb0d6963f7d28e17f72"] None 0)
    (mkFileNode "two" true [file "b" 3 "900150983cd24fb0d6963f7d28e17f72"] None 0)
  = Ok [("a", "b", 1%Q)].
Proof.
  destruct (scanned_trees_find_similar
              "x/one" "x/two"
              (Some [FileItem "a" 3 (Some [97; 98; 99])])
              (Some [FileItem "b" 3 (Some [97; 98; 99])])
              (mkFileNode "one" true [file "a" 3 "900150983cd24fb0d6963f7d28e17f72"] None 0)
              (mkFileNode "two" true [file "b" 3 "900150983cd24fb0d6963f7d28e17f72"] None 0))
    as [H _].
  - vm_compute. reflexivity.
  - vm_compute. reflexivity.
  - rewrite H. vm_compute. reflexivity.
Defined.

(** ** [parallel_scan_directory] *)

Lemma get_node_info_children_perm t cs cs' :
  cs ≡ₚ cs' ->
  get_node_info (with_children t cs) ≡ₚ get_node_info (with_children t cs').
Proof.
  intros H. rewrite !get_node_info_with_children. constructor.
  apply Permutation_flat_map. exact H.
Qed.

Lemma info_set_perm t u :
  get_node_info t ≡ₚ get_node_info u -> info_set t = info_set u.
Proof.
  intros H. apply info_set_ext. intros y. split; apply Permutation_in;
    [exact H|symmetry; exact H].
Qed.

Lemma compare_trees_ext (order order' : set_order) (t t' u : FileNode) :
  info_set t = info_set t' -> name t = name t' ->
  (compare_trees order t u).1 = (compare_trees order' t' u).1
  /\ (compare_trees order t u).2 ≡ₚ (compare_trees order' t' u).2
  /\ (compare_trees order u t).1 = (compare_trees order' u t').1
  /\ (compare_trees order u t).2 ≡ₚ (compare_trees order' u t').2.
Proof.
  intros Hset Hname. rewrite !compare_trees_unfold, Hset, Hname. cbn [fst snd].
  split; [reflexivity|]. split; [apply differences_of_perm|].
  split; [reflexivity|apply differences_of_perm].
Qed.

(** Whatever order the workers finish in, [parallel_scan_directory]
    returns a tree exactly when [scan_directory] does, and the two
    trees then have the same root name and the same children up to
    their order, hence the same set of tuples: [compare_trees] returns
    the same similarity and the same entries for either, whatever the
    order of iteration; the order of the entries may differ. *)
Theorem parallel_scan_same_comparison
        (as_completed : list (os_result FileNode) -> list (os_result FileNode))
        (order order' : set_order) (path : string) (l : list DirEntry) :
  as_completed (List.map (process_item path) l) ≡ₚ List.map (process_item path) l ->
  ((exists t, parallel_scan_directory as_completed path (Some l) = Done t)
   <-> exists t, scan_directory path (Some l) = Done t)
  /\ (forall tp ts,
        parallel_scan_directory as_completed path (Some l) = Done tp ->
        scan_directory path (Some l) = Done ts ->
        name tp = name ts
        /\ children tp ≡ₚ children ts
        /\ info_set tp = info_set ts
        /\ forall u, (compare_trees order tp u).1 = (compare_trees order' ts u).1
                     /\ (compare_trees order tp u).2 ≡ₚ (compare_trees order' ts u).2
                     /\ (compare_trees order u tp).1 = (compare_trees order' u ts).1
                     /\ (compare_trees order u tp).2 ≡ₚ (compare_trees order' u ts).2).
Proof.
  intros Hperm. cbn [parallel_scan_directory scan_directory].
  rewrite scan_loop_collect.
  set (root := new_FileNode (basename path) true 0).
  remember (List.map (process_item path) l) as rs eqn:Ers. clear Ers.
  assert (Hboth : forall tp, collect (as_completed rs) root = Done tp ->
                    exists cs cs', rs = List.map Done cs
                                   /\ cs' ≡ₚ cs
                                   /\ tp = with_children root (children root ++ cs')
                                   /\ collect rs root
                                      = Done (with_children root (children root ++ cs))).
  { intros tp Hp. apply collect_Done_inv in Hp as (cs' & Hcs' & ->).
    rewrite Hcs' in Hperm. symmetry in Hperm.
    apply Permutation_map_inv in Hperm as (cs & Hrs & Hcs).
    exists cs, cs'. rewrite Hrs, collect_Done. auto. }
  split; [split|].
  - intros [tp Hp]. destruct (Hboth tp Hp) as (cs & cs' & _ & _ & _ & ->). eauto.
  - intros [ts Hs]. apply collect_Done_inv in Hs as (cs & -> & _).
    apply Permutation_map_inv in Hperm as (cs' & -> & _).
    rewrite collect_Done. eauto.
  - intros tp ts Hp Hs. destruct (Hboth tp Hp) as (cs & cs' & _ & Hcs & -> & Hs').
    rewrite Hs' in Hs. injection Hs as <-.
    split; [reflexivity|]. cbn [children with_children root new_FileNode app].
    split; [exact Hcs|].
    assert (Hset : info_set (with_children root cs') = info_set (with_children root cs))
      by (apply info_set_perm, get_node_info_children_perm; exact Hcs).
    split; [exact Hset|].
    intros u. apply compare_trees_ext; [exact Hset|reflexivity].
Qed.

Lemma parallel_scan_same_comparison_witness :
  let l := [FileItem "a" 1 (Some [97]); FileItem "b" 1 (Some [98])] in
  exists tp ts,
    parallel_scan_directory (@rev _) "d" (Some l) = Done tp
    /\ scan_directory "d" (Some l) = Done ts
    /\ (compare_trees first_seen tp ts).1 = 1%Q
    /\ (compare_trees first_seen tp ts).2 ≡ₚ []
    /\ calculate_hash tp <> calculate_hash ts.
Proof.
  intros l.
  destruct (parallel_scan_same_comparison (@rev _) first_seen first_seen "d" l)
    as [_ H].
  { symmetry. apply Permutation_rev. }
  eexists. eexists. split; [vm_compute; reflexivity|].
  split; [vm_compute; reflexivity|].
  match goal with |- (compare_trees _ ?tp ?ts).1 = _ /\ _ =>
    destruct (H tp ts) as (_ & _ & _ & Hu);
      [vm_compute; reflexivity|vm_compute; reflexivity|];
      destruct (Hu ts) as (H1 & H2 & _)
  end.
  split; [rewrite H1; vm_compute; reflexivity|].
  split; [rewrite H2; vm_compute; reflexivity|].
  vm_compute. discriminate.
Defined.

(** ** [calculate_directory_stats] *)

Example splitext_examples :
  splitext "archive.tar.GZ" = ("archive.tar", ".GZ")
  /\ splitext ".bashrc" = (".bashrc", "")
  /\ splitext "..a.b" = ("..a", ".b")
  /\ splitext "dir.d/readme" = ("dir.d/readme", "")
  /\ splitext "name." = ("name", ".")
  /\ splitext "a/.b" = ("a/.b", "")
  /\ splitext "..." = ("...", "")
  /\ splitext "a/b.c/.d.e" = ("a/b.c/.d", ".e")
  /\ splitext "x.y/" = ("x.y/", "")
  /\ lower ".GZ" = ".gz".
Proof. vm_compute. repeat split. Qed.

Lemma Zsum_app l1 l2 : Zsum (l1 ++ l2) = Zsum l1 + Zsum l2.
Proof.
  unfold Zsum. induction l1 as [|x l1 IH]; cbn [app fold_right]; [reflexivity|].
  rewrite IH. lia.
Qed.

Lemma incr_lookup k k' v (stats : gmap string Z) :
  default 0 (incr k' v stats !! k)
  = default 0 (stats !! k) + (if String.eqb k k' then v else 0).
Proof.
  unfold incr. destruct (String.eqb_spec k k') as [->|Hne].
  - rewrite lookup_insert_eq. reflexivity.
  - rewrite lookup_insert_ne by congruence. lia.
Qed.

Lemma incr_is_Some k k' v (stats : gmap string Z) :
  is_Some (incr k' v stats !! k) <-> is_Some (stats !! k) \/ String.eqb k k' = true.
Proof.
  unfold incr. destruct (String.eqb_spec k k') as [->|Hne].
  - rewrite lookup_insert_eq. split; [auto|]. intros _. eauto.
  - rewrite lookup_insert_ne by congruence. split; [auto|].
    intros [H|H]; [exact H|discriminate].
Qed.

Lemma traverse_unfold n stats :
  traverse n stats
  = fold_left (fun stats child => traverse child stats) (children n)
              (if is_dir n then incr "directories" 1 stats
               else incr (ext_key n) 1
                         (incr "total_size" (size n) (incr "files" 1 stats))).
Proof. destruct n; reflexivity. Qed.

Lemma traverse_fold_lookup k cs :
  Forall (fun c => forall stats,
              default 0 (traverse c stats !! k)
              = default 0 (stats !! k) + Zsum (List.map (contribution k) (nodes c))
              /\ (is_Some (traverse c stats !! k)
                  <-> is_Some (stats !! k) \/ existsb (touches k) (nodes c) = true))
         cs ->
  forall stats0,
    default 0 (fold_left (fun stats child => traverse child stats) cs stats0 !! k)
    = default 0 (stats0 !! k) + Zsum (List.map (contribution k) (flat_map nodes cs))
    /\ (is_Some (fold_left (fun stats child => traverse child stats) cs stats0 !! k)
        <-> is_Some (stats0 !! k) \/ existsb (touches k) (flat_map nodes cs) = true).
Proof.
  induction 1 as [|c cs Hc _ IHcs]; intros stats0; cbn [fold_left flat_map].
  - cbn. split; [lia|]. split; [auto|]. intros [H|H]; [exact H|discriminate].
  - destruct (IHcs (traverse c stats0)) as [E1 E2].
    destruct (Hc stats0) as [F1 F2].
    rewrite List.map_app, Zsum_app, existsb_app, orb_true_iff.
    rewrite E1, E2, F1, F2. split; [lia|tauto].
Qed.

(** Under any key the result holds what was there plus what the nodes
    of the tree add, and a key is present after the traversal when it
    was before or some node touches it. *)
Lemma traverse_lookup k n : forall stats,
  default 0 (traverse n stats !! k)
  = default 0 (stats !! k) + Zsum (List.map (contribution k) (nodes n))
  /\ (is_Some (traverse n stats !! k)
      <-> is_Some (stats !! k) \/ existsb (touches k) (nodes n) = true).
Proof.
  induction n as [nm d cs h sz IH] using FileNode_children_ind.
  intros stats. rewrite traverse_unfold, nodes_unfold.
  cbn [children is_dir size List.map existsb].
  pose proof (traverse_fold_lookup k cs IH) as Hfold. clear IH.
  set (n := mkFileNode nm d cs h sz).
  set (stats1 := if d then _ else _).
  assert (H1 : default 0 (stats1 !! k) = default 0 (stats !! k) + contribution k n
               /\ (is_Some (stats1 !! k) <-> is_Some (stats !! k) \/ touches k n = true)).
  { subst stats1. unfold contribution, touches. cbn [is_dir n size].
    destruct d.
    - rewrite incr_lookup, incr_is_Some. split; [reflexivity|tauto].
    - rewrite !incr_lookup, !incr_is_Some, !orb_true_iff. split; [lia|tauto]. }
  clearbody stats1. destruct H1 as [H1 H1'].
  change (Zsum (contribution k n :: ?l)) with (contribution k n + Zsum l).
  rewrite orb_true_iff.
  destruct (Hfold stats1) as [E1 E2]. rewrite E1, E2, H1, H1'. split; [lia|tauto].
Qed.

Lemma key_files_ne_ext e : ("files" =? "files_" +:+ e)%string = false.
Proof. reflexivity. Qed.






Lemma calculate_directory_stats_lookup k node :
  default 0 (calculate_directory_stats node !! k)
  = Zsum (List.map (contribution k) (nodes node)).
Proof.
  unfold calculate_directory_stats.
  destruct (traverse_lookup k node ∅) as [-> _]. rewrite lookup_empty. reflexivity.
Qed.

(** The two counters "directories" and "files" add up to the number of
    tuples [get_node_info] lists for the tree, which is the number the
    report of [generate_diff_report] calls the total of files. *)
Theorem calculate_directory_stats_total (node : FileNode) :
  let stats := calculate_directory_stats node in
  default 0 (stats !! "directories") + default 0 (stats !! "files")
  = Z.of_nat (length (get_node_info node)).
Proof.
  intros stats. subst stats. rewrite !calculate_directory_stats_lookup.
  rewrite get_node_info_nodes, length_map.
  induction (nodes node) as [|n l IH]; [reflexivity|].
  cbn [List.map length]. change (Zsum (?x :: ?r)) with (x + Zsum r) in *.
  assert (E : contribution "directories" n + contribution "files" n = 1).
  { unfold contribution, ext_key. destruct (is_dir n); [reflexivity|].
    rewrite key_files_ne_ext. reflexivity. }
  lia.
Qed.

(** ** [generate_tree_structure] *)

Lemma sorted_reverse_map {A B} (key : B -> bool * string) (f : A -> B) l :
  sorted_reverse key (List.map f l) = List.map f (sorted_reverse (fun a => key (f a)) l).
Proof.
  induction l as [|x l IH]; [reflexivity|].
  cbn [List.map sorted_reverse fold_right].
  change (fold_right (insert_reverse key) [] (List.map f l))
    with (sorted_reverse key (List.map f l)).
  change (fold_right (insert_reverse (fun a => key (f a))) [] l)
    with (sorted_reverse (fun a => key (f a)) l).
  rewrite IH. generalize (sorted_reverse (fun a => key (f a)) l). intros s.
  induction s as [|y s IHs]; [reflexivity|].
  cbn [List.map insert_reverse]. destruct (key_lt (key (f x)) (key (f y))).
  - cbn [List.map]. rewrite IHs. reflexivity.
  - reflexivity.
Qed.

(** The equation of the source: the header line, then the children in
    sorted order, a directory by the recursive call and anything else by
    a line of its own. *)
Lemma generate_tree_structure_unfold node indent :
  generate_tree_structure node indent
  = fold_left (fun result child =>
                 if is_dir child
                 then result +:+ generate_tree_structure child (indent +:+ "  ")
                 else result +:+ indent +:+ "  " +:+ name child +:+ newline)
              (sorted_reverse sort_key (children node))
              (indent +:+ name node +:+ newline).
Proof.
  destruct node as [nm d cs h sz]. cbn [generate_tree_structure children name].
  rewrite (sorted_reverse_map (fun r : FileNode * string => sort_key r.1)).
  cbn [fst]. generalize (indent +:+ nm +:+ newline).
  induction (sorted_reverse (fun a => sort_key a) cs) as [|c s IH]; intros acc.
  - reflexivity.
  - cbn [List.map fold_left fst snd]. apply IH.
Qed.

Example generate_tree_structure_example :
  generate_tree_structure
    (directory "r" [file "a" 1 "h"; directory "d" [file "x" 1 "h"]; file "b" 1 "h"]) ""
  = "r" +:+ newline +:+ "  d" +:+ newline +:+ "    x" +:+ newline
    +:+ "  b" +:+ newline +:+ "  a" +:+ newline.
Proof. reflexivity. Qed.

(** The order of the keys is a strict total order. *)
Lemma ascii_compare_refl a : Ascii.compare a a = Eq.
Proof. apply N.compare_refl. Qed.

Lemma string_compare_lt_trans a : forall b c,
  String.compare a b = Lt -> String.compare b c = Lt -> String.compare a c = Lt.
Proof.
  induction a as [|x a IH]; intros [|y b] [|z c]; cbn [String.compare];
    try discriminate; try reflexivity.
  destruct (Ascii.compare x y) eqn:Exy; try discriminate;
    destruct (Ascii.compare y z) eqn:Eyz; try discriminate; intros H1 H2.
  - apply Ascii.compare_eq_iff in Exy, Eyz. subst.
    rewrite ascii_compare_refl. eapply IH; eassumption.
  - apply Ascii.compare_eq_iff in Exy. subst. rewrite Eyz. reflexivity.
  - apply Ascii.compare_eq_iff in Eyz. subst. rewrite Exy. reflexivity.
  - unfold Ascii.compare in *. rewrite N.compare_lt_iff in *.
    replace (N_of_ascii x ?= N_of_ascii z)%N with Lt; [reflexivity|].
    symmetry. apply N.compare_lt_iff. lia.
Qed.

Lemma string_ltb_trans a b c :
  String.ltb a b = true -> String.ltb b c = true -> String.ltb a c = true.
Proof.
  unfold String.ltb. intros H1 H2.
  rewrite (string_compare_lt_trans a b c); [reflexivity| |].
  - destruct (String.compare a b); [discriminate|reflexivity|discriminate].
  - destruct (String.compare b c); [discriminate|reflexivity|discriminate].
Qed.

Lemma string_ltb_asym a b : String.ltb a b = true -> String.ltb b a = false.
Proof.
  unfold String.ltb. rewrite (String.compare_antisym b a).
  destruct (String.compare a b); [discriminate|reflexivity|discriminate].
Qed.

Lemma string_ltb_total a b :
  a <> b -> String.ltb a b = true \/ String.ltb b a = true.
Proof.
  intros Hne. unfold String.ltb. rewrite (String.compare_antisym b a).
  destruct (String.compare a b) eqn:E; cbn; auto.
  apply String.compare_eq_iff in E. contradiction.
Qed.

Lemma key_lt_trans a b c :
  key_lt a b = true -> key_lt b c = true -> key_lt a c = true.
Proof.
  destruct a as [[] a], b as [[] b], c as [[] c]; unfold key_lt; cbn [fst snd];
    try discriminate; try reflexivity; apply string_ltb_trans.
Qed.

Lemma key_lt_asym a b : key_lt a b = true -> key_lt b a = false.
Proof.
  destruct a as [[] a], b as [[] b]; unfold key_lt; cbn [fst snd];
    try discriminate; try reflexivity; apply string_ltb_asym.
Qed.

Lemma key_lt_total a b : a <> b -> key_lt a b = true \/ key_lt b a = true.
Proof.
  destruct a as [[] a], b as [[] b]; unfold key_lt; cbn [fst snd]; auto;
    intros Hne; apply string_ltb_total; congruence.
Qed.

Section SortedFacts.
Context {A : Type} (key : A -> bool * string).

Lemma insert_reverse_lt x y s :
  key_lt (key x) (key y) = true ->
  insert_reverse key x (insert_reverse key y s)
  = insert_reverse key y (insert_reverse key x s).
Proof.
  intros Hxy. pose proof (key_lt_asym _ _ Hxy) as Hyx.
  induction s as [|z s IH]; cbn [insert_reverse].
  - rewrite Hxy, Hyx. reflexivity.
  - destruct (key_lt (key y) (key z)) eqn:Hyz.
    + rewrite (key_lt_trans _ _ _ Hxy Hyz). cbn [insert_reverse].
      rewrite (key_lt_trans _ _ _ Hxy Hyz), Hyz, IH. reflexivity.
    + cbn [insert_reverse]. rewrite Hxy.
      destruct (key_lt (key x) (key z)) eqn:Hxz; cbn [insert_reverse].
      * rewrite Hyz. reflexivity.
      * rewrite Hyx. reflexivity.
Qed.

Lemma insert_reverse_comm x y s :
  key x <> key y ->
  insert_reverse key x (insert_reverse key y s)
  = insert_reverse key y (insert_reverse key x s).
Proof.
  intros Hne. destruct (key_lt_total _ _ Hne) as [H|H].
  - apply insert_reverse_lt. exact H.
  - symmetry. apply insert_reverse_lt. exact H.
Qed.

(** Where no two items share a key, the sorted list does not depend on
    the order of the input. *)
Lemma sorted_reverse_perm l l' :
  l ≡ₚ l' -> NoDup (List.map key l) ->
  sorted_reverse key l = sorted_reverse key l'.
Proof.
  induction 1 as [|x l l' Hp IH|x y l|l l' l'' Hp IH Hp' IH']; intros Hnd.
  - reflexivity.
  - cbn [List.map] in Hnd. apply NoDup_cons_1_2 in Hnd.
    unfold sorted_reverse in *. cbn [fold_right]. rewrite IH by exact Hnd.
    reflexivity.
  - cbn [List.map] in Hnd. apply NoDup_cons in Hnd as [Hin _].
    unfold sorted_reverse. cbn [fold_right]. symmetry.
    apply insert_reverse_comm. intros E. apply Hin. rewrite E. apply list_elem_of_here.
  - rewrite IH by exact Hnd. apply IH'.
    assert (Hm : List.map key l ≡ₚ List.map key l') by (apply Permutation_map; exact Hp).
    rewrite <- Hm. exact Hnd.
Qed.

Lemma insert_reverse_perm x s : insert_reverse key x s ≡ₚ x :: s.
Proof.
  induction s as [|y s IH]; [reflexivity|]. cbn [insert_reverse].
  destruct (key_lt (key x) (key y)); [|reflexivity].
  rewrite IH. apply perm_swap.
Qed.

Lemma sorted_reverse_permutation l : sorted_reverse key l ≡ₚ l.
Proof.
  induction l as [|x l IH]; [reflexivity|].
  unfold sorted_reverse in *. cbn [fold_right].
  rewrite insert_reverse_perm, IH. reflexivity.
Qed.

End SortedFacts.

Lemma reordered_refl t : reordered t t.
Proof.
  induction t as [nm d cs h sz IH] using FileNode_children_ind.
  apply (reordered_node _ _ cs); [reflexivity|reflexivity| |reflexivity].
  cbn [children]. induction IH; constructor; assumption.
Qed.

Lemma distinct_siblings_inv t :
  distinct_siblings t ->
  NoDup (List.map sort_key (children t)) /\ Forall distinct_siblings (children t).
Proof.
  unfold distinct_siblings. rewrite nodes_unfold. intros H.
  apply Forall_cons in H as [H1 H2]. split; [exact H1|]. clear H1.
  induction (children t) as [|c cs IH]; [constructor|].
  cbn [flat_map] in H2. apply Forall_app in H2 as [Hc Hcs].
  constructor; [exact Hc|apply IH; exact Hcs].
Qed.

Section SortedRelated.
Context {A B : Type} (keyA : A -> bool * string) (keyB : B -> bool * string).
Context (R : A -> B -> Prop).
Hypothesis R_key : forall a b, R a b -> keyA a = keyB b.

Lemma insert_reverse_related x y s s' :
  R x y -> Forall2 R s s' ->
  Forall2 R (insert_reverse keyA x s) (insert_reverse keyB y s').
Proof.
  intros Hxy. induction 1 as [|a b s s' Hab Hs IH]; cbn [insert_reverse].
  - repeat constructor. exact Hxy.
  - rewrite (R_key _ _ Hxy), (R_key _ _ Hab).
    destruct (key_lt (keyB y) (keyB b)); repeat constructor; assumption.
Qed.

Lemma sorted_reverse_related l l' :
  Forall2 R l l' -> Forall2 R (sorted_reverse keyA l) (sorted_reverse keyB l').
Proof.
  induction 1 as [|a b l l' Hab Hl IH]; [constructor|].
  unfold sorted_reverse in *. cbn [fold_right].
  apply insert_reverse_related; assumption.
Qed.

End SortedRelated.

Lemma generate_tree_structure_reordered_aux t : forall u,
  reordered t u -> distinct_siblings u ->
  forall indent, generate_tree_structure t indent = generate_tree_structure u indent.
Proof.
  induction t as [nm d cs h sz IH] using FileNode_children_ind.
  intros u Hr Hu indent. inversion Hr as [t' u' ds Hname Hdir Hcs Hperm Et Eu].
  subst t' u'. cbn [name is_dir children] in *.
  apply distinct_siblings_inv in Hu as [Hnd Hdist].
  rewrite !generate_tree_structure_unfold. cbn [name children]. rewrite <- Hname.
  rewrite <- (sorted_reverse_perm sort_key ds (children u) Hperm).
  2:{ assert (Hm : List.map sort_key ds ≡ₚ List.map sort_key (children u))
        by (apply Permutation_map; exact Hperm).
      rewrite Hm. exact Hnd. }
  rewrite <- Hperm in Hdist. clear Hperm Hnd Hr.
  set (R := fun c e : FileNode =>
              sort_key c = sort_key e
              /\ forall indent, generate_tree_structure c indent
                                = generate_tree_structure e indent).
  assert (HR : Forall2 R cs ds).
  { clear -IH Hcs Hdist. induction Hcs as [|c e cs ds Hce Hcs IHcs]; [constructor|].
    apply Forall_cons in IH as [IHc IH]. apply Forall_cons in Hdist as [He Hdist].
    constructor; [|apply IHcs; assumption].
    split; [|intros i; apply IHc; assumption].
    inversion Hce as [? ? ? Hn Hd _ _]. unfold sort_key. rewrite Hn, Hd. reflexivity. }
  apply (sorted_reverse_related sort_key sort_key R) in HR; [|intros a b [E _]; exact E].
  generalize (indent +:+ nm +:+ newline).
  induction HR as [|c e s s' [Hk Hg] _ IHs]; intros acc; [reflexivity|].
  cbn [fold_left]. injection Hk as -> ->. rewrite Hg. apply IHs.
Qed.

Lemma parallel_scan_children
      (as_completed : list (os_result FileNode) -> list (os_result FileNode))
      (path : string) (l : list DirEntry) tp ts :
  as_completed (List.map (process_item path) l) ≡ₚ List.map (process_item path) l ->
  parallel_scan_directory as_completed path (Some l) = Done tp ->
  scan_directory path (Some l) = Done ts ->
  name tp = name ts /\ is_dir tp = is_dir ts /\ children tp ≡ₚ children ts.
Proof.
  intros Hperm. cbn [parallel_scan_directory scan_directory].
  rewrite scan_loop_collect.
  set (root := new_FileNode (basename path) true 0).
  remember (List.map (process_item path) l) as rs eqn:Ers. clear Ers.
  intros Hp Hs.
  apply collect_Done_inv in Hp as (cs' & Hcs' & ->).
  apply collect_Done_inv in Hs as (cs & -> & ->).
  rewrite Hcs' in Hperm. apply Permutation_map_inv in Hperm as (cs'' & E & Hcs).
  assert (cs' = cs'') as <-.
  { clear -E. revert cs'' E. induction cs' as [|c cs' IH]; intros [|c'' cs'']; cbn;
      try discriminate; [reflexivity|]. intros [= -> E]. f_equal. apply IH. exact E. }
  split; [reflexivity|]. split; [reflexivity|].
  cbn [children with_children root new_FileNode app]. symmetry. exact Hcs.
Qed.

(** The order of the children does not show in the rendered tree, as
    long as no node has two children of the same kind and name: trees
    that differ in that order, and in the hashes it leads to, are
    rendered alike. *)
Theorem generate_tree_structure_reordered (t u : FileNode) (indent : string) :
  reordered t u -> distinct_siblings u ->
  generate_tree_structure t indent = generate_tree_structure u indent.
Proof. intros Hr Hu. apply generate_tree_structure_reordered_aux; assumption. Qed.

Lemma generate_tree_structure_reordered_witness :
  generate_tree_structure
    (mkFileNode "r" true [file "a" 1 "x"; directory "d" []] (Some "h1") 0) "  "
  = generate_tree_structure
      (mkFileNode "r" true [directory "d" []; file "a" 1 "x"] (Some "h2") 0) "  ".
Proof.
  apply generate_tree_structure_reordered.
  - apply (reordered_node _ _ [file "a" 1 "x"; directory "d" []]);
      [reflexivity|reflexivity| |apply perm_swap].
    repeat constructor; apply reordered_refl.
  - unfold distinct_siblings. apply (bool_decide_unpack _). vm_compute. exact I.
Defined.

(** [parallel_scan_directory] hands the children of the root over in
    the order the workers finish, yet the tree it returns is rendered
    as the tree of [scan_directory] is, when no directory holds a name
    twice. *)
Theorem parallel_scan_same_tree_structure
        (as_completed : list (os_result FileNode) -> list (os_result FileNode))
        (path : string) (l : list DirEntry) (tp ts : FileNode) (indent : string) :
  as_completed (List.map (process_item path) l) ≡ₚ List.map (process_item path) l ->
  parallel_scan_directory as_completed path (Some l) = Done tp ->
  scan_directory path (Some l) = Done ts ->
  distinct_siblings ts ->
  generate_tree_structure tp indent = generate_tree_structure ts indent.
Proof.
  intros Hperm Hp Hs Hd.
  destruct (parallel_scan_children _ _ _ _ _ Hperm Hp Hs) as (Hn & Hdir & Hcs).
  apply generate_tree_structure_reordered_aux; [|exact Hd].
  apply (reordered_node _ _ (children tp)); [exact Hn|exact Hdir| |exact Hcs].
  generalize (children tp). intros cs.
  induction cs; constructor; [apply reordered_refl|assumption].
Qed.

Lemma parallel_scan_same_tree_structure_witness :
  exists tp ts,
    parallel_scan_directory (@rev _) "d"
      (Some [FileItem "a" 1 (Some [97]); DirItem "b" (Some [])]) = Done tp
    /\ scan_directory "d" (Some [FileItem "a" 1 (Some [97]); DirItem "b" (Some [])])
       = Done ts
    /\ children tp <> children ts
    /\ generate_tree_structure tp "" = generate_tree_structure ts "".
Proof.
  eexists. eexists. split; [vm_compute; reflexivity|].
  split; [vm_compute; reflexivity|]. split; [vm_compute; discriminate|].
  apply (parallel_scan_same_tree_structure
           (@rev _) "d" [FileItem "a" 1 (Some [97]); DirItem "b" (Some [])]).
  - symmetry. apply Permutation_rev.
  - vm_compute. reflexivity.
  - vm_compute. reflexivity.
  - unfold distinct_siblings. apply (bool_decide_unpack _). vm_compute. exact I.
Defined.
